(** * ZTF star/galaxy image classification: normalisation and evaluation

    A shallow embedding of the two notebooks of the repository,
    [data_normalization.ipynb] and [star_gal_MuyGPs_classification.ipynb],
    and the properties of their specification.

    Numbers.  The notebooks compute with numpy's floats.  Two models of
    them are used.

    - [num]: a real number, or one of the three special values [+inf],
      [-inf] and [nan] that numpy produces instead of raising (division by
      zero, logarithm of a non-positive number).  Arithmetic on finite
      values is exact; a zero has no sign (it behaves as [+0.0], the zero
      that [x - x] and [log10 1] produce).  The tables, the files and the
      sweep hold such values, and the properties stated on them are those
      of the formulas in exact arithmetic.

    - [IEEE.float]: a rational of a binary format, or [inf], [-inf], [nan],
      with every operation rounded to the nearest number of the format
      (ties to even, gradual underflow, overflow to infinity).  It is used
      where rounding decides the property: the interval of techniques 2
      and 3, and the test size of a split.

    Exceptions.  A Python computation that may raise is a value of
    [result]: [Ok v] or [Raise e]. *)

From Stdlib Require Import Reals Lqa Lra Lia List String Ascii Bool Arith ZArith
  QArith Qround Qabs Qpower Qreduction Permutation DecimalString SpecFloat.
Import ListNotations.

Open Scope R_scope.

(** ** Exceptions *)

Inductive exn : Type :=
| ValueError        (* numpy: reduction of an empty array; sklearn: empty split *)
| NameError         (* a variable read before any assignment *)
| EmptyDataError    (* pandas: no columns to parse from file *)
| FileNotFoundError
| IndexError
| OverflowError     (* math.ceil of an infinite float *)
| ExternalError (code : nat).   (* anything the external classifier raises *)

Inductive result (A : Type) : Type :=
| Ok (a : A)
| Raise (e : exn).
Arguments Ok {A} a.
Arguments Raise {A} e.

Definition bind {A B : Type} (m : result A) (k : A -> result B) : result B :=
  match m with
  | Ok a => k a
  | Raise e => Raise e
  end.

Notation "x <- m ;; k" := (bind m (fun x => k))
  (at level 61, m at next level, right associativity).

(** ** Floating-point values *)

Inductive num : Type :=
| Fin (r : R)
| PInf
| NInf
| NaN.

(** The sign of a real, as a three-way test. *)
Definition Rsign (x : R) : comparison :=
  match total_order_T x 0 with
  | inleft (left _) => Lt
  | inleft (right _) => Eq
  | inright _ => Gt
  end.

(** [a - b] *)
Definition nsub (a b : num) : num :=
  match a, b with
  | NaN, _ | _, NaN => NaN
  | Fin x, Fin y => Fin (x - y)
  | Fin _, PInf => NInf
  | Fin _, NInf => PInf
  | PInf, PInf => NaN
  | PInf, _ => PInf
  | NInf, NInf => NaN
  | NInf, _ => NInf
  end.

(** [a * b] *)
Definition nmul (a b : num) : num :=
  match a, b with
  | NaN, _ | _, NaN => NaN
  | Fin x, Fin y => Fin (x * y)
  | Fin x, PInf | PInf, Fin x =>
      match Rsign x with Gt => PInf | Lt => NInf | Eq => NaN end
  | Fin x, NInf | NInf, Fin x =>
      match Rsign x with Gt => NInf | Lt => PInf | Eq => NaN end
  | PInf, PInf | NInf, NInf => PInf
  | PInf, NInf | NInf, PInf => NInf
  end.

(** [a + b] *)
Definition nadd (a b : num) : num :=
  match a, b with
  | NaN, _ | _, NaN => NaN
  | Fin x, Fin y => Fin (x + y)
  | PInf, NInf | NInf, PInf => NaN
  | PInf, _ | _, PInf => PInf
  | NInf, _ | _, NInf => NInf
  end.

(** [a / b]: numpy warns and yields [inf] or [nan] on a zero divisor. *)
Definition ndiv (a b : num) : num :=
  match a, b with
  | NaN, _ | _, NaN => NaN
  | Fin x, Fin y =>
      match Rsign y with
      | Eq => match Rsign x with Eq => NaN | Gt => PInf | Lt => NInf end
      | _ => Fin (x / y)
      end
  | Fin _, _ => Fin 0
  | PInf, Fin y => match Rsign y with Lt => NInf | _ => PInf end
  | NInf, Fin y => match Rsign y with Lt => PInf | _ => NInf end
  | _, _ => NaN
  end.

(** [np.log10]: [-inf] at zero and [nan] below it (with a warning). *)
Definition log10 (a : num) : num :=
  match a with
  | NaN => NaN
  | PInf => PInf
  | NInf => NaN
  | Fin x =>
      match Rsign x with
      | Gt => Fin (ln x / ln 10)
      | Eq => NInf
      | Lt => NaN
      end
  end.

(** [np.minimum] and [np.maximum] of two values: a [nan] propagates. *)
Definition minimum (a b : num) : num :=
  match a, b with
  | NaN, _ | _, NaN => NaN
  | NInf, _ | _, NInf => NInf
  | PInf, c | c, PInf => c
  | Fin x, Fin y => Fin (Rmin x y)
  end.

Definition maximum (a b : num) : num :=
  match a, b with
  | NaN, _ | _, NaN => NaN
  | PInf, _ | _, PInf => PInf
  | NInf, c | c, NInf => c
  | Fin x, Fin y => Fin (Rmax x y)
  end.

(** [np.min] / [np.amin] and [np.max] / [np.amax] of an array: the reduction
    of an empty array raises [ValueError]. *)
Definition amin (data : list num) : result num :=
  match data with
  | [] => Raise ValueError
  | x :: rest => Ok (fold_left minimum rest x)
  end.

Definition amax (data : list num) : result num :=
  match data with
  | [] => Raise ValueError
  | x :: rest => Ok (fold_left maximum rest x)
  end.

(** The comparison [a == b] of Python: [nan] equals nothing. *)
Definition num_eqb (a b : num) : bool :=
  match a, b with
  | Fin x, Fin y => if Req_dec_T x y then true else false
  | PInf, PInf | NInf, NInf => true
  | _, _ => false
  end.

(** ** [data_normalization.ipynb]: the five techniques *)

Section Techniques.

(** The corpus extrema are globals of the notebook, assigned before the
    techniques are defined. *)
Variables min_pixel_all max_pixel_all : num.

Definition norm_1 (data : list num) : result (list num) :=
  let data_log := map log10 data in
  min_log_data <- amin data_log ;;
  let data_norm := map (fun v => nsub v min_log_data) data_log in
  Ok data_norm.

Definition norm_2 (data : list num) : result (list num) :=
  min_data <- amin data ;;
  max_data <- amax data ;;
  let data_norm :=
    map (fun v => ndiv (nsub v min_data) (nsub max_data min_data)) data in
  Ok data_norm.

Definition norm_3 (data : list num) : result (list num) :=
  let data_norm :=
    map (fun v => ndiv (nsub v min_pixel_all)
                       (nsub max_pixel_all min_pixel_all)) data in
  Ok data_norm.

Definition norm_4 (data : list num) : result (list num) :=
  min_data <- amin data ;;
  let data_min_subtracted := map (fun v => nsub v min_data) data in
  let data_norm := map (fun v => ndiv v max_pixel_all) data_min_subtracted in
  Ok data_norm.

Definition norm_5 (data : list num) : result (list num) :=
  let log_data := map log10 data in
  let log_max_pixel := log10 max_pixel_all in
  min_data <- amin log_data ;;
  let data_min_subtracted := map (fun v => nsub v min_data) log_data in
  let data_norm := map (fun v => ndiv v log_max_pixel) data_min_subtracted in
  Ok data_norm.

Definition techniques : list (list num -> result (list num)) :=
  [norm_1; norm_2; norm_3; norm_4; norm_5].

End Techniques.

(** ** Rounding: IEEE 754 binary formats

    Where a property depends on how numpy rounds, the arithmetic is that
    of IEEE 754: the exact result of an operation on rationals, rounded to
    the nearest number of the format, ties to the even mantissa, with
    gradual underflow and overflow to infinity.  A zero has no sign. *)

Module IEEE.

Local Open Scope Q_scope.

(** A binary format: [prec] bits of mantissa, [emin] the exponent of the
    least positive number [2^emin], [2^emax] the first power of two that no
    longer fits. *)
Record format : Type := {
  prec : Z;
  emin : Z;
  emax : Z
}.

(** [np.float32] and [np.float64] *)
Definition binary32 : format := {| prec := 24; emin := -149; emax := 128 |}.
Definition binary64 : format := {| prec := 53; emin := -1074; emax := 1024 |}.

Definition pow2 (e : Z) : Q := 2 ^ e.

(** The exponent of the binade of [q]: [2^mag <= |q| < 2^(mag + 1)]. *)
Definition mag (q : Q) : Z :=
  let l := (Z.log2 (Z.abs (Qnum q)) - Z.log2 (Zpos (Qden q)))%Z in
  if Qle_bool (pow2 l) (Qabs q) then l else (l - 1)%Z.

(** The integer nearest to [t], the even one of two that are equally near. *)
Definition rne (t : Q) : Z :=
  let f := Qfloor t in
  match Qcompare (t - inject_Z f) (1 # 2) with
  | Lt => f
  | Gt => (f + 1)%Z
  | Eq => if Z.even f then f else (f + 1)%Z
  end.

(** The exponent of the last mantissa bit of the floats around [q]. *)
Definition cexp (fmt : format) (q : Q) : Z :=
  Z.max (mag q - prec fmt + 1) (emin fmt).

(** [q] rounded to [prec] bits, before the test for overflow. *)
Definition round_fin (fmt : format) (q : Q) : Q :=
  Qred (inject_Z (rne (q / pow2 (cexp fmt q))) * pow2 (cexp fmt q)).

Inductive float : Type :=
| Finite (q : Q)
| PosInf
| NegInf
| NotANumber.

Definition round (fmt : format) (q : Q) : float :=
  let r := round_fin fmt q in
  if Qle_bool (pow2 (emax fmt)) (Qabs r)
  then (if Qle_bool 0 q then PosInf else NegInf)
  else Finite r.

(** A finite number of the format. *)
Definition representable (fmt : format) (q : Q) : Prop :=
  round_fin fmt q == q /\ Qabs q < pow2 (emax fmt).

(** The numbers of a format lie on a grid of step [2^emin]. *)
Definition on_grid (e : Z) (q : Q) : Prop :=
  exists k : Z, q == inject_Z k * pow2 e.

(** [a - b], computed in the format [fmt]. *)
Definition sub (fmt : format) (a b : float) : float :=
  match a, b with
  | NotANumber, _ | _, NotANumber => NotANumber
  | Finite x, Finite y => round fmt (x - y)
  | Finite _, PosInf => NegInf
  | Finite _, NegInf => PosInf
  | PosInf, PosInf => NotANumber
  | PosInf, _ => PosInf
  | NegInf, NegInf => NotANumber
  | NegInf, _ => NegInf
  end.

(** [a * b] *)
Definition mul (fmt : format) (a b : float) : float :=
  match a, b with
  | NotANumber, _ | _, NotANumber => NotANumber
  | Finite x, Finite y => round fmt (x * y)
  | Finite x, PosInf | PosInf, Finite x =>
      match Qcompare x 0 with Gt => PosInf | Lt => NegInf | Eq => NotANumber end
  | Finite x, NegInf | NegInf, Finite x =>
      match Qcompare x 0 with Gt => NegInf | Lt => PosInf | Eq => NotANumber end
  | PosInf, PosInf | NegInf, NegInf => PosInf
  | PosInf, NegInf | NegInf, PosInf => NegInf
  end.

(** [a / b]: numpy warns and yields [inf] or [nan] on a zero divisor. *)
Definition div (fmt : format) (a b : float) : float :=
  match a, b with
  | NotANumber, _ | _, NotANumber => NotANumber
  | Finite x, Finite y =>
      match Qcompare y 0 with
      | Eq => match Qcompare x 0 with
              | Eq => NotANumber | Gt => PosInf | Lt => NegInf
              end
      | _ => round fmt (x / y)
      end
  | Finite _, _ => Finite 0
  | PosInf, Finite y => match Qcompare y 0 with Lt => NegInf | _ => PosInf end
  | NegInf, Finite y => match Qcompare y 0 with Lt => PosInf | _ => NegInf end
  | _, _ => NotANumber
  end.

(** [np.minimum] and [np.maximum] of two values: a [nan] propagates. *)
Definition minimum (a b : float) : float :=
  match a, b with
  | NotANumber, _ | _, NotANumber => NotANumber
  | NegInf, _ | _, NegInf => NegInf
  | PosInf, c | c, PosInf => c
  | Finite x, Finite y => Finite (if Qle_bool x y then x else y)
  end.

Definition maximum (a b : float) : float :=
  match a, b with
  | NotANumber, _ | _, NotANumber => NotANumber
  | PosInf, _ | _, PosInf => PosInf
  | NegInf, c | c, NegInf => c
  | Finite x, Finite y => Finite (if Qle_bool x y then y else x)
  end.

(** [np.min] and [np.max] of an array *)
Definition amin (data : list float) : result float :=
  match data with
  | [] => Raise ValueError
  | x :: rest => Ok (fold_left minimum rest x)
  end.

Definition amax (data : list float) : result float :=
  match data with
  | [] => Raise ValueError
  | x :: rest => Ok (fold_left maximum rest x)
  end.

(** [float(n)] for a Python integer *)
Definition float_of_int (n : Z) : float := round binary64 (inject_Z n).

(** Technique 2 on a row of the data frame.  The frame holds float64
    (the label column makes [np.append] promote the pixels), so every
    operation is a float64 operation. *)
Definition norm_2 (data : list float) : result (list float) :=
  min_data <- amin data ;;
  max_data <- amax data ;;
  let data_norm :=
    map (fun v => div binary64 (sub binary64 v min_data)
                               (sub binary64 max_data min_data)) data in
  Ok data_norm.

Section Technique3.

(** The dtype of the images that [fits.getdata] returned, float32 or
    float64: [np.min] and [np.max] of an image are scalars of that dtype,
    and so are the corpus extrema. *)
Variable image_dtype : format.
Variables min_pixel_all max_pixel_all : float.

(** Technique 3.  [data - min_pixel_all] is a float64 array minus a scalar,
    a float64 operation; [max_pixel_all - min_pixel_all] is an operation on
    two scalars of the images' dtype, rounded to that dtype; the quotient
    of the float64 array by this scalar is a float64 operation. *)
Definition norm_3 (data : list float) : result (list float) :=
  let data_norm :=
    map (fun v => div binary64 (sub binary64 v min_pixel_all)
                               (sub image_dtype max_pixel_all min_pixel_all))
        data in
  Ok data_norm.

End Technique3.

End IEEE.

(** ** [data_normalization.ipynb]: loading, statistics and persistence *)

(** A data frame is kept as its values, row by row; a row of the notebooks'
    frames is [label, v0, v1, ...].  All cutouts have one shape (the cutout
    generator saves 20x20 images only), so rows have one length and pandas'
    padding of ragged rows does not arise. *)
Definition row := list num.
Definition table := list row.

(** The lines of a CSV file, each line the list of its cells.  The decimal
    text of a cell is not modelled: a cell is the number it denotes. *)
Definition csv := list (list num).

(** The files written so far, newest first. *)
Definition files := list (string * csv).

(** [df.to_csv(name, header=False, index=False)]: one line per row, no line
    of column names, no index column; an existing file is overwritten. *)
Definition to_csv (df : table) : csv := df.

Definition write_file (fs : files) (name : string) (content : csv) : files :=
  (name, content) :: filter (fun f => negb (String.eqb (fst f) name)) fs.

Fixpoint read_file (fs : files) (name : string) : result csv :=
  match fs with
  | [] => Raise FileNotFoundError
  | (n, content) :: rest =>
      if String.eqb n name then Ok content else read_file rest name
  end.

(** [file.startswith(p)] *)
Definition startswith (file p : string) : bool := String.prefix p file.

(** [image.flatten()]: row-major. *)
Definition flatten (image : list (list num)) : list num := List.concat image.

(** The variables the flatten-and-label loop assigns.  [obj_id] is unbound
    until a file name with one of the two prefixes has been seen. *)
Record loader_state : Type := {
  obj_id : option num;
  min_pixel : list num;
  max_pixel : list num;
  gal_star : table
}.

Definition loader_init : loader_state :=
  {| obj_id := None; min_pixel := []; max_pixel := []; gal_star := [] |}.

Section Loader.

(** [fits.getdata(cutout_path + file)] *)
Variable getdata : string -> list (list num).

(** One iteration of the loop over [cutout_files]. *)
Definition loader_step (st : loader_state) (file : string)
  : result loader_state :=
  let image := getdata file in
  let id1 := if startswith file "star" then Some (Fin 0) else obj_id st in
  let id2 := if startswith file "galaxy" then Some (Fin 1) else id1 in
  let data_flattened := flatten image in
  mn <- amin data_flattened ;;
  mx <- amax data_flattened ;;
  match id2 with
  | None => Raise NameError
  | Some id =>
      Ok {| obj_id := id2;
            min_pixel := min_pixel st ++ [mn];
            max_pixel := max_pixel st ++ [mx];
            gal_star := gal_star st ++ [id :: data_flattened] |}
  end.

Fixpoint loader_loop (st : loader_state) (cutout_files : list string)
  : result loader_state :=
  match cutout_files with
  | [] => Ok st
  | file :: rest => st' <- loader_step st file ;; loader_loop st' rest
  end.

End Loader.

(** The technique loop: one pass over the rows of [gal_star]. *)
Definition apply_row (technique : list num -> result (list num)) (r : row)
  : result row :=
  let raw_data := skipn 1 r in
  let obj_id := firstn 1 r in
  norm_data <- technique raw_data ;;
  Ok (obj_id ++ norm_data).

Fixpoint apply_technique (technique : list num -> result (list num))
  (gal_star : table) (gal_star_norm : table) : result table :=
  match gal_star with
  | [] => Ok gal_star_norm
  | r :: rest =>
      r' <- apply_row technique r ;;
      apply_technique technique rest (gal_star_norm ++ [r'])
  end.

(** [str(n)] for a natural number. *)
Definition str (n : nat) : string := NilEmpty.string_of_uint (Nat.to_uint n).

Definition norm_file_name (num : nat) : string :=
  ("norm_" ++ str (num + 1) ++ "_image_data.csv")%string.

(** The loop over [enumerate(techniques)]: each technique's table is built
    in full and then written.  An exception leaves the loop; the files
    written before it stay. *)
Fixpoint run_techniques
  (ts : list (nat * (list num -> result (list num))))
  (gal_star : table) (fs : files) : files * option exn :=
  match ts with
  | [] => (fs, None)
  | (num, technique) :: rest =>
      match apply_technique technique gal_star [] with
      | Raise e => (fs, Some e)
      | Ok gal_star_norm =>
          run_techniques rest gal_star
            (write_file fs (norm_file_name num) (to_csv gal_star_norm))
      end
  end.

Definition enumerate {A : Type} (l : list A) : list (nat * A) :=
  combine (seq 0 (List.length l)) l.

(** The notebook from the flatten loop to the last [to_csv]: the files it
    leaves behind and the exception that stopped it, if any. *)
Definition data_normalization (getdata : string -> list (list num))
  (cutout_files : list string) (fs : files) : files * option exn :=
  match loader_loop getdata loader_init cutout_files with
  | Raise e => (fs, Some e)
  | Ok st =>
      let fs1 := write_file fs "raw_image_data.csv" (to_csv (gal_star st)) in
      match amin (min_pixel st) with
      | Raise e => (fs1, Some e)
      | Ok min_pixel_all =>
          match amax (max_pixel st) with
          | Raise e => (fs1, Some e)
          | Ok max_pixel_all =>
              run_techniques
                (enumerate (techniques min_pixel_all max_pixel_all))
                (gal_star st) fs1
          end
      end
  end.

(** ** [star_gal_MuyGPs_classification.ipynb]: reloading the tables *)

(** What [pd.read_csv(name)] returns.  The call passes no [header]
    argument, so pandas takes the first line of the file as the column
    names and the lines after it as the data. *)
Record DataFrame : Type := {
  columns : list num;
  values : table
}.

Definition read_csv (fs : files) (name : string) : result DataFrame :=
  content <- read_file fs name ;;
  match content with
  | [] => Raise EmptyDataError
  | header :: body => Ok {| columns := header; values := body |}
  end.

(** [data.iloc[:, 0].values] and [data.iloc[:, 1:].values] *)
Definition truth_labels_of (data : DataFrame) : list num :=
  map (fun r => hd NaN r) (values data).

Definition image_data_of (data : DataFrame) : table :=
  map (fun r => skipn 1 r) (values data).

Definition data_file_names : list (string * string) :=
  [ ("raw_image_data.csv", "Raw data");
    ("norm_1_image_data.csv", "Normalized data 1");
    ("norm_2_image_data.csv", "Normalized data 2");
    ("norm_3_image_data.csv", "Normalized data 3");
    ("norm_4_image_data.csv", "Normalized data 4");
    ("norm_5_image_data.csv", "Normalized data 5") ]%string.

Fixpoint read_all (fs : files) (names : list (string * string))
  : result (list (DataFrame * string)) :=
  match names with
  | [] => Ok []
  | (name, data_label) :: rest =>
      df <- read_csv fs name ;;
      dfs <- read_all fs rest ;;
      Ok ((df, data_label) :: dfs)
  end.

Definition data_files (fs : files) : result (list (DataFrame * string)) :=
  read_all fs data_file_names.

(** ** [star_gal_MuyGPs_classification.ipynb]: encoding *)

(** The loop of [generate_onehot_value]: an [if] / [elif] without [else]. *)
Definition onehot_step (onehot : list (list num)) (val : num)
  : list (list num) :=
  if num_eqb val (Fin 0) then onehot ++ [[Fin 1; Fin (-1)]]
  else if num_eqb val (Fin 1) then onehot ++ [[Fin (-1); Fin 1]]
  else onehot.

Definition generate_onehot_value (values : list num) : list (list num) :=
  fold_left onehot_step values [].

(** ** Splitting: [sklearn.model_selection.train_test_split]

    The function belongs to scikit-learn.  It is modelled after the
    library: [_validate_shuffle_split] for the two sizes (a float
    [test_size] must lie strictly between 0 and 1; the test size is
    [math.ceil(test_size * n_samples)], the CEILING of the float64 product
    of the ratio and the row count; an empty training set is an error),
    and [ShuffleSplit._iter_indices] for the indices (the first [n_test]
    entries of a seeded permutation are the test indices, the next
    [n_train] the training indices).  [test_size] is the number as the
    notebook writes it ([.33]); Python holds the float64 nearest to it,
    and every test and product below is on that float. *)

Definition validate_shuffle_split (n_samples : nat) (test_size : Q)
  : result (nat * nat) :=
  match IEEE.round IEEE.binary64 test_size with
  | IEEE.Finite test_size =>
      if (Qle_bool test_size 0 || Qle_bool 1 test_size)%bool
      then Raise ValueError
      else
        match IEEE.mul IEEE.binary64 (IEEE.Finite test_size)
                       (IEEE.float_of_int (Z.of_nat n_samples)) with
        | IEEE.Finite product =>
            let n_test := Z.to_nat (Qceiling product) in
            let n_train := (n_samples - n_test)%nat in
            if (n_train =? 0)%nat then Raise ValueError
            else Ok (n_train, n_test)
        | IEEE.NotANumber => Raise ValueError
        | _ => Raise OverflowError
        end
  | _ => Raise ValueError          (* [inf] or [-inf]: outside (0, 1) *)
  end.

(** [a[indices]] *)
Fixpoint safe_indexing {A : Type} (a : list A) (indices : list nat)
  : result (list A) :=
  match indices with
  | [] => Ok []
  | i :: rest =>
      match nth_error a i with
      | None => Raise IndexError
      | Some x => xs <- safe_indexing a rest ;; Ok (x :: xs)
      end
  end.

(** [np.argmax] of one row: the first largest entry, a [nan] counting as
    the largest. *)
Definition is_nan (a : num) : bool :=
  match a with NaN => true | _ => false end.

Definition num_gtb (a b : num) : bool :=
  match a, b with
  | NaN, _ | _, NaN => false
  | Fin x, Fin y => if Rlt_dec y x then true else false
  | Fin _, PInf => false
  | Fin _, NInf => true
  | PInf, PInf => false
  | PInf, _ => true
  | NInf, _ => false
  end.

Fixpoint argmax_from (best_i : nat) (best : num) (i : nat) (rest : list num)
  : nat :=
  match rest with
  | [] => best_i
  | v :: rest' =>
      if is_nan best then best_i
      else if (is_nan v || num_gtb v best)%bool
           then argmax_from i v (S i) rest'
           else argmax_from best_i best (S i) rest'
  end.

Definition argmax (r : list num) : result nat :=
  match r with
  | [] => Raise ValueError
  | v :: rest => Ok (argmax_from 0 v 1 rest)
  end.

Fixpoint argmax_rows (a : list (list num)) : result (list nat) :=
  match a with
  | [] => Ok []
  | r :: rest => i <- argmax r ;; js <- argmax_rows rest ;; Ok (i :: js)
  end.

(** [np.argmax(a, axis=1)] of a Python list of rows, which numpy converts
    to an array first: the empty list becomes a one-dimensional array,
    which has no axis 1 ([AxisError], an [IndexError]). *)
Definition argmax_axis1 (a : list (list num)) : result (list nat) :=
  match a with
  | [] => Raise IndexError
  | _ => argmax_rows a
  end.

(** [np.argmax(a, axis=1)] of a two-dimensional array, given as the list
    of its rows: one index per row, and none for an array without rows
    (taken to have the classifier's two columns). *)
Definition argmax_axis1_2d (a : list (list num)) : result (list nat) :=
  argmax_rows a.

(** [np.sum(p == t)] for two one-dimensional arrays.  Arrays of one
    length are compared entry by entry, and an array of length 1 is
    broadcast against the other one.  For lengths that cannot be
    broadcast the answer depends on the version of NumPy: before 1.25 the
    comparison is the scalar [False] (with a DeprecationWarning) and the
    sum is 0, from 1.25 on the comparison raises [ValueError];
    [legacy_numpy] tells which. *)
Definition count_matches (legacy_numpy : bool) (p t : list nat) : result nat :=
  if (List.length p =? List.length t)%nat
  then Ok (List.length (filter (fun pt => (fst pt =? snd pt)%nat) (combine p t)))
  else
    match p, t with
    | [x], _ => Ok (List.length (filter (fun y => (x =? y)%nat) t))
    | _, [y] => Ok (List.length (filter (fun x => (x =? y)%nat) p))
    | _, _ => if legacy_numpy then Ok 0%nat else Raise ValueError
    end.

(** [np.average] of a list *)
Definition average (l : list num) : num :=
  ndiv (fold_left nadd l (Fin 0)) (Fin (INR (List.length l))).

(** The variables of the sweep cell, and two counters: the draws made from
    the global random generator and the updates of the progress bar. *)
Record sweep_state : Type := {
  draws : nat;
  pbar : nat;
  acc : list num;
  all_acc_dataset : list num;
  accuracies : list (string * list num);
  displayed : bool
}.

Definition set_acc (st : sweep_state) (l : list num) : sweep_state :=
  {| draws := draws st; pbar := pbar st; acc := l;
     all_acc_dataset := all_acc_dataset st; accuracies := accuracies st;
     displayed := displayed st |}.

Definition set_all_acc_dataset (st : sweep_state) (l : list num)
  : sweep_state :=
  {| draws := draws st; pbar := pbar st; acc := acc st;
     all_acc_dataset := l; accuracies := accuracies st;
     displayed := displayed st |}.

Definition set_accuracies (st : sweep_state) (t : list (string * list num))
  : sweep_state :=
  {| draws := draws st; pbar := pbar st; acc := acc st;
     all_acc_dataset := all_acc_dataset st; accuracies := t;
     displayed := displayed st |}.

Definition draw (st : sweep_state) : sweep_state :=
  {| draws := S (draws st); pbar := pbar st; acc := acc st;
     all_acc_dataset := all_acc_dataset st; accuracies := accuracies st;
     displayed := displayed st |}.

Definition pbar_update (st : sweep_state) : sweep_state :=
  {| draws := draws st; pbar := S (pbar st); acc := acc st;
     all_acc_dataset := all_acc_dataset st; accuracies := accuracies st;
     displayed := displayed st |}.

Definition display (st : sweep_state) : sweep_state :=
  {| draws := draws st; pbar := pbar st; acc := acc st;
     all_acc_dataset := all_acc_dataset st; accuracies := accuracies st;
     displayed := true |}.

(** A Python [for] loop whose body updates the variables and may raise: an
    exception leaves the loop with the variables as they are. *)
Fixpoint for_each {A S : Type} (body : A -> S -> S * option exn)
  (xs : list A) (st : S) : S * option exn :=
  match xs with
  | [] => (st, None)
  | x :: rest =>
      match body x st with
      | (st', None) => for_each body rest st'
      | (st', Some e) => (st', Some e)
      end
  end.

Section Classification.

(** Whether the installed NumPy is older than 1.25 (see [count_matches]). *)
Variable legacy_numpy : bool.

(** [check_random_state(seed).permutation(n)]: the seeded generator of
    numpy is not modelled. *)
Variable permutation : Z -> nat -> list nat.

(** The external classifier [do_classify(test_features, train_features,
    train_labels, nn_count, verbose)], reduced to the component of its
    answer the notebook reads, [surrogate_predictions]. *)
Variable do_classify :
  table -> table -> list (list num) -> nat -> bool -> result (list (list num)).

(** [random.randint(0, 10000)]: the value of the k-th draw. *)
Variable randint : nat -> Z.

(** The index sets of [ShuffleSplit]: (train, test). *)
Definition shuffle_split (n_samples n_train n_test : nat) (random_state : Z)
  : list nat * list nat :=
  let p := permutation random_state n_samples in
  let ind_test := firstn n_test p in
  let ind_train := firstn n_train (skipn n_test p) in
  (ind_train, ind_test).

Definition train_test_split {A B : Type} (X : list A) (y : list B)
  (test_size : Q) (random_state : Z)
  : result (list A * list A * list B * list B) :=
  let n_samples := List.length X in
  if negb (List.length y =? n_samples)%nat then Raise ValueError else
  sizes <- validate_shuffle_split n_samples test_size ;;
  let '(n_train, n_test) := sizes in
  let '(train, test) := shuffle_split n_samples n_train n_test random_state in
  X_train <- safe_indexing X train ;;
  X_test <- safe_indexing X test ;;
  y_train <- safe_indexing y train ;;
  y_test <- safe_indexing y test ;;
  Ok (X_train, X_test, y_train, y_test).

Definition run_classifier (image_data : table) (truth_labels : list num)
  (test_size : Q) (state : Z) : result num :=
  split <- train_test_split image_data truth_labels test_size state ;;
  let '(X_train, X_test, y_train, y_test) := split in
  let onehot_train := generate_onehot_value y_train in
  let onehot_test := generate_onehot_value y_test in
  surrogate_predictions <- do_classify X_test X_train onehot_train 30%nat false ;;
  predicted_labels <- argmax_axis1_2d surrogate_predictions ;;
  expected <- argmax_axis1 onehot_test ;;
  matches <- count_matches legacy_numpy predicted_labels expected ;;
  let accuracy :=
    nmul (ndiv (Fin (INR matches)) (Fin (INR (List.length predicted_labels))))
         (Fin 100) in
  Ok accuracy.

Variable test_size_values : list Q.
Variable num_runs : nat.

(** The body of [while idx <= num_runs], [idx] counting up from 1. *)
Definition trial_body (image_data : table) (truth_labels : list num)
  (test_size : Q) (idx : nat) (st : sweep_state) : sweep_state * option exn :=
  let state := randint (draws st) in
  let st1 := draw st in
  match run_classifier image_data truth_labels test_size state with
  | Raise e => (st1, Some e)
  | Ok accuracy => (pbar_update (set_acc st1 (acc st1 ++ [accuracy])), None)
  end.

(** The body of [for test_size in test_size_values]; the [while] loop in it
    runs its body for [idx = 1, ..., num_runs]. *)
Definition ratio_body (image_data : table) (truth_labels : list num)
  (test_size : Q) (st : sweep_state) : sweep_state * option exn :=
  match for_each (trial_body image_data truth_labels test_size)
                 (seq 1 num_runs) (set_acc st []) with
  | (st', Some e) => (st', Some e)
  | (st', None) =>
      let avg_acc := average (acc st') in
      (set_all_acc_dataset st' (all_acc_dataset st' ++ [avg_acc]), None)
  end.

(** The body of [for data, data_label in data_files]. *)
Definition dataset_body (d : DataFrame * string) (st : sweep_state)
  : sweep_state * option exn :=
  let '(data, data_label) := d in
  let truth_labels := truth_labels_of data in
  let image_data := image_data_of data in
  match for_each (ratio_body image_data truth_labels) test_size_values
                 (set_all_acc_dataset st []) with
  | (st', Some e) => (st', Some e)
  | (st', None) =>
      (set_accuracies st' (accuracies st' ++ [(data_label, all_acc_dataset st')]),
       None)
  end.

Definition sweep_init : sweep_state :=
  {| draws := 0; pbar := 0; acc := []; all_acc_dataset := [];
     accuracies := [("test_size"%string, map (fun q => Fin (Q2R q)) test_size_values)];
     displayed := false |}.

(** The sweep cell, up to [display(accuracies)]. *)
Definition sweep (data_files : list (DataFrame * string))
  : sweep_state * option exn :=
  match for_each dataset_body data_files sweep_init with
  | (st, Some e) => (st, Some e)
  | (st, None) => (display st, None)
  end.

End Classification.

(** ** Vocabulary of the statements *)

(** The least and the largest entry of a list of reals (0 for no entry). *)
Definition Rminimum (rs : list R) : R :=
  match rs with
  | [] => 0
  | x :: rest => fold_left Rmin rest x
  end.

Definition Rmaximum (rs : list R) : R :=
  match rs with
  | [] => 0
  | x :: rest => fold_left Rmax rest x
  end.

(** The decimal logarithm of a positive real. *)
Definition lg (x : R) : R := ln x / ln 10.

(** A finite value of the unit interval. *)
Definition in_unit (v : num) : Prop :=
  exists y : R, v = Fin y /\ 0 <= y <= 1.

(** A label of the two classes, as a number. *)
Definition is_label (v : num) : Prop := v = Fin 0 \/ v = Fin 1.

(** The value of a Python float written as the decimal [q]: the float64
    nearest to it. *)
Definition float64 (q : Q) : Q := IEEE.round_fin IEEE.binary64 q.

(** The integer nearest to a rational, halves going up: the rounding that
    the specification's [round(r * N)] is compared with. *)
Definition round_nearest (q : Q) : Z := Qfloor (q + (1 # 2)).

(** Scenario A of the specification: a corpus of two cutouts, the star
    [[1,2],[3,4]] and the galaxy [[5,6],[7,8]]. *)
Definition scenario_files : list string :=
  ["star_0.fits"; "galaxy_0.fits"]%string.

Definition scenario_getdata (file : string) : list (list num) :=
  if String.eqb file "star_0.fits"
  then [[Fin 1; Fin 2]; [Fin 3; Fin 4]]
  else [[Fin 5; Fin 6]; [Fin 7; Fin 8]].

(** A value that is [-inf] or [nan]: what [np.log10] gives for a number
    that is not positive. *)
Definition low (v : num) : Prop := v = NInf \/ v = NaN.

(** A persisted row of the cutout [file]: its first field is the label
    that the file's name gives it, one of the two class numbers. *)
Definition labelled (file : string) (r : row) : Prop :=
  exists (lbl : num) (data : list num),
    r = lbl :: data /\ is_label lbl /\
    (startswith file "star" = true -> lbl = Fin 0) /\
    (startswith file "galaxy" = true -> lbl = Fin 1).

(** A small evaluation sweep, used to run the sweep cell on a concrete
    input: one table of four rows, the ratios 3/4 and 1/4 with one run
    each, the identity as the seeded permutation, the draw counter as the
    drawn seed, and a classifier that fails when it is given fewer than two
    training rows and otherwise predicts the first class for every row. *)
Definition identity_permutation (seed : Z) (n : nat) : list nat := seq 0 n.

Definition small_train_fails (test_features train_features : table)
  (train_labels : list (list num)) (nn_count : nat) (verbose : bool)
  : result (list (list num)) :=
  if (List.length train_features <? 2)%nat
  then Raise (ExternalError 1)
  else Ok (map (fun _ => [Fin 1; Fin 0]) test_features).

Definition four_rows : DataFrame :=
  {| columns := [Fin 0; Fin 9];
     values := [ [Fin 0; Fin 1]; [Fin 1; Fin 2]; [Fin 0; Fin 3]; [Fin 1; Fin 4] ] |}.

Definition example_sweep : sweep_state * option exn :=
  sweep false identity_permutation small_train_fails Z.of_nat
        [3 # 4; 1 # 4]%Q 1 [(four_rows, "Raw data"%string)].

(** The trial of table [i], ratio [j] and run [k] of a sweep, with the
    seed the sweep draws for it: the trials run in the order of the three
    nested loops, one draw each, so this trial gets the draw number
    [i * (T * num_runs) + j * num_runs + k], [T] the number of ratios. *)
Definition trial_at (legacy_numpy : bool) (permutation : Z -> nat -> list nat)
  (do_classify : table -> table -> list (list num) -> nat -> bool ->
                 result (list (list num)))
  (randint : nat -> Z) (test_size_values : list Q) (num_runs : nat)
  (data_files : list (DataFrame * string)) (i j k : nat) : result num :=
  match nth_error data_files i, nth_error test_size_values j with
  | Some d, Some test_size =>
      run_classifier legacy_numpy permutation do_classify
        (image_data_of (fst d)) (truth_labels_of (fst d)) test_size
        (randint (i * (List.length test_size_values * num_runs)
                  + j * num_runs + k)%nat)
  | _, _ => Raise IndexError
  end.

(** The order in which the sweep runs its trials. *)
Definition earlier_trial (a b : nat * nat * nat) : Prop :=
  let '(i, j, k) := a in
  let '(i', j', k') := b in
  (i < i')%nat \/ (i = i' /\ ((j < j')%nat \/ (j = j' /\ (k < k')%nat))).

(** The average that the sweep appends for a cell of [num_runs] trials
    that all returned: [np.average] of their accuracies, in the order of
    the runs. *)
Definition cell_average (trial : nat -> result num) (num_runs : nat)
  (avg : num) : Prop :=
  exists accs : list num,
    Forall2 (fun k a => trial k = Ok a) (seq 0 num_runs) accs /\
    avg = average accs.

(** The averages of the first [n] ratios of a table. *)
Definition averages_of (trial : nat -> nat -> result num) (num_runs n : nat)
  (col : list num) : Prop :=
  Forall2 (fun j avg => cell_average (trial j) num_runs avg) (seq 0 n) col.

(** A classifier that answers with a single prediction row, for the first
    class, however many test rows it is given. *)
Definition one_row_classifier (test_features train_features : table)
  (train_labels : list (list num)) (nn_count : nat) (verbose : bool)
  : result (list (list num)) :=
  Ok [[Fin 1; Fin 0]].

(** A finite float of the unit interval. *)
Definition unit_float (v : IEEE.float) : Prop :=
  exists q : Q, v = IEEE.Finite q /\ (0 <= q <= 1)%Q.

(** ** The rounding of [IEEE] against the Standard Library's [SpecFloat]

    [SpecFloat] is the Standard Library's specification of IEEE 754
    arithmetic on mantissa-exponent pairs.  The operations of [IEEE] are
    compared with it on sample operands, in both formats. *)

(** The value of a float of [SpecFloat]; the sign of a zero is dropped. *)
Definition of_spec_float (x : spec_float) : IEEE.float :=
  match x with
  | S754_zero _ => IEEE.Finite 0
  | S754_infinity false => IEEE.PosInf
  | S754_infinity true => IEEE.NegInf
  | S754_nan => IEEE.NotANumber
  | S754_finite s m e =>
      IEEE.Finite
        (Qred (inject_Z (if s then Z.neg m else Z.pos m) * IEEE.pow2 e))
  end.

Definition float_eqb (a b : IEEE.float) : bool :=
  match a, b with
  | IEEE.Finite x, IEEE.Finite y => Qeq_bool x y
  | IEEE.PosInf, IEEE.PosInf | IEEE.NegInf, IEEE.NegInf
  | IEEE.NotANumber, IEEE.NotANumber => true
  | _, _ => false
  end.

(** The float of a format nearest to [m * 2^e], by [SpecFloat]. *)
Definition sample (fmt : IEEE.format) (me : Z * Z) : spec_float :=
  binary_normalize (IEEE.prec fmt) (IEEE.emax fmt) (fst me) (snd me) false.

(** Sample operands: small integers, the ratios 0.07 and 0.33 of the split
    examples, numbers that need rounding in either format, subnormal
    numbers and numbers near the overflow thresholds. *)
Definition samples : list (Z * Z) :=
  [ (2, 0); (-1, -24); (7, -3); (5044031582654956, -56);
    (5944751508129055, -54); (100, 0); (3, -150); (-5, -1074);
    (12345678901234567890, -30); (-1, 127); (1, 1023); (16777219, -10) ]%Z.

(** Whether an operation of [IEEE] and the one of [SpecFloat] agree on
    two sample operands; [nonzero] leaves out a zero second operand, whose
    sign [IEEE] does not have. *)
Definition agree (fmt : IEEE.format) (nonzero : bool)
  (op : IEEE.format -> IEEE.float -> IEEE.float -> IEEE.float)
  (spec_op : Z -> Z -> spec_float -> spec_float -> spec_float)
  (x y : Z * Z) : bool :=
  let a := sample fmt x in
  let b := sample fmt y in
  (nonzero && float_eqb (of_spec_float b) (IEEE.Finite 0))
  || float_eqb (of_spec_float (spec_op (IEEE.prec fmt) (IEEE.emax fmt) a b))
               (op fmt (of_spec_float a) (of_spec_float b)).

Definition all_agree (fmt : IEEE.format) (nonzero : bool)
  (op : IEEE.format -> IEEE.float -> IEEE.float -> IEEE.float)
  (spec_op : Z -> Z -> spec_float -> spec_float -> spec_float) : bool :=
  forallb (fun x => forallb (agree fmt nonzero op spec_op x) samples) samples.

(** ** [data_normalization.ipynb]: the list of cutout files *)

(** [file.endswith(s)] *)
Definition endswith (file s : string) : bool :=
  ((String.length s <=? String.length file)%nat &&
   String.eqb
     (substring (String.length file - String.length s) (String.length s) file)
     s)%bool.

(** The variables of the listing cell. *)
Record listing : Type := {
  cutout_files : list string;
  gals : nat;
  stars : nat
}.

(** One iteration of [for file in os.listdir(cutout_path)]. *)
Definition listing_step (st : listing) (file : string) : listing :=
  if endswith file ".fits" then
    let files := cutout_files st ++ [file] in
    if startswith file "gal" then
      {| cutout_files := files; gals := gals st + 1; stars := stars st |}
    else if startswith file "star" then
      {| cutout_files := files; gals := gals st; stars := stars st + 1 |}
    else
      {| cutout_files := files; gals := gals st; stars := stars st |}
  else st.

Definition list_cutouts (listdir : list string) : listing :=
  fold_left listing_step listdir
    {| cutout_files := []; gals := 0; stars := 0 |}.

(** [len(y[y == v])], the count the class-balance lines print. *)
Definition count_label (v : num) (y : list num) : nat :=
  List.length (filter (fun l => num_eqb l v) y).

(** The pixels of scenario A as real numbers. *)
Definition scenario_pixels (file : string) : list (list R) :=
  if String.eqb file "star_0.fits"
  then [[1; 2]; [3; 4]]
  else [[5; 6]; [7; 8]].

(** ** The cutout generator (the notebook that writes the [.fits] files)

    A 2-D array is the list of its rows, all of one length; its shape is
    (number of rows, length of the first row).  An array without rows
    fails the first test of [save_image] whatever its second dimension. *)

(** The variables that [save_image] reads and updates: the counter [num],
    the list [plot_data], the progress bar and the cutout directory. *)
Record generator_state : Type := {
  gen_num : nat;
  gen_plot_data : list (list (list num));
  gen_pbar : nat;
  gen_dir : files
}.

(** [str(obj_type) + '_' + str(num) + '.fits'] *)
Definition cutout_name (obj_type : string) (n : nat) : string :=
  (obj_type ++ "_" ++ str n ++ ".fits")%string.

Section Generator.

(** [fits.getdata(url, header=True)[0]] *)
Variable fetch : string -> list (list num).

(** The query of one position: [None] when [zquery.metatable] is empty,
    otherwise the URL that [generate_url] builds from its first row. *)
Variable query_url : num * num -> option string.

(** [ra_dec[obj_type + '_ra']] with the matching [dec], per object type. *)
Variable ra_dec : string -> list (num * num).

Variable cutout_path : string.
Variable num_cutouts : nat.

Definition save_image (obj_type url : string) (st : generator_state)
  : generator_state :=
  let image := fetch url in
  let shape0 := List.length image in
  let shape1 := List.length (hd [] image) in
  if ((shape0 <? 20) || (shape1 <? 20) || (21 <? shape0) || (21 <? shape1))%nat%bool
  then st
  else
    let image1 := if (List.length image =? 21)%nat then tl image else image in
    let image2 :=
      if (List.length (hd [] image1) =? 21)%nat
      then map (fun r => tl r) image1 else image1 in
    let dir := write_file (gen_dir st)
                 (cutout_path ++ cutout_name obj_type (gen_num st)) image2 in
    let plot_data :=
      if (gen_num st <? 3)%nat then gen_plot_data st ++ [image2]
      else gen_plot_data st in
    {| gen_num := gen_num st + 1; gen_plot_data := plot_data;
       gen_pbar := gen_pbar st + 1; gen_dir := dir |}.

(** The loop over the positions of one object type; its [else] branch
    leaves the loop. *)
Fixpoint cutout_loop (obj_type : string) (positions : list (num * num))
  (st : generator_state) : generator_state :=
  match positions with
  | [] => st
  | p :: rest =>
      if (gen_num st <? num_cutouts)%nat then
        match query_url p with
        | Some url => cutout_loop obj_type rest (save_image obj_type url st)
        | None => cutout_loop obj_type rest st
        end
      else st
  end.

(** One iteration of [for obj_type in ['star', 'galaxy']]: a fresh counter
    and progress bar, then the loop over the positions. *)
Definition generate_type (st : generator_state) (obj_type : string)
  : generator_state :=
  cutout_loop obj_type (ra_dec obj_type)
    {| gen_num := 0; gen_plot_data := gen_plot_data st;
       gen_pbar := 0; gen_dir := gen_dir st |}.

Definition generate_cutouts (dir : files) : generator_state :=
  fold_left generate_type ["star"; "galaxy"]%string
    {| gen_num := 0; gen_plot_data := []; gen_pbar := 0; gen_dir := dir |}.

End Generator.

(** A 2-D array: every row as long as the first. *)
Definition rectangular (image : list (list num)) : Prop :=
  forall r, In r image -> List.length r = List.length (hd [] image).

(** A 20 x 20 array. *)
Definition is_20x20 (image : list (list num)) : Prop :=
  List.length image = 20%nat /\ forall r, In r image -> List.length r = 20%nat.

(** An entry of the cutout directory as the generator makes them: a
    20 x 20 array under the name of a star or a galaxy with a number below
    the requested count. *)
Definition generated (cutout_path : string) (num_cutouts : nat)
  (entry : string * list (list num)) : Prop :=
  exists (obj_type : string) (k : nat),
    (obj_type = "star"%string \/ obj_type = "galaxy"%string) /\
    (k < num_cutouts)%nat /\
    fst entry = (cutout_path ++ cutout_name obj_type k)%string /\
    is_20x20 (snd entry).

(** A fetched array of 21 rows and 20 columns. *)
Definition tall_image (url : string) : list (list num) :=
  repeat (repeat (Fin 1) 20) 21.

(** A fetched array of 21 rows and 21 columns whose pixel [(i, j)] is the
    number [100 i + j]. *)
Definition numbered_image (url : string) : list (list num) :=
  map (fun i => map (fun j => Fin (INR (100 * i + j))) (seq 0 21)) (seq 0 21).

(** ** The catalogue cuts (the notebook that writes [stars.csv] and
    [gals.csv]): the flux and magnitude cuts *)

(** The columns of a catalogue row that the two cuts read. *)
Record catalog_row : Type := {
  FLUX_G : num;
  FLUX_R : num;
  FLUX_Z : num
}.

(** [a < b] on floats: false when either side is [nan]. *)
Definition num_ltb (a b : num) : bool := num_gtb b a.

(** [(x['FLUX_G'] > 0) & (x['FLUX_R'] > 0) & (x['FLUX_Z'] > 0)] *)
Definition positive_flux (o : catalog_row) : bool :=
  (num_gtb (FLUX_G o) (Fin 0) && num_gtb (FLUX_R o) (Fin 0)
   && num_gtb (FLUX_Z o) (Fin 0))%bool.

(** [22.5 - 2.5 * np.log10(flux)] *)
Definition magnitude (flux : num) : num :=
  nsub (Fin 22.5) (nmul (Fin 2.5) (log10 flux)).

(** [(mag_g < 20.5) & (mag_r < 20) & (mag_z < 19)] *)
Definition within_limits (o : catalog_row) : bool :=
  (num_ltb (magnitude (FLUX_G o)) (Fin 20.5)
   && num_ltb (magnitude (FLUX_R o)) (Fin 20)
   && num_ltb (magnitude (FLUX_Z o)) (Fin 19))%bool.

(** The two cells in sequence, on the galaxies or on the stars. *)
Definition flux_cut (objects : list catalog_row) : list catalog_row :=
  filter positive_flux objects.

Definition magnitude_cut (objects : list catalog_row) : list catalog_row :=
  filter within_limits objects.

(** * Properties *)

(** ** Rounding to nearest in a binary format *)

Section Rounding.

Import IEEE.
Local Open Scope Q_scope.

Lemma pow2_pos (e : Z) : 0 < pow2 e.
Proof. apply Qpower_0_lt. reflexivity. Qed.

Lemma pow2_add (a b : Z) : pow2 (a + b) == pow2 a * pow2 b.
Proof. apply Qpower_plus. discriminate. Qed.

Lemma pow2_le (a b : Z) : (a <= b)%Z -> pow2 a <= pow2 b.
Proof. intros H. apply Qpower_le_compat_l; [exact H | discriminate]. Qed.

Lemma pow2_lt (a b : Z) : (a < b)%Z -> pow2 a < pow2 b.
Proof. intros H. apply Qpower_lt_compat_l; [exact H | reflexivity]. Qed.

Lemma pow2_lt_inv (a b : Z) : pow2 a < pow2 b -> (a < b)%Z.
Proof. intros H. apply (Qpower_lt_compat_l_inv 2); [exact H | reflexivity]. Qed.

Lemma pow2_inject (n : Z) : (0 <= n)%Z -> inject_Z (2 ^ n) == pow2 n.
Proof. intros H. apply Zpower_Qpower, H. Qed.

Lemma pow2_opp (e : Z) : pow2 (- e) == / pow2 e.
Proof. apply Qpower_opp. Qed.

Lemma div_pow2 (q : Q) (e : Z) : q / pow2 e == q * pow2 (- e).
Proof. unfold Qdiv. now rewrite pow2_opp. Qed.

(** Rounding to the nearest integer. *)
Lemma inject_Z_pred (n : Z) : inject_Z (n - 1) == inject_Z n - 1.
Proof. unfold Zminus. rewrite inject_Z_plus. reflexivity. Qed.

Lemma inject_Z_succ (n : Z) : inject_Z (n + 1) == inject_Z n + 1.
Proof. rewrite inject_Z_plus. reflexivity. Qed.

Lemma rne_comp (t t' : Q) : t == t' -> rne t = rne t'.
Proof.
  intros H. unfold rne.
  assert (Ef : Qfloor t = Qfloor t') by (apply Qfloor_comp; exact H).
  rewrite <- Ef.
  assert (E : Qcompare (t - inject_Z (Qfloor t)) (1 # 2)
              = Qcompare (t' - inject_Z (Qfloor t)) (1 # 2)).
  { apply Qcompare_comp; [Lqa.lra | reflexivity]. }
  now rewrite E.
Qed.

Inductive rne_cases (t : Q) : Z -> Prop :=
| rne_down : t - inject_Z (Qfloor t) < 1 # 2 -> rne_cases t (Qfloor t)
| rne_up : 1 # 2 < t - inject_Z (Qfloor t) -> rne_cases t (Qfloor t + 1)
| rne_tie_even : t - inject_Z (Qfloor t) == 1 # 2 -> Z.even (Qfloor t) = true ->
    rne_cases t (Qfloor t)
| rne_tie_odd : t - inject_Z (Qfloor t) == 1 # 2 -> Z.even (Qfloor t) = false ->
    rne_cases t (Qfloor t + 1).

Lemma rne_spec (t : Q) : rne_cases t (rne t).
Proof.
  unfold rne.
  destruct (Qcompare (t - inject_Z (Qfloor t)) (1 # 2)) eqn:E.
  - apply Qeq_alt in E. destruct (Z.even (Qfloor t)) eqn:Ev.
    + now apply rne_tie_even.
    + now apply rne_tie_odd.
  - apply Qlt_alt in E. now apply rne_down.
  - apply Qgt_alt in E. now apply rne_up.
Qed.

Lemma floor_bounds (t : Q) :
  inject_Z (Qfloor t) <= t /\ t < inject_Z (Qfloor t) + 1.
Proof.
  split; [apply Qfloor_le |].
  pose proof (Qlt_floor t) as H. now rewrite inject_Z_plus in H.
Qed.

Lemma rne_inject (n : Z) : rne (inject_Z n) = n.
Proof.
  destruct (rne_spec (inject_Z n)) as [H | H | H _ | H _];
    rewrite Qfloor_Z in *; try reflexivity; exfalso; Lqa.lra.
Qed.

Lemma rne_mono (t t' : Q) : t <= t' -> (rne t <= rne t')%Z.
Proof.
  intros H.
  pose proof (Qfloor_resp_le _ _ H) as Hf.
  pose proof (floor_bounds t) as [B1 B2].
  pose proof (floor_bounds t') as [B1' B2'].
  destruct (Z.eq_dec (Qfloor t) (Qfloor t')) as [E | NE].
  - destruct (rne_spec t) as [H1 | H1 | H1 Ev | H1 Ev];
      destruct (rne_spec t') as [H2 | H2 | H2 Ev' | H2 Ev'];
      rewrite <- ?E in *; try lia; try congruence; exfalso; Lqa.lra.
  - assert (Hlt : (Qfloor t + 1 <= Qfloor t')%Z) by lia.
    destruct (rne_spec t); destruct (rne_spec t'); lia.
Qed.

Lemma floor_unique (t : Q) (n : Z) :
  inject_Z n <= t -> t < inject_Z n + 1 -> Qfloor t = n.
Proof.
  intros H1 H2. pose proof (floor_bounds t) as [B1 B2].
  assert (A : (Qfloor t < n + 1)%Z).
  { rewrite Zlt_Qlt, inject_Z_succ. Lqa.lra. }
  assert (B : (n < Qfloor t + 1)%Z).
  { rewrite Zlt_Qlt, inject_Z_succ. Lqa.lra. }
  lia.
Qed.

Lemma rne_opp (t : Q) : rne (- t) = (- rne t)%Z.
Proof.
  pose proof (floor_bounds t) as [B1 B2].
  destruct (Qeq_dec t (inject_Z (Qfloor t))) as [E | NE].
  - rewrite (rne_comp t _ E).
    rewrite (rne_comp (- t) (inject_Z (- Qfloor t))).
    + now rewrite !rne_inject.
    + rewrite inject_Z_opp. now rewrite <- E.
  - assert (Hf : Qfloor (- t) = (- Qfloor t - 1)%Z).
    { apply floor_unique.
      - rewrite inject_Z_pred, inject_Z_opp. Lqa.lra.
      - rewrite inject_Z_pred, inject_Z_opp.
        assert (inject_Z (Qfloor t) < t); [| Lqa.lra].
        apply Qle_lteq in B1. destruct B1 as [B1 | B1]; [exact B1 |].
        exfalso. apply NE. now symmetry. }
    assert (Hi : inject_Z (Qfloor (- t)) == - inject_Z (Qfloor t) - 1).
    { rewrite Hf, inject_Z_pred, inject_Z_opp. reflexivity. }
    assert (Hev : Z.even (Qfloor (- t)) = negb (Z.even (Qfloor t))).
    { rewrite Hf. rewrite Z.even_sub, Z.even_opp. simpl.
      now destruct (Z.even (Qfloor t)). }
    destruct (rne_spec t) as [H1 | H1 | H1 Ev | H1 Ev];
      destruct (rne_spec (- t)) as [H2 | H2 | H2 Ev' | H2 Ev'];
      rewrite ?Hi in *; rewrite ?Hev, ?Ev in *; try discriminate;
      try (rewrite Hf; lia); exfalso; Lqa.lra.
Qed.

Lemma rne_nonneg (t : Q) : 0 <= t -> (0 <= rne t)%Z.
Proof.
  intros H. change 0%Z with (rne (inject_Z 0)) at 1.
  rewrite <- (rne_inject 0) at 1. now apply rne_mono.
Qed.

(** The binade of a rational. *)
Lemma log2_bounds (n : Z) :
  (0 < n)%Z ->
  pow2 (Z.log2 n) <= inject_Z n /\ inject_Z n < pow2 (Z.log2 n + 1).
Proof.
  intros H. destruct (Z.log2_spec n H) as [H1 H2].
  pose proof (Z.log2_nonneg n) as Hn.
  split.
  - rewrite <- pow2_inject by exact Hn. now rewrite <- Zle_Qle.
  - rewrite <- pow2_inject by lia. rewrite <- Zlt_Qlt. now rewrite <- Z.add_1_r in H2.
Qed.

Lemma mag_spec (q : Q) :
  ~ q == 0 -> pow2 (mag q) <= Qabs q /\ Qabs q < pow2 (mag q + 1).
Proof.
  intros Hq. destruct q as [n d].
  assert (Hn : (0 < Z.abs n)%Z).
  { assert (n <> 0%Z); [| lia]. intros ->. apply Hq. reflexivity. }
  unfold mag. cbn [Qnum Qden].
  set (a := Z.log2 (Z.abs n)). set (b := Z.log2 (Zpos d)).
  destruct (log2_bounds (Z.abs n) Hn) as [A1 A2]. fold a in A1, A2.
  destruct (log2_bounds (Zpos d) eq_refl) as [B1 B2]. fold b in B1, B2.
  assert (E : Qabs (n # d) == inject_Z (Z.abs n) / inject_Z (Zpos d)).
  { unfold Qabs. apply Qmake_Qdiv. }
  assert (HD : 0 < inject_Z (Zpos d)) by reflexivity.
  assert (Hup : Qabs (n # d) < pow2 (a - b + 1)).
  { rewrite E. apply Qlt_shift_div_r; [exact HD |].
    apply Qlt_le_trans with (pow2 (a + 1)); [exact A2 |].
    replace (a + 1)%Z with ((a - b + 1) + b)%Z by lia.
    rewrite pow2_add. apply Qmult_le_l; [apply pow2_pos | exact B1]. }
  assert (Hlo : pow2 (a - b - 1) <= Qabs (n # d)).
  { rewrite E. apply Qle_shift_div_l; [exact HD |].
    apply Qle_trans with (pow2 a); [| exact A1].
    replace a with ((a - b - 1) + (b + 1))%Z at 2 by lia.
    rewrite pow2_add. apply Qmult_le_l; [apply pow2_pos |].
    now apply Qlt_le_weak. }
  destruct (Qle_bool (pow2 (a - b)) (Qabs (n # d))) eqn:T.
  - apply Qle_bool_iff in T. split; assumption.
  - split; [exact Hlo |].
    replace (a - b - 1 + 1)%Z with (a - b)%Z by lia.
    apply Qnot_le_lt. intros C. apply Qle_bool_iff in C. congruence.
Qed.

Lemma mag_lt (q : Q) (e : Z) : ~ q == 0 -> Qabs q < pow2 e -> (mag q < e)%Z.
Proof.
  intros Hq H. destruct (mag_spec q Hq) as [H1 _].
  apply pow2_lt_inv. now apply Qle_lt_trans with (Qabs q).
Qed.

Lemma mag_ge (q : Q) (e : Z) : ~ q == 0 -> pow2 e <= Qabs q -> (e <= mag q)%Z.
Proof.
  intros Hq H. destruct (mag_spec q Hq) as [_ H2].
  assert (e < mag q + 1)%Z; [| lia].
  apply pow2_lt_inv. now apply Qle_lt_trans with (Qabs q).
Qed.

Lemma mag_mono (x y : Q) : 0 < x -> x <= y -> (mag x <= mag y)%Z.
Proof.
  intros Hx Hxy.
  assert (Nx : ~ x == 0) by Lqa.lra. assert (Ny : ~ y == 0) by Lqa.lra.
  apply mag_ge; [exact Ny |].
  destruct (mag_spec x Nx) as [H1 _].
  rewrite Qabs_pos in H1 by Lqa.lra. rewrite Qabs_pos by Lqa.lra. Lqa.lra.
Qed.

Lemma mag_comp (x y : Q) : ~ x == 0 -> x == y -> mag x = mag y.
Proof.
  intros Nx E. assert (Ny : ~ y == 0) by Lqa.lra.
  destruct (mag_spec x Nx) as [H1 H2]. destruct (mag_spec y Ny) as [H3 H4].
  assert (Ea : Qabs x == Qabs y) by now rewrite E.
  assert (mag x < mag y + 1)%Z by (apply pow2_lt_inv; Lqa.lra).
  assert (mag y < mag x + 1)%Z by (apply pow2_lt_inv; Lqa.lra).
  lia.
Qed.

(** Rounding to a format. *)
Lemma round_fin_eq (fmt : format) (q : Q) :
  round_fin fmt q == inject_Z (rne (q / pow2 (cexp fmt q))) * pow2 (cexp fmt q).
Proof. unfold round_fin. apply Qred_correct. Qed.

Lemma round_fin_zero (fmt : format) (q : Q) : q == 0 -> round_fin fmt q == 0.
Proof.
  intros E. rewrite round_fin_eq.
  rewrite (rne_comp _ (inject_Z 0)).
  - rewrite rne_inject. apply Qmult_0_l.
  - generalize (pow2 (cexp fmt q)). intros p. rewrite E. unfold Qdiv.
    rewrite Qmult_0_l. reflexivity.
Qed.

Lemma round_fin_comp (fmt : format) (x y : Q) :
  x == y -> round_fin fmt x = round_fin fmt y.
Proof.
  intros E. unfold round_fin. apply Qred_complete.
  destruct (Qeq_dec x 0) as [Z0 | N0].
  - pose proof (round_fin_zero fmt x Z0) as H1.
    assert (Z1 : y == 0) by Lqa.lra.
    pose proof (round_fin_zero fmt y Z1) as H2.
    rewrite round_fin_eq in H1, H2. Lqa.lra.
  - unfold cexp. rewrite <- (mag_comp x y N0 E).
    set (p := pow2 (Z.max (mag x - prec fmt + 1) (emin fmt))).
    rewrite (rne_comp (x / p) (y / p)); [reflexivity |].
    clearbody p. now rewrite E.
Qed.

Lemma scale_le (x y : Q) (c : Z) : x <= y -> x / pow2 c <= y / pow2 c.
Proof.
  intros H. unfold Qdiv. apply Qmult_le_compat_r; [exact H |].
  apply Qlt_le_weak, Qinv_lt_0_compat, pow2_pos.
Qed.

Lemma unscale_le (m n : Z) (c : Z) :
  (m <= n)%Z -> inject_Z m * pow2 c <= inject_Z n * pow2 c.
Proof.
  intros H. apply Qmult_le_compat_r; [now rewrite <- Zle_Qle |].
  apply Qlt_le_weak, pow2_pos.
Qed.

Lemma cexp_mono (fmt : format) (x y : Q) :
  0 < x -> x <= y -> (cexp fmt x <= cexp fmt y)%Z.
Proof.
  intros Hx Hxy. unfold cexp. pose proof (mag_mono x y Hx Hxy). lia.
Qed.

Lemma round_fin_mono_pos (fmt : format) (x y : Q) :
  (0 < prec fmt)%Z -> 0 < x -> x <= y -> round_fin fmt x <= round_fin fmt y.
Proof.
  intros Hp Hx Hxy.
  assert (Hy : 0 < y) by Lqa.lra.
  assert (Nx : ~ x == 0) by Lqa.lra. assert (Ny : ~ y == 0) by Lqa.lra.
  pose proof (cexp_mono fmt x y Hx Hxy) as Hc.
  rewrite !round_fin_eq.
  set (cx := cexp fmt x) in *. set (cy := cexp fmt y) in *.
  destruct (Z.eq_dec cx cy) as [E | NE].
  - rewrite <- E. apply unscale_le, rne_mono, scale_le, Hxy.
  - assert (Hlt : (cx + 1 <= cy)%Z) by lia.
    apply Qle_trans with (pow2 ((prec fmt) + cx)).
    + (* the rounded x stays below the end of its binade *)
      destruct (mag_spec x Nx) as [_ Hm]. rewrite Qabs_pos in Hm by Lqa.lra.
      assert (Hmx : (mag x + 1 <= cx + (prec fmt))%Z) by (unfold cx, cexp; lia).
      assert (Hb : x < pow2 (prec fmt) * pow2 cx).
      { rewrite <- pow2_add. rewrite Z.add_comm.
        apply Qlt_le_trans with (pow2 (mag x + 1)); [exact Hm |].
        now apply pow2_le. }
      assert (Hs : x / pow2 cx <= inject_Z (2 ^ (prec fmt))).
      { rewrite pow2_inject by lia. apply Qlt_le_weak.
        apply Qlt_shift_div_r; [apply pow2_pos | exact Hb]. }
      apply rne_mono in Hs. rewrite rne_inject in Hs.
      apply Qle_trans with (inject_Z (2 ^ (prec fmt)) * pow2 cx);
        [now apply unscale_le |].
      rewrite pow2_inject by lia. rewrite pow2_add. apply Qle_refl.
    + (* the rounded y stays above the start of its binade *)
      assert (Ecy : cy = (mag y - (prec fmt) + 1)%Z) by (unfold cy, cexp in *; lia).
      destruct (mag_spec y Ny) as [Hm _]. rewrite Qabs_pos in Hm by Lqa.lra.
      assert (Hb : pow2 ((prec fmt) - 1) * pow2 cy <= y).
      { rewrite <- pow2_add. replace ((prec fmt) - 1 + cy)%Z with (mag y) by lia.
        exact Hm. }
      assert (Hs : inject_Z (2 ^ ((prec fmt) - 1)) <= y / pow2 cy).
      { rewrite pow2_inject by lia.
        apply Qle_shift_div_l; [apply pow2_pos | exact Hb]. }
      apply rne_mono in Hs. rewrite rne_inject in Hs.
      apply Qle_trans with (inject_Z (2 ^ ((prec fmt) - 1)) * pow2 cy);
        [| now apply unscale_le].
      rewrite pow2_inject by lia. rewrite <- pow2_add.
      apply pow2_le. lia.
Qed.

Lemma mag_opp (q : Q) : mag (- q) = mag q.
Proof.
  destruct q as [n d]. unfold mag. cbn [Qnum Qden Qopp Qabs].
  now rewrite Z.abs_opp.
Qed.

Lemma round_fin_opp (fmt : format) (q : Q) :
  round_fin fmt (- q) == - round_fin fmt q.
Proof.
  rewrite !round_fin_eq. unfold cexp. rewrite mag_opp.
  set (c := Z.max (mag q - prec fmt + 1) (emin fmt)).
  rewrite (rne_comp (- q / pow2 c) (- (q / pow2 c))).
  - rewrite rne_opp, inject_Z_opp. ring.
  - unfold Qdiv. ring.
Qed.

Lemma round_fin_nonneg (fmt : format) (q : Q) : 0 <= q -> 0 <= round_fin fmt q.
Proof.
  intros H. rewrite round_fin_eq.
  apply Qmult_le_0_compat; [| apply Qlt_le_weak, pow2_pos].
  change 0 with (inject_Z 0). rewrite <- Zle_Qle. apply rne_nonneg.
  unfold Qdiv. apply Qmult_le_0_compat; [exact H |].
  apply Qlt_le_weak, Qinv_lt_0_compat, pow2_pos.
Qed.

Lemma round_fin_nonpos (fmt : format) (q : Q) : q <= 0 -> round_fin fmt q <= 0.
Proof.
  intros H. assert (Hn : 0 <= - q) by Lqa.lra.
  apply (round_fin_nonneg fmt) in Hn. rewrite round_fin_opp in Hn. Lqa.lra.
Qed.

(** Rounding to nearest is monotone. *)
Lemma round_fin_mono (fmt : format) (x y : Q) :
  (0 < prec fmt)%Z -> x <= y -> round_fin fmt x <= round_fin fmt y.
Proof.
  intros Hp Hxy.
  destruct (Qlt_le_dec 0 x) as [Hx | Hx].
  - now apply round_fin_mono_pos.
  - destruct (Qlt_le_dec y 0) as [Hy | Hy].
    + assert (H : round_fin fmt (- y) <= round_fin fmt (- x))
        by (apply round_fin_mono_pos; [exact Hp | Lqa.lra | Lqa.lra]).
      rewrite !round_fin_opp in H. Lqa.lra.
    + pose proof (round_fin_nonpos fmt x Hx).
      pose proof (round_fin_nonneg fmt y Hy). Lqa.lra.
Qed.

(** A number [m * 2^e] of at most [prec] bits, [e] not below [emin],
    is left unchanged. *)
Lemma round_fin_representable (fmt : format) (m e : Z) :
  (Z.abs m < 2 ^ prec fmt)%Z -> (emin fmt <= e)%Z -> (0 < prec fmt)%Z ->
  round_fin fmt (inject_Z m * pow2 e) == inject_Z m * pow2 e.
Proof.
  intros Hm He Hp. set (q := inject_Z m * pow2 e).
  destruct (Z.eq_dec m 0) as [-> | Nm].
  - assert (E : q == 0) by (unfold q; apply Qmult_0_l).
    rewrite (round_fin_zero fmt q E). now rewrite E.
  - assert (Nq : ~ q == 0).
    { unfold q. intros C. apply Qmult_integral in C. destruct C as [C | C].
      - apply Nm. apply (proj1 (inject_Z_injective m 0)). exact C.
      - pose proof (pow2_pos e). Lqa.lra. }
    assert (Ha : Qabs q < pow2 (prec fmt + e)).
    { unfold q. rewrite Qabs_Qmult, (Qabs_pos (pow2 e)) by apply Qlt_le_weak, pow2_pos.
      rewrite pow2_add. apply Qmult_lt_compat_r; [apply pow2_pos |].
      rewrite <- pow2_inject by lia.
      replace (Qabs (inject_Z m)) with (inject_Z (Z.abs m)) by reflexivity.
      now rewrite <- Zlt_Qlt. }
    pose proof (mag_lt q _ Nq Ha) as Hmag.
    assert (Hc : (cexp fmt q <= e)%Z) by (unfold cexp; lia).
    rewrite round_fin_eq. set (c := cexp fmt q) in *.
    assert (Es : q / pow2 c == inject_Z (m * 2 ^ (e - c))).
    { rewrite inject_Z_mult, pow2_inject by lia. unfold q.
      rewrite div_pow2, <- Qmult_assoc, <- pow2_add.
      now replace (e + - c)%Z with (e - c)%Z by lia. }
    rewrite (rne_comp _ _ Es), rne_inject.
    rewrite inject_Z_mult, pow2_inject by lia.
    rewrite <- Qmult_assoc, <- pow2_add.
    replace (e - c + c)%Z with e by lia. reflexivity.
Qed.


Lemma round_comp (fmt : format) (x y : Q) : x == y -> round fmt x = round fmt y.
Proof.
  intros E. unfold round. rewrite (round_fin_comp fmt x y E).
  assert (E0 : Qle_bool 0 x = Qle_bool 0 y).
  { destruct (Qle_bool 0 x) eqn:A; destruct (Qle_bool 0 y) eqn:B; try reflexivity.
    - apply Qle_bool_iff in A. assert (C : 0 <= y) by Lqa.lra.
      apply Qle_bool_iff in C. congruence.
    - apply Qle_bool_iff in B. assert (C : 0 <= x) by Lqa.lra.
      apply Qle_bool_iff in C. congruence. }
  now rewrite E0.
Qed.

(** Rounding gives a finite number exactly when the rounded magnitude
    stays below [2^emax]. *)
Lemma round_finite (fmt : format) (q : Q) :
  Qabs (round_fin fmt q) < pow2 (emax fmt) ->
  round fmt q = Finite (round_fin fmt q).
Proof.
  intros H. unfold round.
  destruct (Qle_bool (pow2 (emax fmt)) (Qabs (round_fin fmt q))) eqn:T;
    [| reflexivity].
  apply Qle_bool_iff in T. Lqa.lra.
Qed.

Lemma round_finite_inv (fmt : format) (q r : Q) :
  round fmt q = Finite r ->
  r = round_fin fmt q /\ Qabs r < pow2 (emax fmt).
Proof.
  unfold round.
  destruct (Qle_bool (pow2 (emax fmt)) (Qabs (round_fin fmt q))) eqn:T.
  - destruct (Qle_bool 0 q); discriminate.
  - intros [= <-]. split; [reflexivity |].
    apply Qnot_le_lt. intros C. apply Qle_bool_iff in C. congruence.
Qed.

Lemma round_representable (fmt : format) (q : Q) :
  representable fmt q -> exists r, round fmt q = Finite r /\ r == q.
Proof.
  intros [H1 H2]. exists (round_fin fmt q). split; [| exact H1].
  apply round_finite. now rewrite H1.
Qed.


Lemma round_fin_on_grid (fmt : format) (q : Q) :
  on_grid (emin fmt) (round_fin fmt q).
Proof.
  exists (rne (q / pow2 (cexp fmt q)) * 2 ^ (cexp fmt q - emin fmt))%Z.
  rewrite round_fin_eq.
  assert (Hc : (emin fmt <= cexp fmt q)%Z) by (unfold cexp; lia).
  rewrite inject_Z_mult, pow2_inject by lia.
  rewrite <- Qmult_assoc, <- pow2_add.
  now replace (cexp fmt q - emin fmt + emin fmt)%Z with (cexp fmt q) by lia.
Qed.

Lemma representable_on_grid (fmt : format) (q : Q) :
  representable fmt q -> on_grid (emin fmt) q.
Proof.
  intros [H _]. destruct (round_fin_on_grid fmt q) as [k Hk].
  exists k. now rewrite <- H.
Qed.

Lemma on_grid_finer (e e' : Z) (q : Q) :
  (e' <= e)%Z -> on_grid e q -> on_grid e' q.
Proof.
  intros He [k Hk]. exists (k * 2 ^ (e - e'))%Z.
  rewrite inject_Z_mult, pow2_inject by lia.
  rewrite <- Qmult_assoc, <- pow2_add.
  now replace (e - e' + e')%Z with e by lia.
Qed.

Lemma on_grid_sub (e : Z) (x y : Q) :
  on_grid e x -> on_grid e y -> on_grid e (y - x).
Proof.
  intros [k Hk] [l Hl]. exists (l - k)%Z.
  unfold Zminus. rewrite inject_Z_plus, inject_Z_opp, Hk, Hl. ring.
Qed.

Lemma on_grid_pos (e : Z) (q : Q) : on_grid e q -> 0 < q -> pow2 e <= q.
Proof.
  intros [k Hk] Hq. pose proof (pow2_pos e) as Hp.
  assert (Hk1 : (1 <= k)%Z).
  { assert (0 < k)%Z; [| lia].
    destruct (Z_lt_le_dec 0 k) as [A | A]; [exact A | exfalso].
    assert (B : inject_Z k <= 0) by (change 0 with (inject_Z 0); now rewrite <- Zle_Qle).
    assert (C : inject_Z k * pow2 e <= 0 * pow2 e)
      by (apply Qmult_le_compat_r; [exact B | Lqa.lra]).
    Lqa.lra. }
  rewrite Hk. rewrite <- (Qmult_1_l (pow2 e)) at 1.
  apply Qmult_le_compat_r; [| Lqa.lra].
  change 1 with (inject_Z 1). now rewrite <- Zle_Qle.
Qed.

Lemma round_fin_pow2 (fmt : format) (e : Z) :
  (0 < prec fmt)%Z -> (emin fmt <= e)%Z -> round_fin fmt (pow2 e) == pow2 e.
Proof.
  intros Hp He.
  rewrite (round_fin_comp fmt (pow2 e) (inject_Z 1 * pow2 e))
    by (now rewrite Qmult_1_l).
  rewrite round_fin_representable; [apply Qmult_1_l | | exact He | exact Hp].
  change (Z.abs 1) with (2 ^ 0)%Z. apply Z.pow_lt_mono_r; lia.
Qed.

(** Rounding a positive number of the grid never gives zero. *)
Lemma round_fin_pos (fmt : format) (q : Q) :
  (0 < prec fmt)%Z -> on_grid (emin fmt) q -> 0 < q -> 0 < round_fin fmt q.
Proof.
  intros Hp Hg Hq. pose proof (on_grid_pos _ _ Hg Hq) as H.
  apply (round_fin_mono fmt _ _ Hp) in H.
  rewrite round_fin_pow2 in H by (exact Hp || lia).
  pose proof (pow2_pos (emin fmt)). Lqa.lra.
Qed.

(** The error of rounding a number of the grid is at most [2^-prec] of
    it: half a unit in the last place, or nothing below the normal range. *)
Lemma rne_error (t : Q) :
  - (1 # 2) <= inject_Z (rne t) - t <= 1 # 2.
Proof.
  pose proof (floor_bounds t) as [B1 B2].
  destruct (rne_spec t) as [H | H | H _ | H _];
    rewrite ?inject_Z_succ; split; Lqa.lra.
Qed.

Lemma round_fin_error (fmt : format) (q : Q) :
  (0 < prec fmt)%Z -> on_grid (emin fmt) q -> 0 < q ->
  q * (1 - pow2 (- prec fmt)) <= round_fin fmt q <= q * (1 + pow2 (- prec fmt)).
Proof.
  intros Hp Hg Hq. assert (Nq : ~ q == 0) by Lqa.lra.
  destruct (Z_le_gt_dec (emin fmt) (mag q - prec fmt + 1)) as [Hn | Hs].
  - (* normal range *)
    assert (Ec : cexp fmt q = (mag q - prec fmt + 1)%Z) by (unfold cexp; lia).
    rewrite round_fin_eq, Ec. set (c := (mag q - prec fmt + 1)%Z).
    pose proof (rne_error (q / pow2 c)) as [E1 E2].
    pose proof (pow2_pos c) as Hc.
    assert (Eq : q / pow2 c * pow2 c == q) by (field; Lqa.lra).
    assert (Hu : pow2 c * (1 # 2) <= q * pow2 (- prec fmt)).
    { destruct (mag_spec q Nq) as [Hm _]. rewrite Qabs_pos in Hm by Lqa.lra.
      assert (E : pow2 c * (1 # 2) == pow2 (mag q) * pow2 (- prec fmt)).
      { rewrite <- pow2_add. replace (mag q + - prec fmt)%Z with (c + -1)%Z
          by (unfold c; lia).
        rewrite pow2_add. reflexivity. }
      rewrite E. apply Qmult_le_compat_r; [exact Hm |].
      apply Qlt_le_weak, pow2_pos. }
    set (m := inject_Z (rne (q / pow2 c))) in *.
    assert (A1 : (m - q / pow2 c) * pow2 c <= (1 # 2) * pow2 c)
      by (apply Qmult_le_compat_r; Lqa.lra).
    assert (A2 : - (1 # 2) * pow2 c <= (m - q / pow2 c) * pow2 c)
      by (apply Qmult_le_compat_r; Lqa.lra).
    assert (A3 : (m - q / pow2 c) * pow2 c == m * pow2 c - q)
      by (rewrite <- Eq at 2; ring).
    split; Lqa.lra.
  - (* below the normal range the grid number is exact *)
    assert (Ec : cexp fmt q = emin fmt) by (unfold cexp; lia).
    destruct Hg as [k Hk].
    assert (Er : round_fin fmt q == q).
    { rewrite (round_fin_comp fmt q _ Hk).
      rewrite round_fin_representable; [now symmetry | | lia | exact Hp].
      (* |k| < 2^prec because q < 2^(mag q + 1) <= 2^(emin + prec - 1) *)
      destruct (mag_spec q Nq) as [_ Hm]. rewrite Qabs_pos in Hm by Lqa.lra.
      assert (Hk0 : (0 <= k)%Z).
      { destruct (Z_lt_le_dec k 0) as [A | A]; [exfalso | exact A].
        assert (B : inject_Z k <= 0)
          by (change 0 with (inject_Z 0); rewrite <- Zle_Qle; lia).
        pose proof (pow2_pos (emin fmt)).
        assert (C : inject_Z k * pow2 (emin fmt) <= 0 * pow2 (emin fmt))
          by (apply Qmult_le_compat_r; Lqa.lra).
        Lqa.lra. }
      rewrite Z.abs_eq by exact Hk0.
      rewrite Zlt_Qlt, pow2_inject by lia.
      apply Qmult_lt_r with (pow2 (emin fmt)); [apply pow2_pos |].
      rewrite <- Hk, <- pow2_add.
      apply Qlt_le_trans with (pow2 (mag q + 1)); [exact Hm |].
      apply pow2_le. lia. }
    pose proof (pow2_pos (- prec fmt)) as Hu.
    assert (0 <= q * pow2 (- prec fmt)) by (apply Qmult_le_0_compat; Lqa.lra).
    rewrite Er. split; Lqa.lra.
Qed.

(** A rounded number is a number of the format. *)
Lemma round_fin_idempotent (fmt : format) (q : Q) :
  (0 < prec fmt)%Z ->
  round_fin fmt (round_fin fmt q) == round_fin fmt q.
Proof.
  intros Hp.
  destruct (Qeq_dec q 0) as [Z0 | N0].
  - rewrite (round_fin_comp fmt (round_fin fmt q) 0) by now apply round_fin_zero.
    rewrite (round_fin_zero fmt q Z0). now apply round_fin_zero.
  - set (c := cexp fmt q). set (m := rne (q / pow2 c)).
    assert (Er : round_fin fmt q == inject_Z m * pow2 c) by apply round_fin_eq.
    assert (Hc : (emin fmt <= c)%Z) by (unfold c, cexp; lia).
    assert (Hm : (Z.abs m <= 2 ^ prec fmt)%Z).
    { destruct (mag_spec q N0) as [_ Hq].
      assert (Hb : Qabs q < pow2 (prec fmt) * pow2 c).
      { rewrite <- pow2_add.
        apply Qlt_le_trans with (pow2 (mag q + 1)); [exact Hq |].
        apply pow2_le. unfold c, cexp. lia. }
      assert (Hs : Qabs (q / pow2 c) <= inject_Z (2 ^ prec fmt)).
      { rewrite pow2_inject by lia. unfold Qdiv.
        rewrite Qabs_Qmult, Qabs_Qinv, (Qabs_pos (pow2 c))
          by apply Qlt_le_weak, pow2_pos.
        apply Qlt_le_weak. apply Qlt_shift_div_r; [apply pow2_pos | exact Hb]. }
      apply Qabs_Qle_condition in Hs. destruct Hs as [S1 S2].
      apply rne_mono in S2. rewrite rne_inject in S2.
      rewrite <- inject_Z_opp in S1.
      apply rne_mono in S1. rewrite rne_inject in S1.
      fold m in S1, S2. lia. }
    rewrite (round_fin_comp fmt _ _ Er).
    destruct (Z.eq_dec (Z.abs m) (2 ^ prec fmt)) as [Eb | Nb].
    + (* the mantissa reached the next power of two *)
      assert (Zm : m = (Z.sgn m * 2 ^ (prec fmt - 1) * 2 ^ 1)%Z).
      { rewrite <- Z.mul_assoc, <- Z.pow_add_r by lia.
        replace (prec fmt - 1 + 1)%Z with (prec fmt) by lia.
        rewrite <- Eb. pose proof (Z.abs_sgn m). lia. }
      assert (Em : inject_Z m * pow2 c
                   == inject_Z (Z.sgn m * 2 ^ (prec fmt - 1)) * pow2 (c + 1)).
      { rewrite Zm at 1. rewrite (inject_Z_mult _ (2 ^ 1)), pow2_inject by lia.
        rewrite <- Qmult_assoc, <- pow2_add.
        now replace (1 + c)%Z with (c + 1)%Z by lia. }
      rewrite (round_fin_comp fmt _ _ Em).
      rewrite round_fin_representable; [now rewrite <- Em, Er | | lia | exact Hp].
      assert (0 < 2 ^ (prec fmt - 1))%Z by (apply Z.pow_pos_nonneg; lia).
      assert (2 ^ (prec fmt - 1) < 2 ^ prec fmt)%Z
        by (apply Z.pow_lt_mono_r; lia).
      destruct (Z.sgn_spec m) as [[_ ->] | [[_ ->] | [_ ->]]]; lia.
    + rewrite round_fin_representable; [now rewrite Er | lia | exact Hc | exact Hp].
Qed.

End Rounding.

(** The operations of [IEEE] give what [SpecFloat] gives, on every pair
    of sample operands and in both formats. *)
Lemma rounding_agrees_with_SpecFloat :
  all_agree IEEE.binary64 false IEEE.sub SFsub = true /\
  all_agree IEEE.binary64 false IEEE.mul SFmul = true /\
  all_agree IEEE.binary64 true IEEE.div SFdiv = true /\
  all_agree IEEE.binary32 false IEEE.sub SFsub = true /\
  all_agree IEEE.binary32 false IEEE.mul SFmul = true /\
  all_agree IEEE.binary32 true IEEE.div SFdiv = true.
Proof. repeat apply conj; vm_compute; reflexivity. Qed.

(** ** Arithmetic of [num] *)

Lemma Rsign_pos (x : R) : 0 < x -> Rsign x = Gt.
Proof.
  intros H. unfold Rsign.
  destruct (total_order_T x 0) as [[Hlt | Heq] | Hgt]; try lra; reflexivity.
Qed.

Lemma Rsign_neg (x : R) : x < 0 -> Rsign x = Lt.
Proof.
  intros H. unfold Rsign.
  destruct (total_order_T x 0) as [[Hlt | Heq] | Hgt]; try lra; reflexivity.
Qed.

Lemma Rsign_zero (x : R) : x = 0 -> Rsign x = Eq.
Proof.
  intros H. unfold Rsign.
  destruct (total_order_T x 0) as [[Hlt | Heq] | Hgt]; try lra; reflexivity.
Qed.

Lemma ndiv_fin (x y : R) : y <> 0 -> ndiv (Fin x) (Fin y) = Fin (x / y).
Proof.
  intros Hy. simpl.
  destruct (Rtotal_order y 0) as [H | [H | H]].
  - now rewrite (Rsign_neg y H).
  - contradiction.
  - now rewrite (Rsign_pos y H).
Qed.

Lemma ndiv_zero_zero (x y : R) : x = 0 -> y = 0 -> ndiv (Fin x) (Fin y) = NaN.
Proof.
  intros Hx Hy. simpl. now rewrite (Rsign_zero y Hy), (Rsign_zero x Hx).
Qed.


Lemma ndiv_nan_l (b : num) : ndiv NaN b = NaN.
Proof. now destruct b. Qed.

Lemma nsub_nan_r (a : num) : nsub a NaN = NaN.
Proof. now destruct a. Qed.

Lemma minimum_nan_r (a : num) : minimum a NaN = NaN.
Proof. now destruct a. Qed.

Lemma log10_pos (x : R) : 0 < x -> log10 (Fin x) = Fin (lg x).
Proof. intros H. simpl. now rewrite (Rsign_pos x H). Qed.


Lemma lg_1 : lg 1 = 0.
Proof. unfold lg. rewrite ln_1. unfold Rdiv. ring. Qed.


(** ** Reductions *)

Lemma fold_minimum_fin (rs : list R) (r : R) :
  fold_left minimum (map Fin rs) (Fin r) = Fin (fold_left Rmin rs r).
Proof.
  revert r. induction rs as [| x rs IH]; intros r; simpl; [reflexivity |].
  apply IH.
Qed.

Lemma fold_maximum_fin (rs : list R) (r : R) :
  fold_left maximum (map Fin rs) (Fin r) = Fin (fold_left Rmax rs r).
Proof.
  revert r. induction rs as [| x rs IH]; intros r; simpl; [reflexivity |].
  apply IH.
Qed.

Lemma fold_Rmin_le (rs : list R) (r : R) :
  fold_left Rmin rs r <= r /\ forall x, In x rs -> fold_left Rmin rs r <= x.
Proof.
  revert r. induction rs as [| y rs IH]; intros r; simpl.
  - split; [lra | tauto].
  - destruct (IH (Rmin r y)) as [H1 H2]. split.
    + pose proof (Rmin_l r y). lra.
    + intros x [-> | Hx]; [| now apply H2].
      pose proof (Rmin_r r x). lra.
Qed.

Lemma fold_Rmax_ge (rs : list R) (r : R) :
  r <= fold_left Rmax rs r /\ forall x, In x rs -> x <= fold_left Rmax rs r.
Proof.
  revert r. induction rs as [| y rs IH]; intros r; simpl.
  - split; [lra | tauto].
  - destruct (IH (Rmax r y)) as [H1 H2]. split.
    + pose proof (Rmax_l r y). lra.
    + intros x [-> | Hx]; [| now apply H2].
      pose proof (Rmax_r r x). lra.
Qed.

Lemma fold_Rmin_in (rs : list R) (r : R) :
  fold_left Rmin rs r = r \/ In (fold_left Rmin rs r) rs.
Proof.
  revert r. induction rs as [| y rs IH]; intros r; simpl; [now left |].
  destruct (IH (Rmin r y)) as [H | H]; [| now right; right].
  rewrite H. unfold Rmin. destruct (Rle_dec r y); [now left | now right; left].
Qed.

Lemma fold_Rmax_in (rs : list R) (r : R) :
  fold_left Rmax rs r = r \/ In (fold_left Rmax rs r) rs.
Proof.
  revert r. induction rs as [| y rs IH]; intros r; simpl; [now left |].
  destruct (IH (Rmax r y)) as [H | H]; [| now right; right].
  rewrite H. unfold Rmax. destruct (Rle_dec r y); [now right; left | now left].
Qed.

Lemma Rminimum_le (rs : list R) (x : R) : In x rs -> Rminimum rs <= x.
Proof.
  destruct rs as [| r rs]; simpl; [tauto |].
  destruct (fold_Rmin_le rs r) as [H1 H2].
  intros [<- | Hx]; [exact H1 | now apply H2].
Qed.

Lemma Rmaximum_ge (rs : list R) (x : R) : In x rs -> x <= Rmaximum rs.
Proof.
  destruct rs as [| r rs]; simpl; [tauto |].
  destruct (fold_Rmax_ge rs r) as [H1 H2].
  intros [<- | Hx]; [exact H1 | now apply H2].
Qed.

Lemma Rminimum_in (rs : list R) : rs <> [] -> In (Rminimum rs) rs.
Proof.
  destruct rs as [| r rs]; [congruence |]. intros _. simpl.
  destruct (fold_Rmin_in rs r) as [H | H]; [left; now rewrite H | now right].
Qed.

Lemma Rmaximum_in (rs : list R) : rs <> [] -> In (Rmaximum rs) rs.
Proof.
  destruct rs as [| r rs]; [congruence |]. intros _. simpl.
  destruct (fold_Rmax_in rs r) as [H | H]; [left; now rewrite H | now right].
Qed.

Lemma amin_fin (rs : list R) :
  rs <> [] -> amin (map Fin rs) = Ok (Fin (Rminimum rs)).
Proof.
  destruct rs as [| r rs]; [congruence |]. intros _. simpl.
  now rewrite fold_minimum_fin.
Qed.

Lemma amax_fin (rs : list R) :
  rs <> [] -> amax (map Fin rs) = Ok (Fin (Rmaximum rs)).
Proof.
  destruct rs as [| r rs]; [congruence |]. intros _. simpl.
  now rewrite fold_maximum_fin.
Qed.

Lemma amin_total (data : list num) :
  data <> [] -> exists m, amin data = Ok m.
Proof. destruct data; [congruence |]. intros _. simpl. eauto. Qed.

Lemma amax_total (data : list num) :
  data <> [] -> exists m, amax data = Ok m.
Proof. destruct data; [congruence |]. intros _. simpl. eauto. Qed.

(** ** The normalisation engine *)

Lemma length_flatten (image : list (list num)) (k : nat) :
  (forall r, In r image -> List.length r = k) ->
  List.length (flatten image) = (List.length image * k)%nat.
Proof.
  unfold flatten. induction image as [| r image IH]; intros H; simpl.
  - reflexivity.
  - rewrite length_app, IH, (H r); [reflexivity | now left |].
    intros r' Hr'. apply H. now right.
Qed.

(** Every technique answers on a sample with at least one pixel, with as
    many values as it was given. *)
Lemma technique_total_length (mn mx : num)
  (t : list num -> result (list num)) (data : list num) :
  In t (techniques mn mx) -> data <> [] ->
  exists out, t data = Ok out /\ List.length out = List.length data.
Proof.
  intros Ht Hne.
  assert (Hlog : map log10 data <> []) by (destruct data; simpl; congruence).
  destruct (amin_total data Hne) as [m Hm].
  destruct (amax_total data Hne) as [M HM].
  destruct (amin_total _ Hlog) as [ml Hml].
  simpl in Ht.
  destruct Ht as [<- | [<- | [<- | [<- | [<- | []]]]]].
  - unfold norm_1. rewrite Hml. simpl. eexists. split; [reflexivity |].
    now rewrite !length_map.
  - unfold norm_2. rewrite Hm, HM. simpl. eexists. split; [reflexivity |].
    now rewrite !length_map.
  - unfold norm_3. eexists. split; [reflexivity |]. now rewrite !length_map.
  - unfold norm_4. rewrite Hm. simpl. eexists. split; [reflexivity |].
    now rewrite !length_map.
  - unfold norm_5. rewrite Hml. simpl. eexists. split; [reflexivity |].
    now rewrite !length_map.
Qed.

(** C9. For a 20x20 cutout the raw vector has 400 values, and each of the
    five techniques returns a vector (it does not raise) with as many
    values as the raw vector, 400. *)
Theorem technique_output_length :
  forall (mn mx : num) (image : list (list num)),
    List.length image = 20%nat ->
    (forall r, In r image -> List.length r = 20%nat) ->
    List.length (flatten image) = 400%nat /\
    forall t, In t (techniques mn mx) ->
      exists out, t (flatten image) = Ok out /\
                  List.length out = List.length (flatten image) /\
                  List.length out = 400%nat.
Proof.
  intros mn mx image Hrows Hcols.
  assert (Hlen : List.length (flatten image) = 400%nat).
  { rewrite (length_flatten image 20 Hcols), Hrows. reflexivity. }
  split; [exact Hlen |].
  intros t Ht.
  assert (Hne : flatten image <> []).
  { intros E. rewrite E in Hlen. discriminate. }
  destruct (technique_total_length mn mx t _ Ht Hne) as [out [Hout Hl]].
  exists out. repeat split; [exact Hout | exact Hl | congruence].
Qed.

Lemma technique_output_length_witness :
  List.length (flatten (repeat (repeat (Fin 1) 20) 20)) = 400%nat /\
  forall t, In t (techniques (Fin 1) (Fin 8)) ->
    exists out, t (flatten (repeat (repeat (Fin 1) 20) 20)) = Ok out /\
                List.length out = List.length (flatten (repeat (repeat (Fin 1) 20) 20)) /\
                List.length out = 400%nat.
Proof.
  apply (technique_output_length (Fin 1) (Fin 8) (repeat (repeat (Fin 1) 20) 20)).
  - reflexivity.
  - intros r Hr. apply repeat_spec in Hr. subst r. reflexivity.
Defined.

(** ** Techniques 2 and 3 in floating-point arithmetic *)

Section FloatTechniques.

Import IEEE.
Local Open Scope Q_scope.

Lemma binary64_prec : (0 < prec binary64)%Z.
Proof. reflexivity. Qed.

Lemma binary32_prec : (0 < prec binary32)%Z.
Proof. reflexivity. Qed.

Lemma round_fin_one (fmt : format) :
  (0 < prec fmt)%Z -> (emin fmt <= 0)%Z -> round_fin fmt 1 == 1.
Proof.
  intros Hp He. change 1 with (pow2 0). now apply round_fin_pow2.
Qed.

(** The least and the greatest entry of an array of finite floats. *)
Lemma fold_minimum_finite (rest : list Q) :
  forall a, exists m,
    fold_left minimum (map Finite rest) (Finite a) = Finite m /\
    In m (a :: rest) /\ forall x, In x (a :: rest) -> m <= x.
Proof.
  induction rest as [| b rest IH]; intros a; simpl.
  - exists a. split; [reflexivity |]. split; [now left |].
    intros x [<- | []]. apply Qle_refl.
  - destruct (Qle_bool a b) eqn:T.
    + apply Qle_bool_iff in T.
      destruct (IH a) as [m [E [Hin Hle]]]. exists m. split; [exact E |].
      split; [destruct Hin as [<- | Hin]; [now left | right; now right] |].
      intros x [<- | [<- | Hx]].
      * apply Hle. now left.
      * apply Qle_trans with a; [apply Hle; now left | exact T].
      * apply Hle. now right.
    + assert (T' : b <= a).
      { apply Qlt_le_weak, Qnot_le_lt. intros C.
        apply Qle_bool_iff in C. congruence. }
      destruct (IH b) as [m [E [Hin Hle]]]. exists m. split; [exact E |].
      split; [right; exact Hin |].
      intros x [<- | [<- | Hx]].
      * apply Qle_trans with b; [apply Hle; now left | exact T'].
      * apply Hle. now left.
      * apply Hle. now right.
Qed.

Lemma fold_maximum_finite (rest : list Q) :
  forall a, exists m,
    fold_left maximum (map Finite rest) (Finite a) = Finite m /\
    In m (a :: rest) /\ forall x, In x (a :: rest) -> x <= m.
Proof.
  induction rest as [| b rest IH]; intros a; simpl.
  - exists a. split; [reflexivity |]. split; [now left |].
    intros x [<- | []]. apply Qle_refl.
  - destruct (Qle_bool a b) eqn:T.
    + apply Qle_bool_iff in T.
      destruct (IH b) as [m [E [Hin Hle]]]. exists m. split; [exact E |].
      split; [right; exact Hin |].
      intros x [<- | [<- | Hx]].
      * apply Qle_trans with b; [exact T | apply Hle; now left].
      * apply Hle. now left.
      * apply Hle. now right.
    + assert (T' : b <= a).
      { apply Qlt_le_weak, Qnot_le_lt. intros C.
        apply Qle_bool_iff in C. congruence. }
      destruct (IH a) as [m [E [Hin Hle]]]. exists m. split; [exact E |].
      split; [destruct Hin as [<- | Hin]; [now left | right; now right] |].
      intros x [<- | [<- | Hx]].
      * apply Hle. now left.
      * apply Qle_trans with a; [exact T' | apply Hle; now left].
      * apply Hle. now right.
Qed.

Lemma amin_finite (data : list Q) (mn : Q) :
  In mn data -> (forall x, In x data -> mn <= x) ->
  exists m, amin (map Finite data) = Ok (Finite m) /\ m == mn.
Proof.
  intros Hin Hle. destruct data as [| a rest]; [contradiction |].
  destruct (fold_minimum_finite rest a) as [m [E [Hm Hlow]]].
  exists m. split; [simpl; now rewrite E |].
  apply Qle_antisym; [now apply Hlow | now apply Hle].
Qed.

Lemma amax_finite (data : list Q) (mx : Q) :
  In mx data -> (forall x, In x data -> x <= mx) ->
  exists m, amax (map Finite data) = Ok (Finite m) /\ m == mx.
Proof.
  intros Hin Hle. destruct data as [| a rest]; [contradiction |].
  destruct (fold_maximum_finite rest a) as [m [E [Hm Hup]]].
  exists m. split; [simpl; now rewrite E |].
  apply Qle_antisym; [now apply Hle | now apply Hup].
Qed.

(** A difference between 0 and a range that does not overflow is a
    finite float64, between 0 and the rounded range. *)
Lemma sub_within (x mn D : Q) :
  0 <= x - mn -> x - mn <= D ->
  Qabs (round_fin binary64 D) < pow2 (emax binary64) ->
  exists n, sub binary64 (Finite x) (Finite mn) = Finite n /\
            0 <= n /\ n <= round_fin binary64 D.
Proof.
  intros H0 H1 Hfin. cbn [sub].
  pose proof (round_fin_nonneg binary64 _ H0) as N0.
  pose proof (round_fin_mono binary64 _ _ binary64_prec H1) as N1.
  exists (round_fin binary64 (x - mn)). split; [| split; assumption].
  apply round_finite. rewrite Qabs_pos by exact N0.
  apply Qle_lt_trans with (round_fin binary64 D); [exact N1 |].
  apply Qle_lt_trans with (Qabs (round_fin binary64 D)); [apply Qle_Qabs | exact Hfin].
Qed.

(** A quotient of a float by a positive float, at most a float64 [b]
    below the overflow threshold, is a finite float64 between 0 and [b]. *)
Lemma div_within (n d b : Q) :
  0 <= n -> 0 < d -> n <= b * d ->
  round_fin binary64 b == b -> b < pow2 (emax binary64) ->
  exists q, div binary64 (Finite n) (Finite d) = Finite q /\ 0 <= q <= b /\
            q = round_fin binary64 (n / d).
Proof.
  intros Hn Hd Hb Eb Hfin. cbn [div].
  assert (Hc : Qcompare d 0 = Gt) by now apply Qgt_alt.
  rewrite Hc.
  assert (H0 : 0 <= n / d).
  { unfold Qdiv. apply Qmult_le_0_compat; [exact Hn |].
    apply Qlt_le_weak, Qinv_lt_0_compat, Hd. }
  assert (H1 : n / d <= b) by now apply Qle_shift_div_r.
  pose proof (round_fin_nonneg binary64 _ H0) as N0.
  pose proof (round_fin_mono binary64 _ _ binary64_prec H1) as N1.
  rewrite Eb in N1.
  exists (round_fin binary64 (n / d)).
  split; [| split; [split; assumption | reflexivity]].
  apply round_finite. rewrite Qabs_pos by exact N0. Lqa.lra.
Qed.

(** The rounded difference of two floats of a format is positive. *)
Lemma range_pos (fmt : format) (mn mx : Q) :
  (0 < prec fmt)%Z ->
  representable fmt mn -> representable fmt mx -> mn < mx ->
  0 < round_fin fmt (mx - mn).
Proof.
  intros Hp Hmn Hmx Hlt. apply round_fin_pos; [exact Hp | | Lqa.lra].
  apply on_grid_sub; now apply representable_on_grid.
Qed.

(** The two outcomes of rounding a positive number. *)
Lemma round_pos_cases (fmt : format) (q : Q) :
  0 < round_fin fmt q -> 0 <= q ->
  round fmt q = Finite (round_fin fmt q) \/ round fmt q = PosInf.
Proof.
  intros Hr Hq. unfold round.
  destruct (Qle_bool (pow2 (emax fmt)) (Qabs (round_fin fmt q)));
    [right | now left].
  apply Qle_bool_iff in Hq. now rewrite Hq.
Qed.

Lemma unit_float_zero : unit_float (Finite 0).
Proof. exists 0. split; [reflexivity | split; Lqa.lra]. Qed.


Lemma round_fin_canonical (fmt : format) (q c : Q) :
  round_fin fmt q == c -> round_fin fmt q = Qred c.
Proof.
  intros H. unfold round_fin in *. apply Qred_complete.
  rewrite <- H. symmetry. apply Qred_correct.
Qed.

(** Technique 2 in float64: the values of a sample that is not constant
    and whose range does not overflow. *)
Lemma norm_2_float (data : list Q) (mn mx d : Q) :
  Forall (representable binary64) data ->
  In mn data -> In mx data ->
  (forall x, In x data -> mn <= x <= mx) -> mn < mx ->
  sub binary64 (Finite mx) (Finite mn) = Finite d ->
  exists m1 m2,
    m1 == mn /\ m2 == mx /\ 0 < d /\
    norm_2 (map Finite data)
    = Ok (map (fun v => div binary64 (sub binary64 v (Finite m1)) (Finite d))
              (map Finite data)) /\
    forall x, In x data ->
      exists n, sub binary64 (Finite x) (Finite m1) = Finite n /\
                0 <= n <= d /\ (x == mn -> n = 0) /\ (x == mx -> n = d).
Proof.
  intros Hrep Hmn Hmx Hin Hlt Hd.
  destruct (amin_finite data mn Hmn) as [m1 [E1 Em1]];
    [intros x Hx; now apply Hin |].
  destruct (amax_finite data mx Hmx) as [m2 [E2 Em2]];
    [intros x Hx; now apply Hin |].
  exists m1, m2. split; [exact Em1 |]. split; [exact Em2 |].
  cbn [sub] in Hd.
  destruct (round_finite_inv _ _ _ Hd) as [Ed Hfin].
  rewrite Forall_forall in Hrep.
  assert (Hpos : 0 < d).
  { rewrite Ed. apply range_pos; [reflexivity | now apply Hrep.. | exact Hlt]. }
  split; [exact Hpos |].
  assert (Er : round binary64 (m2 - m1) = Finite d).
  { rewrite <- Hd. apply round_comp. now rewrite Em1, Em2. }
  split.
  - unfold norm_2. rewrite E1, E2. cbn [bind].
    change (sub binary64 (Finite m2) (Finite m1)) with (round binary64 (m2 - m1)).
    now rewrite Er.
  - intros x Hx. destruct (Hin x Hx) as [L U].
    destruct (sub_within x m1 (mx - mn)) as [n [En [N0 N1]]];
      [rewrite Em1; Lqa.lra | rewrite Em1; Lqa.lra | now rewrite <- Ed |].
    exists n. split; [exact En |]. rewrite <- Ed in N1.
    split; [now split |].
    cbn [sub] in En. apply round_finite_inv in En. destruct En as [En _].
    split.
    + intros Ex. rewrite En. rewrite (round_fin_canonical _ _ 0); [reflexivity |].
      apply round_fin_zero. rewrite Ex, Em1. ring.
    + intros Ex. rewrite En, Ed. apply round_fin_comp. now rewrite Ex, Em1.
Qed.

(** The threshold of technique 3 on float32 images. *)
Lemma float32_bound :
  round_fin binary64 (1 + pow2 (-23)) == 1 + pow2 (-23) /\
  1 + pow2 (-23) < pow2 (emax binary64).
Proof. split; vm_compute; reflexivity. Qed.

Lemma one_bound : round_fin binary64 1 == 1 /\ 1 < pow2 (emax binary64).
Proof. split; vm_compute; reflexivity. Qed.

(** The float64 range of two float32 numbers does not overflow. *)
Lemma float32_range_finite (mn mx : Q) :
  representable binary32 mn -> representable binary32 mx -> mn < mx ->
  Qabs (round_fin binary64 (mx - mn)) < pow2 (emax binary64).
Proof.
  intros [_ Hmn] [_ Hmx] Hlt.
  change (emax binary32) with 128%Z in Hmn, Hmx.
  apply Qabs_Qlt_condition in Hmn. apply Qabs_Qlt_condition in Hmx.
  assert (H : mx - mn <= pow2 129).
  { replace 129%Z with (128 + 1)%Z by reflexivity. rewrite pow2_add.
    change (pow2 1) with 2. Lqa.lra. }
  apply (round_fin_mono binary64 _ _ binary64_prec) in H.
  rewrite round_fin_pow2 in H by (reflexivity || discriminate).
  assert (H0 : 0 <= round_fin binary64 (mx - mn))
    by (apply round_fin_nonneg; Lqa.lra).
  rewrite Qabs_pos by exact H0.
  apply Qle_lt_trans with (pow2 129); [exact H |]. now apply pow2_lt.
Qed.


(** Technique 2 maps into the unit interval. *)
Lemma norm_2_unit (data : list Q) (mn mx d : Q) :
  Forall (representable binary64) data ->
  In mn data -> In mx data ->
  Forall (fun x => mn <= x <= mx) data -> mn < mx ->
  sub binary64 (Finite mx) (Finite mn) = Finite d ->
  exists out,
    norm_2 (map Finite data) = Ok out /\
    List.length out = List.length data /\
    Forall unit_float out.
Proof.
  intros Hrep Hmn Hmx Hin Hlt Hd. rewrite Forall_forall in Hin.
  destruct (norm_2_float data mn mx d Hrep Hmn Hmx Hin Hlt Hd)
    as (m1 & m2 & Em1 & Em2 & Hpos & E & Hx).
  eexists. split; [exact E |]. split; [now rewrite !length_map |].
  rewrite map_map. apply Forall_map, Forall_forall. intros x Hin'.
  destruct (Hx x Hin') as (n & En & [N0 N1] & _). rewrite En.
  destruct one_bound as [B1 B2].
  destruct (div_within n d 1 N0 Hpos) as (q & Eq & Hq & _);
    [Lqa.lra | exact B1 | exact B2 |].
  exists q. split; assumption.
Qed.

(** Technique 3 on float64 images maps into the unit interval. *)
Lemma norm_3_unit_float64 (data : list Q) (mn mx d : Q) :
  representable binary64 mn -> representable binary64 mx -> mn < mx ->
  Forall (fun x => mn <= x <= mx) data ->
  sub binary64 (Finite mx) (Finite mn) = Finite d ->
  exists out,
    norm_3 binary64 (Finite mn) (Finite mx) (map Finite data) = Ok out /\
    List.length out = List.length data /\
    Forall unit_float out.
Proof.
  intros Hmn Hmx Hlt Hin Hd. rewrite Forall_forall in Hin.
  unfold norm_3. eexists. split; [reflexivity |].
  split; [now rewrite !length_map |].
  rewrite map_map. apply Forall_map, Forall_forall. intros x Hx.
  destruct (Hin x Hx) as [L U]. rewrite Hd.
  cbn [sub] in Hd. destruct (round_finite_inv _ _ _ Hd) as [Ed Hfin].
  assert (Hpos : 0 < d)
    by (rewrite Ed; apply range_pos; [reflexivity | assumption..]).
  destruct (sub_within x mn (mx - mn)) as [n [En [N0 N1]]];
    [Lqa.lra | Lqa.lra | now rewrite <- Ed |].
  rewrite En. rewrite <- Ed in N1.
  destruct one_bound as [B1 B2].
  destruct (div_within n d 1 N0 Hpos) as (q & Eq & Hq & _);
    [Lqa.lra | exact B1 | exact B2 |].
  exists q. split; assumption.
Qed.

(** Technique 3 on float32 images: the divisor is rounded to float32, and
    the quotient can pass 1 by the error of that rounding. *)
Lemma norm_3_unit_float32 (data : list Q) (mn mx : Q) :
  representable binary32 mn -> representable binary32 mx -> mn < mx ->
  Forall (fun x => mn <= x <= mx) data ->
  exists out,
    norm_3 binary32 (Finite mn) (Finite mx) (map Finite data) = Ok out /\
    List.length out = List.length data /\
    Forall (fun v => exists q, v = Finite q /\ 0 <= q <= 1 + pow2 (-23)) out.
Proof.
  intros Hmn Hmx Hlt Hin. rewrite Forall_forall in Hin.
  unfold norm_3. eexists. split; [reflexivity |].
  split; [now rewrite !length_map |].
  rewrite map_map. apply Forall_map, Forall_forall. intros x Hx.
  destruct (Hin x Hx) as [L U].
  pose proof (float32_range_finite mn mx Hmn Hmx Hlt) as Hfin.
  destruct (sub_within x mn (mx - mn)) as [n [En [N0 N1]]];
    [Lqa.lra | Lqa.lra | exact Hfin |].
  rewrite En.
  assert (HD : 0 < mx - mn) by Lqa.lra.
  assert (G32 : on_grid (emin binary32) (mx - mn))
    by (apply on_grid_sub; now apply representable_on_grid).
  assert (G64 : on_grid (emin binary64) (mx - mn))
    by (apply (on_grid_finer (emin binary32)); [discriminate | exact G32]).
  pose proof (round_fin_error binary64 _ binary64_prec G64 HD) as [_ E64].
  pose proof (round_fin_error binary32 _ binary32_prec G32 HD) as [E32 _].
  pose proof (range_pos binary32 mn mx binary32_prec Hmn Hmx Hlt) as Hpos.
  cbn [sub].
  destruct (round_pos_cases binary32 (mx - mn) Hpos) as [Er | Er];
    [Lqa.lra | | ]; rewrite Er.
  - destruct float32_bound as [B1 B2].
    destruct (div_within n (round_fin binary32 (mx - mn)) (1 + pow2 (-23))
                N0 Hpos) as (q & Eq & Hq & _); [| exact B1 | exact B2 |].
    + assert (U64 : pow2 (- prec binary64) == 1 # 9007199254740992)
        by (vm_compute; reflexivity).
      assert (U32 : pow2 (- prec binary32) == 1 # 16777216)
        by (vm_compute; reflexivity).
      assert (U23 : pow2 (-23) == 1 # 8388608) by (vm_compute; reflexivity).
      rewrite U64 in E64. rewrite U32 in E32. rewrite U23.
      set (r32 := round_fin binary32 (mx - mn)) in *.
      set (r64 := round_fin binary64 (mx - mn)) in *.
      Lqa.lra.
    + exists q. split; assumption.
  - cbn [div]. exists 0. split; [reflexivity |].
    assert (0 < pow2 (-23)) by apply pow2_pos. split; Lqa.lra.
Qed.

End FloatTechniques.

(** C7, in the arithmetic of the notebook.  Technique 2 maps a float64
    sample that is not constant into [0,1], provided the range
    [max - min] does not overflow.  Technique 3 maps a sample whose values
    lie between the corpus extrema, when these differ, into [0,1] when the
    images are float64 and the corpus range does not overflow; when the
    images are float32 the divisor is the corpus range rounded to float32
    while the pixels are float64, and the values lie in
    [0, 1 + 2^-23]. *)
Theorem norm_2_norm_3_unit_interval :
  (forall (data : list Q) (mn mx d : Q),
      Forall (IEEE.representable IEEE.binary64) data ->
      In mn data -> In mx data ->
      Forall (fun x => mn <= x <= mx)%Q data -> (mn < mx)%Q ->
      IEEE.sub IEEE.binary64 (IEEE.Finite mx) (IEEE.Finite mn) = IEEE.Finite d ->
      exists out,
        IEEE.norm_2 (map IEEE.Finite data) = Ok out /\
        List.length out = List.length data /\
        Forall unit_float out)
  /\
  (forall (data : list Q) (mn mx d : Q),
      IEEE.representable IEEE.binary64 mn ->
      IEEE.representable IEEE.binary64 mx -> (mn < mx)%Q ->
      Forall (fun x => mn <= x <= mx)%Q data ->
      IEEE.sub IEEE.binary64 (IEEE.Finite mx) (IEEE.Finite mn) = IEEE.Finite d ->
      exists out,
        IEEE.norm_3 IEEE.binary64 (IEEE.Finite mn) (IEEE.Finite mx)
                    (map IEEE.Finite data) = Ok out /\
        List.length out = List.length data /\
        Forall unit_float out)
  /\
  (forall (data : list Q) (mn mx : Q),
      IEEE.representable IEEE.binary32 mn ->
      IEEE.representable IEEE.binary32 mx -> (mn < mx)%Q ->
      Forall (fun x => mn <= x <= mx)%Q data ->
      exists out,
        IEEE.norm_3 IEEE.binary32 (IEEE.Finite mn) (IEEE.Finite mx)
                    (map IEEE.Finite data) = Ok out /\
        List.length out = List.length data /\
        Forall (fun v => exists q, v = IEEE.Finite q /\
                                   (0 <= q <= 1 + IEEE.pow2 (-23))%Q) out).
Proof.
  split; [exact norm_2_unit |].
  split; [exact norm_3_unit_float64 | exact norm_3_unit_float32].
Qed.

Lemma norm_2_norm_3_unit_interval_witness :
  (exists out,
      IEEE.norm_2 (map IEEE.Finite [1; 2; 3; 4]%Q) = Ok out /\
      List.length out = 4%nat /\ Forall unit_float out)
  /\
  (exists out,
      IEEE.norm_3 IEEE.binary64 (IEEE.Finite 1) (IEEE.Finite 8)
                  (map IEEE.Finite [1; 2; 3; 4]%Q) = Ok out /\
      List.length out = 4%nat /\ Forall unit_float out)
  /\
  (exists out,
      IEEE.norm_3 IEEE.binary32 (IEEE.Finite (-1 # 16777216)) (IEEE.Finite 2)
                  (map IEEE.Finite [0; 1; 2]%Q) = Ok out /\
      List.length out = 3%nat /\
      Forall (fun v => exists q, v = IEEE.Finite q /\
                                 (0 <= q <= 1 + IEEE.pow2 (-23))%Q) out).
Proof.
  split; [| split].
  - apply (proj1 norm_2_norm_3_unit_interval [1; 2; 3; 4]%Q 1%Q 4%Q 3%Q).
    + repeat (apply Forall_cons; [split; vm_compute; reflexivity |]).
      apply Forall_nil.
    + simpl. tauto.
    + simpl. tauto.
    + repeat (apply Forall_cons; [split; vm_compute; discriminate |]).
      apply Forall_nil.
    + reflexivity.
    + vm_compute. reflexivity.
  - apply (proj1 (proj2 norm_2_norm_3_unit_interval) [1; 2; 3; 4]%Q 1%Q 8%Q 7%Q).
    + split; vm_compute; reflexivity.
    + split; vm_compute; reflexivity.
    + reflexivity.
    + repeat (apply Forall_cons; [split; vm_compute; discriminate |]).
      apply Forall_nil.
    + vm_compute. reflexivity.
  - apply (proj2 (proj2 norm_2_norm_3_unit_interval)
             [0; 1; 2]%Q (-1 # 16777216)%Q 2%Q).
    + split; vm_compute; reflexivity.
    + split; vm_compute; reflexivity.
    + reflexivity.
    + repeat (apply Forall_cons; [split; vm_compute; discriminate |]).
      apply Forall_nil.
Defined.

(** C7, the claim refuted.  On float32 images with the corpus extrema
    [-2^-24] and [2], technique 3 maps the pixel [2] to [1 + 2^-25]: the
    float32 difference of the extrema is 2, the float64 difference
    [2 + 2^-24].  And technique 2 maps the float64 sample
    [-2^1023, 2^1023], whose range overflows, to [0, nan]. *)
Lemma norm_3_exceeds_one :
  IEEE.representable IEEE.binary32 (-1 # 16777216) /\
  IEEE.representable IEEE.binary32 2 /\
  IEEE.norm_3 IEEE.binary32 (IEEE.Finite (-1 # 16777216)) (IEEE.Finite 2)
              [IEEE.Finite 2]
  = Ok [IEEE.Finite (33554433 # 33554432)] /\
  (1 < 33554433 # 33554432)%Q /\
  IEEE.representable IEEE.binary64 (- IEEE.pow2 1023) /\
  IEEE.representable IEEE.binary64 (IEEE.pow2 1023) /\
  IEEE.norm_2 [IEEE.Finite (- IEEE.pow2 1023); IEEE.Finite (IEEE.pow2 1023)]
  = Ok [IEEE.Finite 0; IEEE.NotANumber].
Proof.
  repeat apply conj; vm_compute; reflexivity.
Qed.

Lemma Rmin_of_le (x y : R) : x <= y -> Rmin x y = x.
Proof. intros H. unfold Rmin. destruct (Rle_dec x y); lra. Qed.

Lemma Rmax_of_le (x y : R) : x <= y -> Rmax x y = y.
Proof. intros H. unfold Rmax. destruct (Rle_dec x y); lra. Qed.

Lemma Rmin_of_ge (x y : R) : y <= x -> Rmin x y = y.
Proof. intros H. unfold Rmin. destruct (Rle_dec x y); lra. Qed.

Lemma Rmax_of_ge (x y : R) : y <= x -> Rmax x y = x.
Proof. intros H. unfold Rmax. destruct (Rle_dec x y); lra. Qed.

(** Decide the [Rmin] and [Rmax] of numerals, innermost first. *)
Ltac eval_extrema :=
  repeat match goal with
    | |- context [Rmin ?a ?b] =>
        first [ rewrite (Rmin_of_le a b) by lra | rewrite (Rmin_of_ge a b) by lra ]
    | |- context [Rmax ?a ?b] =>
        first [ rewrite (Rmax_of_le a b) by lra | rewrite (Rmax_of_ge a b) by lra ]
    end.

Lemma norm_3_fin (mn mx : R) (rs : list R) :
  mn <> mx ->
  norm_3 (Fin mn) (Fin mx) (map Fin rs)
  = Ok (map (fun x => Fin ((x - mn) / (mx - mn))) rs).
Proof.
  intros H. unfold norm_3. f_equal. rewrite map_map.
  apply map_ext. intros x. cbn [nsub]. apply ndiv_fin. lra.
Qed.

Lemma norm_4_fin (mx : R) (rs : list R) :
  rs <> [] -> mx <> 0 ->
  norm_4 (Fin mx) (map Fin rs)
  = Ok (map (fun x => Fin ((x - Rminimum rs) / mx)) rs).
Proof.
  intros Hne H. unfold norm_4. rewrite (amin_fin rs Hne). cbn [bind].
  f_equal. rewrite !map_map.
  apply map_ext. intros x. cbn [nsub]. now apply ndiv_fin.
Qed.

(** C5. Technique 3 is [(x - min_all) / (max_all - min_all)] and technique
    4 is [(x - min(x)) / max_all], element by element: in numpy's
    arithmetic on every input, and as quotients of real numbers on finite
    values when the divisor is not zero.  On the corpus of scenario A the
    loader finds the extrema 1 and 8, technique 3 of the first sample is
    [0, 1/7, 2/7, 3/7], which is [0, .143, .286, .429] to three decimals,
    and technique 4 of it is [0, .125, .25, .375]. *)
Theorem norm_3_norm_4_formula :
  (forall (mn mx : num) (data : list num),
      norm_3 mn mx data
      = Ok (map (fun v => ndiv (nsub v mn) (nsub mx mn)) data))
  /\
  (forall (mx : num) (data : list num),
      data <> [] ->
      exists m, amin data = Ok m /\
                norm_4 mx data = Ok (map (fun v => ndiv (nsub v m) mx) data))
  /\
  (forall (mn mx : R) (rs : list R),
      mn <> mx ->
      norm_3 (Fin mn) (Fin mx) (map Fin rs)
      = Ok (map (fun x => Fin ((x - mn) / (mx - mn))) rs))
  /\
  (forall (mx : R) (rs : list R),
      rs <> [] -> mx <> 0 ->
      norm_4 (Fin mx) (map Fin rs)
      = Ok (map (fun x => Fin ((x - Rminimum rs) / mx)) rs))
  /\
  (exists st,
      loader_loop scenario_getdata loader_init scenario_files = Ok st /\
      gal_star st = [ [Fin 0; Fin 1; Fin 2; Fin 3; Fin 4];
                      [Fin 1; Fin 5; Fin 6; Fin 7; Fin 8] ] /\
      amin (min_pixel st) = Ok (Fin 1) /\
      amax (max_pixel st) = Ok (Fin 8))
  /\
  norm_3 (Fin 1) (Fin 8) [Fin 1; Fin 2; Fin 3; Fin 4]
  = Ok [Fin 0; Fin (1 / 7); Fin (2 / 7); Fin (3 / 7)]
  /\
  norm_4 (Fin 8) [Fin 1; Fin 2; Fin 3; Fin 4]
  = Ok [Fin 0; Fin 0.125; Fin 0.25; Fin 0.375]
  /\
  (Rabs (1 / 7 - 0.143) < 0.0005 /\ Rabs (2 / 7 - 0.286) < 0.0005 /\
   Rabs (3 / 7 - 0.429) < 0.0005).
Proof.
  split; [reflexivity |].
  split.
  { intros mx data Hne. destruct (amin_total data Hne) as [m Hm].
    exists m. split; [exact Hm |].
    unfold norm_4. rewrite Hm. cbn [bind]. now rewrite map_map. }
  split; [exact norm_3_fin |].
  split; [exact norm_4_fin |].
  split.
  { eexists. split; [reflexivity |]. cbn.
    split; [reflexivity |].
    eval_extrema. split; reflexivity. }
  split.
  { change [Fin 1; Fin 2; Fin 3; Fin 4] with (map Fin [1; 2; 3; 4]).
    rewrite norm_3_fin by lra. cbn [map].
    repeat f_equal; lra. }
  split.
  { change [Fin 1; Fin 2; Fin 3; Fin 4] with (map Fin [1; 2; 3; 4]).
    rewrite norm_4_fin by (try discriminate; lra). cbn [map Rminimum fold_left].
    eval_extrema. repeat f_equal; lra. }
  repeat split; apply Rabs_def1; lra.
Qed.

Lemma norm_3_norm_4_formula_witness :
  norm_3 (Fin 1) (Fin 8) (map Fin [5; 6; 7; 8])
  = Ok (map (fun x => Fin ((x - 1) / (8 - 1))) [5; 6; 7; 8])
  /\
  norm_4 (Fin 8) (map Fin [5; 6; 7; 8])
  = Ok (map (fun x => Fin ((x - Rminimum [5; 6; 7; 8]) / 8)) [5; 6; 7; 8]).
Proof.
  split.
  - apply (proj1 (proj2 (proj2 norm_3_norm_4_formula)) 1 8 [5; 6; 7; 8]). lra.
  - apply (proj1 (proj2 (proj2 (proj2 norm_3_norm_4_formula))) 8 [5; 6; 7; 8]).
    + discriminate.
    + lra.
Defined.

Lemma map_log10_pos (rs : list R) :
  Forall (fun x => 0 < x) rs ->
  map log10 (map Fin rs) = map Fin (map lg rs).
Proof.
  induction 1 as [| x rs Hx _ IH]; cbn [map]; [reflexivity |].
  now rewrite IH, (log10_pos x Hx).
Qed.




(** ** Degenerate samples *)

Lemma log10_zero : log10 (Fin 0) = NInf.
Proof. simpl. now rewrite (Rsign_zero 0 eq_refl). Qed.

Lemma log10_one : log10 (Fin 1) = Fin 0.
Proof. rewrite log10_pos by lra. now rewrite lg_1. Qed.

Lemma log10_nonpos (x : R) : x <= 0 -> low (log10 (Fin x)).
Proof.
  intros [Hlt | Heq]; simpl.
  - right. now rewrite (Rsign_neg x Hlt).
  - left. now rewrite (Rsign_zero x Heq).
Qed.

Lemma minimum_low_l (a b : num) : low a -> low (minimum a b).
Proof. intros [-> | ->]; destruct b; simpl; unfold low; auto. Qed.

Lemma minimum_low_r (a b : num) : low b -> low (minimum a b).
Proof. intros [-> | ->]; destruct a; simpl; unfold low; auto. Qed.

Lemma fold_minimum_low_init (l : list num) (a : num) :
  low a -> low (fold_left minimum l a).
Proof.
  revert a. induction l as [| b l IH]; intros a Ha; simpl; [exact Ha |].
  apply IH. now apply minimum_low_l.
Qed.

Lemma fold_minimum_low_in (l : list num) (a v : num) :
  In v l -> low v -> low (fold_left minimum l a).
Proof.
  revert a. induction l as [| b l IH]; intros a Hin Hv; simpl; [contradiction |].
  destruct Hin as [-> | Hin].
  - apply fold_minimum_low_init. now apply minimum_low_r.
  - now apply IH.
Qed.

Lemma amin_low (data : list num) (v : num) :
  In v data -> low v -> exists m, amin data = Ok m /\ low m.
Proof.
  destruct data as [| a l]; [contradiction |].
  intros Hin Hv. simpl. eexists. split; [reflexivity |].
  destruct Hin as [-> | Hin].
  - now apply fold_minimum_low_init.
  - now apply (fold_minimum_low_in l a v).
Qed.

Lemma nsub_low_low (v m : num) : low v -> low m -> nsub v m = NaN.
Proof. intros [-> | ->] [-> | ->]; reflexivity. Qed.

(** The logarithm of a sample with a non-positive pixel: its least entry
    is [-inf] or [nan], and the difference at that pixel is [nan]. *)
Lemma log_stage_nan (data : list num) (i : nat) (x : R) :
  nth_error data i = Some (Fin x) -> x <= 0 ->
  exists m, amin (map log10 data) = Ok m /\
            nth_error (map (fun v => nsub v m) (map log10 data)) i = Some NaN.
Proof.
  intros Hi Hx.
  assert (Hl : low (log10 (Fin x))) by now apply log10_nonpos.
  assert (Hin : In (log10 (Fin x)) (map log10 data)).
  { apply in_map. now apply nth_error_In with i. }
  destruct (amin_low _ _ Hin Hl) as [m [Hm Hlow]].
  exists m. split; [exact Hm |].
  rewrite !nth_error_map, Hi. cbn [option_map].
  now rewrite (nsub_low_low _ _ Hl Hlow).
Qed.

Lemma norm_1_nonpositive (data : list num) (i : nat) (x : R) :
  nth_error data i = Some (Fin x) -> x <= 0 ->
  exists out, norm_1 data = Ok out /\
              List.length out = List.length data /\
              nth_error out i = Some NaN.
Proof.
  intros Hi Hx. destruct (log_stage_nan data i x Hi Hx) as [m [Hm Hn]].
  unfold norm_1. rewrite Hm. cbn [bind]. eexists.
  split; [reflexivity |]. split; [now rewrite !length_map | exact Hn].
Qed.

Lemma norm_5_nonpositive (mx : num) (data : list num) (i : nat) (x : R) :
  nth_error data i = Some (Fin x) -> x <= 0 ->
  exists out, norm_5 mx data = Ok out /\
              List.length out = List.length data /\
              nth_error out i = Some NaN.
Proof.
  intros Hi Hx. destruct (log_stage_nan data i x Hi Hx) as [m [Hm Hn]].
  unfold norm_5. rewrite Hm. cbn [bind]. eexists.
  split; [reflexivity |]. split; [now rewrite !length_map |].
  rewrite nth_error_map, Hn. cbn [option_map]. now rewrite ndiv_nan_l.
Qed.

Lemma norm_2_constant (c : R) (n : nat) :
  (0 < n)%nat -> norm_2 (repeat (Fin c) n) = Ok (repeat NaN n).
Proof.
  intros Hn.
  assert (Hne : repeat c n <> []) by (destruct n; [lia | discriminate]).
  assert (Hmin : Rminimum (repeat c n) = c).
  { apply (repeat_spec n c). now apply Rminimum_in. }
  assert (Hmax : Rmaximum (repeat c n) = c).
  { apply (repeat_spec n c). now apply Rmaximum_in. }
  rewrite <- (map_repeat c n Fin). unfold norm_2.
  rewrite (amin_fin _ Hne), (amax_fin _ Hne), Hmin, Hmax. cbn [bind].
  f_equal. rewrite map_map, <- (map_repeat c n (fun _ : R => NaN)).
  apply map_ext_in. intros x Hx. apply repeat_spec in Hx. subst x.
  cbn [nsub]. apply ndiv_zero_zero; lra.
Qed.

(** The technique loop keeps every row it is given. *)
Lemma apply_technique_rows (t : list num -> result (list num))
  (gs : table) :
  forall acc tbl,
    apply_technique t gs acc = Ok tbl ->
    exists rows, tbl = acc ++ rows /\
                 Forall2 (fun r r' => apply_row t r = Ok r') gs rows.
Proof.
  induction gs as [| r gs IH]; intros acc tbl H; simpl in H.
  - injection H as <-. exists []. split; [now rewrite app_nil_r | constructor].
  - destruct (apply_row t r) as [r' |] eqn:Hr; simpl in H; [| discriminate].
    destruct (IH _ _ H) as [rows [-> HF]].
    exists (r' :: rows). split; [now rewrite <- app_assoc | now constructor].
Qed.

Lemma apply_row_inv (t : list num -> result (list num)) (r r' : row) :
  apply_row t r = Ok r' ->
  exists out, t (skipn 1 r) = Ok out /\ r' = firstn 1 r ++ out.
Proof.
  unfold apply_row. destruct (t (skipn 1 r)) as [out |]; simpl; [| discriminate].
  intros H. injection H as <-. now exists out.
Qed.

Lemma run_techniques_one (k : nat) (t : list num -> result (list num))
  (gs : table) (fs : files) (tbl : table) :
  apply_technique t gs [] = Ok tbl ->
  run_techniques [(k, t)] gs fs
  = (write_file fs (norm_file_name k) (to_csv tbl), None).
Proof. intros H. simpl. now rewrite H. Qed.

(** C2, as the notebook behaves.  No technique raises on a degenerate
    sample: techniques 1 and 5 return a vector of the input's length with
    [nan] at every pixel that is not positive, technique 2 returns [nan]
    everywhere for a constant sample, and the technique loop writes each
    row it computed, as it is, to the technique's table. *)
Theorem degenerate_sample_not_rejected :
  (forall (data : list num) (i : nat) (x : R),
      nth_error data i = Some (Fin x) -> x <= 0 ->
      exists out, norm_1 data = Ok out /\
                  List.length out = List.length data /\
                  nth_error out i = Some NaN)
  /\
  (forall (mx : num) (data : list num) (i : nat) (x : R),
      nth_error data i = Some (Fin x) -> x <= 0 ->
      exists out, norm_5 mx data = Ok out /\
                  List.length out = List.length data /\
                  nth_error out i = Some NaN)
  /\
  (forall (c : R) (n : nat),
      (0 < n)%nat -> norm_2 (repeat (Fin c) n) = Ok (repeat NaN n))
  /\
  (forall (k : nat) (t : list num -> result (list num))
          (gal_star tbl : table) (fs : files),
      apply_technique t gal_star [] = Ok tbl ->
      Forall2 (fun r r' => exists out, t (skipn 1 r) = Ok out /\
                                       r' = firstn 1 r ++ out) gal_star tbl /\
      run_techniques [(k, t)] gal_star fs
      = (write_file fs (norm_file_name k) (to_csv tbl), None)).
Proof.
  split; [exact norm_1_nonpositive |].
  split; [exact norm_5_nonpositive |].
  split; [exact norm_2_constant |].
  intros k t gs tbl fs H. split; [| now apply run_techniques_one].
  destruct (apply_technique_rows t gs [] tbl H) as [rows [-> HF]].
  clear H. cbn [app]. revert HF. apply Forall2_impl.
  intros r r' Hr. now apply apply_row_inv.
Qed.

Lemma degenerate_sample_not_rejected_witness :
  (exists out, norm_1 [Fin 3; Fin 0] = Ok out /\
               List.length out = 2%nat /\ nth_error out 1 = Some NaN)
  /\
  (exists out, norm_5 (Fin 8) [Fin (-1); Fin 2] = Ok out /\
               List.length out = 2%nat /\ nth_error out 0 = Some NaN)
  /\
  norm_2 (repeat (Fin 5) 3) = Ok (repeat NaN 3).
Proof.
  split; [| split].
  - apply (proj1 degenerate_sample_not_rejected [Fin 3; Fin 0] 1%nat 0);
      [reflexivity | lra].
  - apply (proj1 (proj2 degenerate_sample_not_rejected)
             (Fin 8) [Fin (-1); Fin 2] 0%nat (-1)); [reflexivity | lra].
  - apply (proj1 (proj2 (proj2 degenerate_sample_not_rejected)) 5 3%nat). lia.
Defined.

(** C2, the claim refuted: technique 1 on the sample [0, 1] raises nothing
    and returns [nan, +inf], and the technique loop writes the row
    [0, nan, +inf] of the star with these pixels to [norm_1_image_data.csv]. *)
Lemma zero_pixel_row_is_written :
  norm_1 [Fin 0; Fin 1] = Ok [NaN; PInf] /\
  run_techniques [(0%nat, norm_1)] [[Fin 0; Fin 0; Fin 1]] []
  = ([("norm_1_image_data.csv"%string, [[Fin 0; NaN; PInf]])], None).
Proof.
  assert (H : norm_1 [Fin 0; Fin 1] = Ok [NaN; PInf]).
  { unfold norm_1. cbn [map]. rewrite log10_zero, log10_one. reflexivity. }
  split; [exact H |].
  cbn [run_techniques apply_technique]. unfold apply_row.
  cbn [skipn firstn]. rewrite H. reflexivity.
Qed.

(** ** Labels of the persisted rows *)

Lemma star_not_galaxy (file : string) :
  startswith file "star" = true -> startswith file "galaxy" = false.
Proof.
  unfold startswith. intros H.
  destruct file as [| c s]; cbn -[ascii_dec] in *; [discriminate |].
  destruct (ascii_dec "s" c) as [<- |]; [| discriminate].
  destruct (ascii_dec "g" "s"); [discriminate | reflexivity].
Qed.

(** What one iteration of the loader appends. *)
Lemma loader_step_inv (getdata : string -> list (list num))
  (st st' : loader_state) (file : string) :
  (forall id, obj_id st = Some id -> is_label id) ->
  loader_step getdata st file = Ok st' ->
  (forall id, obj_id st' = Some id -> is_label id) /\
  exists r, gal_star st' = gal_star st ++ [r] /\ labelled file r.
Proof.
  intros Hid. unfold loader_step.
  destruct (amin (flatten (getdata file))) as [mn |]; cbn [bind]; [| discriminate].
  destruct (amax (flatten (getdata file))) as [mx |]; cbn [bind]; [| discriminate].
  destruct (startswith file "galaxy") eqn:Hg.
  - intros H. injection H as <-. cbn. split.
    + intros id [= <-]. now right.
    + eexists. split; [reflexivity |].
      exists (Fin 1), (flatten (getdata file)).
      repeat split; try reflexivity; [now right |].
      intros Hs. apply star_not_galaxy in Hs. congruence.
  - destruct (startswith file "star") eqn:Hs.
    + intros H. injection H as <-. cbn. split.
      * intros id [= <-]. now left.
      * eexists. split; [reflexivity |].
        exists (Fin 0), (flatten (getdata file)).
        repeat split; try reflexivity; [now left | congruence].
    + destruct (obj_id st) as [id |] eqn:Hst; [| discriminate].
      intros H. injection H as <-. cbn. split.
      * intros id' [= <-]. now apply Hid.
      * eexists. split; [reflexivity |].
        exists id, (flatten (getdata file)).
        repeat split; try reflexivity; [now apply Hid | congruence..].
Qed.

Lemma loader_loop_inv (getdata : string -> list (list num))
  (cutout_files : list string) :
  forall st st',
    (forall id, obj_id st = Some id -> is_label id) ->
    loader_loop getdata st cutout_files = Ok st' ->
    exists rows, gal_star st' = gal_star st ++ rows /\
                 Forall2 labelled cutout_files rows.
Proof.
  induction cutout_files as [| file rest IH]; intros st st' Hid H; simpl in H.
  - injection H as <-. exists []. split; [now rewrite app_nil_r | constructor].
  - destruct (loader_step getdata st file) as [st1 |] eqn:Hstep;
      cbn [bind] in H; [| discriminate].
    destruct (loader_step_inv getdata st st1 file Hid Hstep) as [Hid1 [r [Hr Hl]]].
    destruct (IH st1 st' Hid1 H) as [rows [Hrows HF]].
    exists (r :: rows). split; [| now constructor].
    rewrite Hrows, Hr, <- app_assoc. reflexivity.
Qed.

Lemma loader_labels (getdata : string -> list (list num))
  (cutout_files : list string) (st : loader_state) :
  loader_loop getdata loader_init cutout_files = Ok st ->
  Forall2 labelled cutout_files (gal_star st).
Proof.
  intros H.
  destruct (loader_loop_inv getdata cutout_files loader_init st) as [rows [Hr HF]];
    [discriminate | exact H |].
  simpl in Hr. now rewrite Hr.
Qed.



Lemma in_write_file (fs : files) (name : string) (content : csv)
  (n : string) (c : csv) :
  In (n, c) (write_file fs name content) ->
  (n, c) = (name, content) \/ In (n, c) fs.
Proof.
  unfold write_file. intros [H | H]; [now left |].
  right. apply filter_In in H. tauto.
Qed.





Lemma star_not_gal (file : string) :
  startswith file "star" = true -> startswith file "gal" = false.
Proof.
  unfold startswith. intros H.
  destruct file as [| c s]; cbn -[ascii_dec] in *; [discriminate |].
  destruct (ascii_dec "s" c) as [<- |]; [| discriminate].
  destruct (ascii_dec "g" "s"); [discriminate | reflexivity].
Qed.




(** ** Reloading a persisted table *)

Lemma read_file_written (fs : files) (name : string) (content : csv) :
  read_file (write_file fs name content) name = Ok content.
Proof. unfold write_file. simpl. now rewrite String.eqb_refl. Qed.

(** C1, the code evaluated.  A table is written without a header line and
    read back with pandas' default, which takes the first line as the
    header: the reloaded frame has the rows of the table but the first, so
    one row less, and row [i] of it is row [i + 1] of the table.  For the
    raw table of scenario A, with the labels [0, 1], the reloaded labels
    are [1] and the only reloaded vector is the galaxy's. *)
Theorem reload_drops_first_row :
  (forall (fs : files) (name : string) (r0 : row) (rest : table),
      read_csv (write_file fs name (to_csv (r0 :: rest))) name
      = Ok {| columns := r0; values := rest |})
  /\
  (forall (fs : files) (name : string) (df : table),
      df <> [] ->
      exists data,
        read_csv (write_file fs name (to_csv df)) name = Ok data /\
        S (List.length (values data)) = List.length df /\
        forall i, nth_error (values data) i = nth_error df (S i))
  /\
  (exists data,
      read_csv
        (write_file [] "raw_image_data.csv"
           (to_csv [ [Fin 0; Fin 1; Fin 2; Fin 3; Fin 4];
                     [Fin 1; Fin 5; Fin 6; Fin 7; Fin 8] ]))
        "raw_image_data.csv" = Ok data /\
      truth_labels_of data = [Fin 1] /\
      image_data_of data = [[Fin 5; Fin 6; Fin 7; Fin 8]]).
Proof.
  assert (H : forall fs name r0 rest,
             read_csv (write_file fs name (to_csv (r0 :: rest))) name
             = Ok {| columns := r0; values := rest |}).
  { intros fs name r0 rest. unfold read_csv.
    now rewrite read_file_written. }
  split; [exact H |]. split.
  - intros fs name [| r0 rest] Hne; [congruence |].
    eexists. split; [apply H |]. split; reflexivity.
  - eexists. split; [apply H |]. split; reflexivity.
Qed.

Lemma reload_drops_first_row_witness :
  exists data,
    read_csv (write_file [] "t.csv" (to_csv [[Fin 0; Fin 7]; [Fin 1; Fin 9]]))
             "t.csv" = Ok data /\
    S (List.length (values data)) = 2%nat /\
    forall i, nth_error (values data) i
              = nth_error [[Fin 0; Fin 7]; [Fin 1; Fin 9]] (S i).
Proof.
  apply (proj1 (proj2 reload_drops_first_row) [] "t.csv"%string
           [[Fin 0; Fin 7]; [Fin 1; Fin 9]]).
  discriminate.
Defined.

(** ** Label encoding *)

Lemma num_eqb_fin (x y : R) : num_eqb (Fin x) (Fin y) = true <-> x = y.
Proof.
  simpl. destruct (Req_dec_T x y) as [H | H]; split; intros; congruence.
Qed.

Lemma num_eqb_fin_neq (x y : R) : x <> y -> num_eqb (Fin x) (Fin y) = false.
Proof.
  intros H. simpl. destruct (Req_dec_T x y); [contradiction | reflexivity].
Qed.

Lemma num_eqb_refl_fin (x : R) : num_eqb (Fin x) (Fin x) = true.
Proof. now apply num_eqb_fin. Qed.

Lemma onehot_fold (values : list num) :
  forall onehot,
    fold_left onehot_step values onehot
    = onehot ++ fold_left onehot_step values [].
Proof.
  induction values as [| v values IH]; intros onehot; simpl.
  - now rewrite app_nil_r.
  - rewrite IH, (IH (onehot_step [] v)), app_assoc. f_equal.
    unfold onehot_step.
    destruct (num_eqb v (Fin 0)); [reflexivity |].
    destruct (num_eqb v (Fin 1)); [reflexivity | now rewrite app_nil_r].
Qed.

Lemma generate_onehot_value_cons (v : num) (values : list num) :
  generate_onehot_value (v :: values)
  = onehot_step [] v ++ generate_onehot_value values.
Proof. unfold generate_onehot_value. simpl. apply onehot_fold. Qed.

Lemma generate_onehot_value_app (l1 l2 : list num) :
  generate_onehot_value (l1 ++ l2)
  = generate_onehot_value l1 ++ generate_onehot_value l2.
Proof.
  induction l1 as [| v l1 IH]; [reflexivity |].
  rewrite <- app_comm_cons, !generate_onehot_value_cons, IH.
  now rewrite app_assoc.
Qed.

Lemma onehot_step_zero : onehot_step [] (Fin 0) = [[Fin 1; Fin (-1)]].
Proof. unfold onehot_step. now rewrite num_eqb_refl_fin. Qed.

Lemma onehot_step_one : onehot_step [] (Fin 1) = [[Fin (-1); Fin 1]].
Proof.
  unfold onehot_step.
  rewrite (num_eqb_fin_neq 1 0) by lra. now rewrite num_eqb_refl_fin.
Qed.

Lemma onehot_labels (values : list num) :
  Forall is_label values ->
  List.length (generate_onehot_value values) = List.length values /\
  forall i,
    (nth_error values i = Some (Fin 0) ->
     nth_error (generate_onehot_value values) i = Some [Fin 1; Fin (-1)]) /\
    (nth_error values i = Some (Fin 1) ->
     nth_error (generate_onehot_value values) i = Some [Fin (-1); Fin 1]).
Proof.
  induction 1 as [| v values Hv _ [IHlen IHnth]].
  - split; [reflexivity |]. intros [| i]; split; discriminate.
  - rewrite generate_onehot_value_cons.
    destruct Hv as [-> | ->];
      [rewrite onehot_step_zero | rewrite onehot_step_one];
      (split; [simpl; now rewrite IHlen |]);
      intros [| i]; simpl; try apply IHnth;
      split; intros E; try reflexivity; exfalso; injection E as E; lra.
Qed.

(** C4, as the notebook behaves.  On labels that are all 0 or 1 the
    encoding has one pair per label, [1, -1] where the label is 0 and
    [-1, 1] where it is 1; a label that is neither is passed over, without
    an error, as if it were not in the list. *)
Theorem onehot_encoding :
  (forall values : list num,
      Forall is_label values ->
      List.length (generate_onehot_value values) = List.length values /\
      forall i,
        (nth_error values i = Some (Fin 0) ->
         nth_error (generate_onehot_value values) i = Some [Fin 1; Fin (-1)]) /\
        (nth_error values i = Some (Fin 1) ->
         nth_error (generate_onehot_value values) i = Some [Fin (-1); Fin 1]))
  /\
  (forall (before after : list num) (val : num),
      num_eqb val (Fin 0) = false ->
      num_eqb val (Fin 1) = false ->
      generate_onehot_value (before ++ val :: after)
      = generate_onehot_value (before ++ after)).
Proof.
  split; [exact onehot_labels |].
  intros before after val H0 H1.
  rewrite !generate_onehot_value_app, generate_onehot_value_cons.
  unfold onehot_step. now rewrite H0, H1.
Qed.

Lemma onehot_encoding_witness :
  (List.length (generate_onehot_value [Fin 0; Fin 1; Fin 1]) = 3%nat /\
   forall i,
     (nth_error [Fin 0; Fin 1; Fin 1] i = Some (Fin 0) ->
      nth_error (generate_onehot_value [Fin 0; Fin 1; Fin 1]) i
      = Some [Fin 1; Fin (-1)]) /\
     (nth_error [Fin 0; Fin 1; Fin 1] i = Some (Fin 1) ->
      nth_error (generate_onehot_value [Fin 0; Fin 1; Fin 1]) i
      = Some [Fin (-1); Fin 1]))
  /\
  generate_onehot_value ([Fin 0] ++ Fin 2 :: [Fin 1])
  = generate_onehot_value ([Fin 0] ++ [Fin 1]).
Proof.
  split.
  - apply (proj1 onehot_encoding [Fin 0; Fin 1; Fin 1]).
    repeat (apply Forall_cons; [first [now left | now right] |]).
    apply Forall_nil.
  - apply (proj2 onehot_encoding [Fin 0] [Fin 1] (Fin 2));
      apply num_eqb_fin_neq; lra.
Defined.

(** C4, the claim refuted: the label 2 raises nothing; the encoding of
    [2] is the empty list, and in [0, 2, 1] the pair of the last label
    takes the place of the missing one. *)
Lemma onehot_label_two_is_skipped :
  generate_onehot_value [Fin 2] = [] /\
  generate_onehot_value [Fin 0; Fin 2; Fin 1]
  = [[Fin 1; Fin (-1)]; [Fin (-1); Fin 1]].
Proof.
  assert (H2 : onehot_step [] (Fin 2) = []).
  { unfold onehot_step.
    now rewrite (num_eqb_fin_neq 2 0), (num_eqb_fin_neq 2 1) by lra. }
  split.
  - rewrite generate_onehot_value_cons, H2. reflexivity.
  - rewrite !generate_onehot_value_cons, onehot_step_zero, H2, onehot_step_one.
    reflexivity.
Qed.

(** ** The split *)

(** The float64 product of a ratio and a row count: finite, between the
    ratio and the count, and exact when the exact product is a float64. *)
Lemma float_of_int_exact (n : Z) :
  (Z.abs n < 2 ^ 53)%Z ->
  exists n' : Q, IEEE.float_of_int n = IEEE.Finite n' /\ (n' == inject_Z n)%Q.
Proof.
  intros Hn. unfold IEEE.float_of_int.
  assert (E : (IEEE.round_fin IEEE.binary64 (inject_Z n) == inject_Z n)%Q).
  { rewrite (round_fin_comp IEEE.binary64 _ (inject_Z n * IEEE.pow2 0)%Q)
      by (change (IEEE.pow2 0) with 1%Q; now rewrite Qmult_1_r).
    rewrite round_fin_representable; [| exact Hn | discriminate | reflexivity].
    change (IEEE.pow2 0) with 1%Q. apply Qmult_1_r. }
  exists (IEEE.round_fin IEEE.binary64 (inject_Z n)). split; [| exact E].
  apply round_finite. rewrite E.
  apply Qlt_trans with (inject_Z (2 ^ 53)); [| reflexivity].
  change (Qabs (inject_Z n)) with (inject_Z (Z.abs n)). now rewrite <- Zlt_Qlt.
Qed.

Lemma split_product (N : nat) (r : Q) :
  (1 <= N)%nat -> (Z.of_nat N < 2 ^ 53)%Z ->
  IEEE.representable IEEE.binary64 r -> (0 < r)%Q -> (r < 1)%Q ->
  exists product : Q,
    IEEE.mul IEEE.binary64 (IEEE.Finite r) (IEEE.float_of_int (Z.of_nat N))
    = IEEE.Finite product /\
    (r <= product)%Q /\ (product <= inject_Z (Z.of_nat N))%Q /\
    (IEEE.representable IEEE.binary64 (r * inject_Z (Z.of_nat N)) ->
     (product == r * inject_Z (Z.of_nat N))%Q).
Proof.
  intros HN Hb [Hr _] H0 H1.
  destruct (float_of_int_exact (Z.of_nat N)) as [n' [En Hn']]; [lia |].
  rewrite En. cbn [IEEE.mul].
  assert (Hn1 : (1 <= inject_Z (Z.of_nat N))%Q).
  { change 1%Q with (inject_Z 1). rewrite <- Zle_Qle. lia. }
  assert (Hp : (0 < IEEE.prec IEEE.binary64)%Z) by reflexivity.
  assert (Hlo : (r <= r * n')%Q).
  { rewrite Hn'. rewrite <- (Qmult_1_r r) at 1.
    apply Qmult_le_l; [exact H0 | exact Hn1]. }
  assert (Hhi : (r * n' <= inject_Z (Z.of_nat N))%Q).
  { rewrite Hn'. rewrite <- (Qmult_1_l (inject_Z (Z.of_nat N))) at 2.
    apply Qmult_le_compat_r; [Lqa.lra | Lqa.lra]. }
  pose proof (round_fin_mono IEEE.binary64 _ _ Hp Hlo) as M1.
  pose proof (round_fin_mono IEEE.binary64 _ _ Hp Hhi) as M2.
  rewrite Hr in M1.
  assert (EN : (IEEE.round_fin IEEE.binary64 (inject_Z (Z.of_nat N))
                == inject_Z (Z.of_nat N))%Q).
  { rewrite (round_fin_comp IEEE.binary64 _ (inject_Z (Z.of_nat N) * IEEE.pow2 0)%Q)
      by (change (IEEE.pow2 0) with 1%Q; now rewrite Qmult_1_r).
    rewrite round_fin_representable;
      [| change (Z.abs (Z.of_nat N) < 2 ^ 53)%Z; lia | discriminate | reflexivity].
    change (IEEE.pow2 0) with 1%Q. apply Qmult_1_r. }
  rewrite EN in M2.
  exists (IEEE.round_fin IEEE.binary64 (r * n')).
  split; [| split; [exact M1 | split; [exact M2 |]]].
  - apply round_finite. rewrite Qabs_pos by Lqa.lra.
    apply Qle_lt_trans with (inject_Z (Z.of_nat N)); [exact M2 |].
    apply Qlt_trans with (inject_Z (2 ^ 53)); [| reflexivity].
    now rewrite <- Zlt_Qlt.
  - intros [Hx _].
    rewrite (round_fin_comp IEEE.binary64 (r * n') (r * inject_Z (Z.of_nat N))%Q)
      by now rewrite Hn'.
    exact Hx.
Qed.

Lemma float64_representable (r : Q) :
  (float64 r < 1)%Q -> (0 < float64 r)%Q ->
  IEEE.representable IEEE.binary64 (float64 r).
Proof.
  intros H1 H0. split.
  - apply round_fin_idempotent. reflexivity.
  - rewrite Qabs_pos by Lqa.lra.
    apply Qlt_trans with 1%Q; [exact H1 | reflexivity].
Qed.

Lemma float64_finite (r : Q) :
  (0 < float64 r)%Q -> (float64 r < 1)%Q ->
  IEEE.round IEEE.binary64 r = IEEE.Finite (float64 r).
Proof.
  intros H0 H1. apply round_finite. fold (float64 r).
  rewrite Qabs_pos by Lqa.lra.
  apply Qlt_trans with 1%Q; [exact H1 | reflexivity].
Qed.

Lemma ceiling_bounds (N : nat) (r p : Q) :
  (0 < r)%Q -> (r <= p)%Q -> (p <= inject_Z (Z.of_nat N))%Q ->
  (1 <= Qceiling p <= Z.of_nat N)%Z.
Proof.
  intros H0 Hlo Hhi.
  pose proof (Qle_ceiling p) as Hc1.
  split.
  - assert (H : (0 < Qceiling p)%Z); [| lia].
    rewrite Zlt_Qlt. change (inject_Z 0) with 0%Q. Lqa.lra.
  - rewrite <- (Qceiling_Z (Z.of_nat N)). now apply Qceiling_resp_le.
Qed.

Lemma ratio_accepted (r : Q) :
  (0 < r)%Q -> (r < 1)%Q -> (Qle_bool r 0 || Qle_bool 1 r)%bool = false.
Proof.
  intros H0 H1.
  destruct (Qle_bool r 0) eqn:Ha; [apply Qle_bool_iff in Ha; Lqa.lra |].
  destruct (Qle_bool 1 r) eqn:Hb; [apply Qle_bool_iff in Hb; Lqa.lra |].
  reflexivity.
Qed.

Lemma safe_indexing_ok {A : Type} (a : list A) (indices : list nat) :
  (forall i, In i indices -> (i < List.length a)%nat) ->
  exists l, safe_indexing a indices = Ok l /\
            Forall2 (fun i x => nth_error a i = Some x) indices l.
Proof.
  induction indices as [| i rest IH]; intros H; simpl.
  - exists []. split; [reflexivity | constructor].
  - destruct (nth_error a i) as [x |] eqn:Hx.
    + destruct IH as [l [Hl HF]]; [intros j Hj; apply H; now right |].
      rewrite Hl. cbn [bind]. exists (x :: l). split; [reflexivity |].
      now constructor.
    + apply nth_error_None in Hx. specialize (H i (or_introl eq_refl)). lia.
Qed.

Lemma nodup_app_disjoint {A : Type} (l l' : list A) (i : A) :
  NoDup (l ++ l') -> In i l -> ~ In i l'.
Proof.
  induction l as [| x l IH]; intros Hnd Hi Hi'; [contradiction |].
  simpl in Hnd. inversion Hnd as [| ? ? Hx Hl]; subst.
  destruct Hi as [-> | Hi].
  - apply Hx, in_or_app. now right.
  - now apply IH.
Qed.

Section SplitFacts.

Variable permutation : Z -> nat -> list nat.
Hypothesis permutation_spec :
  forall seed n, Permutation (permutation seed n) (seq 0 n).

Variables (N n_test : nat) (seed : Z).
Hypothesis n_test_le : (n_test <= N)%nat.

Let train := fst (shuffle_split permutation N (N - n_test) n_test seed).
Let test := snd (shuffle_split permutation N (N - n_test) n_test seed).

Lemma permutation_length : List.length (permutation seed N) = N.
Proof.
  rewrite (Permutation_length (permutation_spec seed N)). apply length_seq.
Qed.

Lemma split_covers : test ++ train = permutation seed N.
Proof.
  unfold test, train, shuffle_split. cbn [fst snd].
  rewrite (firstn_all2 (n := (N - n_test)%nat));
    [apply firstn_skipn |].
  rewrite length_skipn, permutation_length. lia.
Qed.

Lemma split_sizes :
  List.length test = n_test /\ List.length train = (N - n_test)%nat.
Proof.
  pose proof split_covers as Hc.
  assert (Ht : List.length test = n_test).
  { unfold test, shuffle_split. cbn [snd].
    rewrite length_firstn, permutation_length. lia. }
  split; [exact Ht |].
  apply (f_equal (@List.length nat)) in Hc.
  rewrite length_app, permutation_length in Hc. lia.
Qed.

Lemma split_nodup : NoDup (test ++ train).
Proof.
  rewrite split_covers.
  apply (Permutation_NoDup (Permutation_sym (permutation_spec seed N))).
  apply seq_NoDup.
Qed.

Lemma split_disjoint : forall i, In i test -> ~ In i train.
Proof.
  intros i. apply nodup_app_disjoint, split_nodup.
Qed.

Lemma split_range : forall i, In i (test ++ train) <-> (i < N)%nat.
Proof.
  intros i. rewrite split_covers. split; intros H.
  - apply (Permutation_in _ (permutation_spec seed N)) in H.
    apply in_seq in H. lia.
  - apply (Permutation_in _ (Permutation_sym (permutation_spec seed N))).
    apply in_seq. lia.
Qed.

End SplitFacts.

(** C3, as scikit-learn splits.  For [N >= 1] rows (fewer than [2^53]),
    a ratio whose float64 lies strictly between 0 and 1, and any seed, the
    test size is the ceiling of the float64 product of the ratio and [N];
    the product lies between the ratio and [N], so the test size lies
    between 1 and [N], and it is the exact product when that is a float64.
    When the test size is [N] the split raises (the training set would be
    empty).  Otherwise the split succeeds: test and training indices are
    disjoint, without repetition, together all of [0..N-1], of sizes the
    test size and the remainder, and the rows returned are the rows at
    these indices. *)
Theorem split_partitions_indices :
  forall (permutation : Z -> nat -> list nat),
    (forall seed n, Permutation (permutation seed n) (seq 0 n)) ->
    forall (N : nat) (r : Q) (seed : Z),
      (1 <= N)%nat -> (Z.of_nat N < 2 ^ 53)%Z ->
      (0 < float64 r)%Q -> (float64 r < 1)%Q ->
      exists (product : Q) (n_test : nat),
        IEEE.mul IEEE.binary64 (IEEE.Finite (float64 r))
                 (IEEE.float_of_int (Z.of_nat N))
        = IEEE.Finite product /\
        (IEEE.representable IEEE.binary64 (float64 r * inject_Z (Z.of_nat N)) ->
         (product == float64 r * inject_Z (Z.of_nat N))%Q) /\
        n_test = Z.to_nat (Qceiling product) /\
        (1 <= n_test <= N)%nat /\
        (n_test = N -> validate_shuffle_split N r = Raise ValueError) /\
        ((n_test < N)%nat ->
         validate_shuffle_split N r = Ok ((N - n_test)%nat, n_test) /\
         exists train test : list nat,
           shuffle_split permutation N (N - n_test) n_test seed = (train, test) /\
           List.length test = n_test /\
           List.length train = (N - n_test)%nat /\
           NoDup (test ++ train) /\
           (forall i, In i test -> ~ In i train) /\
           (forall i, In i (test ++ train) <-> (i < N)%nat) /\
           forall (X : table) (y : list num),
             List.length X = N -> List.length y = N ->
             exists X_train X_test y_train y_test,
               train_test_split permutation X y r seed
               = Ok (X_train, X_test, y_train, y_test) /\
               Forall2 (fun i x => nth_error X i = Some x) train X_train /\
               Forall2 (fun i x => nth_error X i = Some x) test X_test /\
               Forall2 (fun i v => nth_error y i = Some v) train y_train /\
               Forall2 (fun i v => nth_error y i = Some v) test y_test).
Proof.
  intros permutation Hperm N r seed HN Hb H0 H1.
  pose proof (float64_representable r H1 H0) as Hrep.
  pose proof (float64_finite r H0 H1) as Hfl.
  destruct (split_product N (float64 r) HN Hb Hrep H0 H1)
    as [product [Ep [Hlo [Hhi Hex]]]].
  pose proof (ceiling_bounds N (float64 r) product H0 Hlo Hhi) as Hc.
  set (n_test := Z.to_nat (Qceiling product)) in *.
  assert (Hn : (1 <= n_test <= N)%nat) by (unfold n_test; lia).
  exists product, n_test.
  split; [exact Ep |]. split; [exact Hex |].
  split; [reflexivity |]. split; [exact Hn |].
  assert (Hv : validate_shuffle_split N r
               = if ((N - n_test)%nat =? 0)%nat then Raise ValueError
                 else Ok ((N - n_test)%nat, n_test)).
  { unfold validate_shuffle_split.
    now rewrite Hfl, (ratio_accepted (float64 r) H0 H1), Ep. }
  split.
  - intros E. rewrite Hv, E, Nat.sub_diag. reflexivity.
  - intros Hlt.
    assert (Hvalid : validate_shuffle_split N r = Ok ((N - n_test)%nat, n_test)).
    { rewrite Hv. destruct (Nat.eqb_spec (N - n_test) 0); [lia | reflexivity]. }
    split; [exact Hvalid |].
    assert (Hle : (n_test <= N)%nat) by lia.
    destruct (shuffle_split permutation N (N - n_test) n_test seed)
      as [train test] eqn:Hs.
    pose proof (split_sizes permutation Hperm N n_test seed Hle) as [Hl1 Hl2].
    pose proof (split_nodup permutation Hperm N n_test seed Hle) as Hnd.
    pose proof (split_disjoint permutation Hperm N n_test seed Hle) as Hdj.
    pose proof (split_range permutation Hperm N n_test seed Hle) as Hrg.
    rewrite Hs in Hl1, Hl2, Hnd, Hdj, Hrg. cbn [fst snd] in *.
    exists train, test. repeat (split; [assumption || reflexivity |]).
    intros X y HX Hy.
    assert (Htr : forall i, In i train -> (i < N)%nat).
    { intros i Hi. apply Hrg, in_or_app. now right. }
    assert (Hte : forall i, In i test -> (i < N)%nat).
    { intros i Hi. apply Hrg, in_or_app. now left. }
    destruct (safe_indexing_ok X train) as [X_train [E1 F1]];
      [now rewrite HX |].
    destruct (safe_indexing_ok X test) as [X_test [E2 F2]];
      [now rewrite HX |].
    destruct (safe_indexing_ok y train) as [y_train [E3 F3]];
      [now rewrite Hy |].
    destruct (safe_indexing_ok y test) as [y_test [E4 F4]];
      [now rewrite Hy |].
    exists X_train, X_test, y_train, y_test.
    split; [| now repeat split].
    unfold train_test_split.
    rewrite Hy, HX, Nat.eqb_refl. cbn [negb].
    rewrite Hvalid. cbn [bind]. rewrite Hs, E1, E2, E3, E4. reflexivity.
Qed.

Lemma identity_permutation_spec (seed : Z) (n : nat) :
  Permutation (identity_permutation seed n) (seq 0 n).
Proof. apply Permutation_refl. Qed.

Lemma split_partitions_indices_witness :
  exists train test : list nat,
    shuffle_split identity_permutation 10 5 5 42 = (train, test) /\
    List.length test = 5%nat /\
    List.length train = 5%nat /\
    NoDup (test ++ train) /\
    (forall i, In i (test ++ train) <-> (i < 10)%nat).
Proof.
  destruct (split_partitions_indices identity_permutation
              identity_permutation_spec 10 (1 # 2) 42)
    as [product [n_test [Ep [_ [Hn [_ [_ H]]]]]]].
  - lia.
  - reflexivity.
  - reflexivity.
  - reflexivity.
  - assert (E : n_test = 5%nat).
    { rewrite Hn. vm_compute in Ep. injection Ep as <-. reflexivity. }
    subst n_test. rewrite E in H. clear E.
    destruct H as [_ [train [test [Hs [H1 [H2 [H3 [_ [H4 _]]]]]]]]]; [lia |].
    exists train, test. repeat split; try assumption; now apply H4.
Defined.

(** C3, the claim refuted: of 10 rows at the ratio [0.33] the split takes
    4 for the test set, the ceiling of the product 3.3000000000000003,
    where the nearest integer is 3; and a single row cannot be split at
    ratio 0.5, the call raises.  The product is the rounded one: of 100
    rows at the ratio [0.07] the split takes 8, the float64 product being
    7.000000000000001, where the product of the decimals is 7. *)
Lemma split_test_size_is_ceiling :
  validate_shuffle_split 10 (33 # 100) = Ok (6%nat, 4%nat) /\
  List.length (snd (shuffle_split identity_permutation 10 6 4 42)) = 4%nat /\
  round_nearest (float64 (33 # 100) * inject_Z 10) = 3%Z /\
  round_nearest ((33 # 100) * inject_Z 10) = 3%Z /\
  validate_shuffle_split 1 (1 # 2) = Raise ValueError /\
  validate_shuffle_split 100 (7 # 100) = Ok (92%nat, 8%nat) /\
  Qceiling (float64 (7 # 100) * inject_Z 100) = 8%Z /\
  Qceiling ((7 # 100) * inject_Z 100) = 7%Z.
Proof. repeat apply conj; vm_compute; reflexivity. Qed.

(** ** The evaluation sweep *)

Lemma Forall2_seq_shift {A : Type} (P : nat -> A -> Prop) (n : nat) (l : list A) :
  Forall2 (fun k a => P (S k) a) (seq 0 n) l -> Forall2 P (seq 1 n) l.
Proof.
  rewrite <- seq_shift. generalize (seq 0 n). intros s H.
  induction H; simpl; constructor; assumption.
Qed.

Lemma Forall2_seq_nth {A : Type} (P : nat -> A -> Prop) (n : nat) (l : list A) :
  Forall2 P (seq 0 n) l -> forall k, (k < n)%nat -> exists a, P k a.
Proof.
  intros H k Hk.
  assert (Hin : In k (seq 0 n)) by (apply in_seq; lia).
  clear Hk. induction H as [| x a s l' Hxa _ IH]; [contradiction |].
  destruct Hin as [-> | Hin]; [now exists a | now apply IH].
Qed.

Section SweepFacts.

Variable legacy_numpy : bool.
Variable permutation : Z -> nat -> list nat.
Variable do_classify :
  table -> table -> list (list num) -> nat -> bool -> result (list (list num)).
Variable randint : nat -> Z.
Variable test_size_values : list Q.
Variable num_runs : nat.

Local Abbreviation run := (run_classifier legacy_numpy permutation do_classify).
Local Abbreviation trial :=
  (trial_body legacy_numpy permutation do_classify randint).
Local Abbreviation ratio :=
  (ratio_body legacy_numpy permutation do_classify randint num_runs).
Local Abbreviation dataset :=
  (dataset_body legacy_numpy permutation do_classify randint
     test_size_values num_runs).

(** The trials of one (table, ratio) cell: the loop runs them in order
    until one raises. *)
Lemma trials_loop (X : table) (y : list num) (ts : Q) (l : list nat) :
  forall st st' r,
    for_each (trial X y ts) l st = (st', r) ->
    accuracies st' = accuracies st /\
    all_acc_dataset st' = all_acc_dataset st /\
    displayed st' = displayed st /\
    exists (k : nat) (accs : list num),
      acc st' = acc st ++ accs /\
      Forall2 (fun k' a => run X y ts (randint (draws st + k')) = Ok a)
              (seq 0 k) accs /\
      pbar st' = (pbar st + k)%nat /\
      match r with
      | None => k = List.length l /\ draws st' = (draws st + k)%nat
      | Some e =>
          (k < List.length l)%nat /\ draws st' = (draws st + S k)%nat /\
          run X y ts (randint (draws st + k)) = Raise e
      end.
Proof.
  induction l as [| idx l IH]; intros st st' r H; simpl in H.
  - injection H as <- <-. repeat split.
    exists 0%nat, []. rewrite app_nil_r.
    repeat split; first [lia | constructor].
  - unfold trial_body in H at 1.
    destruct (run X y ts (randint (draws st))) as [a | e] eqn:Hrun.
    + apply IH in H. clear IH.
      cbn [accuracies all_acc_dataset displayed pbar draws acc
             pbar_update set_acc draw] in H.
      destruct H as [Ha [Hd [Hs [k [accs [Hacc [HF [Hp Hr]]]]]]]].
      repeat (split; [assumption |]).
      exists (S k), (a :: accs).
      split; [now rewrite Hacc, <- app_assoc |].
      split.
      { cbn [seq]. constructor; [now rewrite Nat.add_0_r |].
        apply Forall2_seq_shift.
        refine (Forall2_impl _ _ HF). intros k' a' Hk'.
        now rewrite Nat.add_succ_r. }
      split; [lia |].
      destruct r as [e |].
      * destruct Hr as [Hk [Hdr Hrun']]. simpl.
        repeat split; try lia.
        now rewrite Nat.add_succ_r.
      * destruct Hr as [Hk Hdr]. simpl. split; lia.
    + injection H as <- <-. cbn. repeat split.
      exists 0%nat, []. rewrite app_nil_r, !Nat.add_0_r.
      repeat split; first [lia | exact Hrun | constructor].
Qed.

(** The ratios of one table. *)
Lemma ratios_loop (X : table) (y : list num) (tsv : list Q) :
  forall st st' r,
    for_each (ratio X y) tsv st = (st', r) ->
    accuracies st' = accuracies st /\
    displayed st' = displayed st /\
    exists j : nat,
      List.length (all_acc_dataset st')
      = (List.length (all_acc_dataset st) + j)%nat /\
      (forall j' k' ts',
          (j' < j)%nat -> (k' < num_runs)%nat -> nth_error tsv j' = Some ts' ->
          exists a,
            run X y ts' (randint (draws st + j' * num_runs + k')) = Ok a) /\
      match r with
      | None =>
          j = List.length tsv /\
          pbar st' = (pbar st + j * num_runs)%nat /\
          draws st' = (draws st + j * num_runs)%nat
      | Some e =>
          exists k ts,
            nth_error tsv j = Some ts /\ (k < num_runs)%nat /\
            pbar st' = (pbar st + j * num_runs + k)%nat /\
            draws st' = (draws st + j * num_runs + S k)%nat /\
            Forall2 (fun k' a =>
                       run X y ts (randint (draws st + j * num_runs + k')) = Ok a)
                    (seq 0 k) (acc st') /\
            run X y ts (randint (draws st + j * num_runs + k)) = Raise e
      end.
Proof.
  induction tsv as [| ts tsv IH]; intros st st' r H; simpl in H.
  - injection H as <- <-. repeat split.
    exists 0%nat. repeat split; lia.
  - unfold ratio_body in H at 1.
    destruct (for_each (trial X y ts) (seq 1 num_runs) (set_acc st []))
      as [st1 r1] eqn:Ht.
    apply trials_loop in Ht. rewrite length_seq in Ht.
    cbn [accuracies all_acc_dataset displayed pbar draws acc set_acc app] in Ht.
    destruct Ht as [Ha [Hd [Hs [k [accs [Hacc [HF [Hp Ht]]]]]]]].
    destruct r1 as [e |].
    + injection H as <- <-. destruct Ht as [Hk [Hdr Hrun]]. clear IH.
      repeat (split; [assumption |]).
      exists 0%nat. split; [rewrite Hd; lia |].
      split; [intros j' k' ts' Hj; lia |].
      exists k, ts. cbn [nth_error Nat.mul]. rewrite !Nat.add_0_r.
      rewrite Hacc. repeat split; try assumption; lia.
    + destruct Ht as [-> Hdr].
      apply IH in H. clear IH.
      cbn [accuracies all_acc_dataset displayed pbar draws acc
             set_all_acc_dataset] in H.
      destruct H as [Ha' [Hs' [j [Hl [Hbefore H]]]]].
      split; [congruence |]. split; [congruence |].
      exists (S j). rewrite length_app in Hl. cbn [List.length] in Hl.
      split; [rewrite Hl, Hd; lia |].
      split.
      { intros j' k' ts' Hj Hk Hn. destruct j' as [| j'].
        - cbn [nth_error] in Hn. injection Hn as <-.
          cbn [Nat.mul]. rewrite Nat.add_0_r.
          exact (Forall2_seq_nth _ _ _ HF k' Hk).
        - cbn [nth_error] in Hn.
          destruct (Hbefore j' k' ts' ltac:(lia) Hk Hn) as [a Ha0].
          exists a. rewrite <- Ha0. do 2 f_equal. rewrite Hdr. simpl. lia. }
      destruct r as [e |].
      * destruct H as [k [ts' [Hn [Hk [Hp' [Hdr' [HF' Hrun]]]]]]].
        exists k, ts'. cbn [nth_error].
        assert (E : forall m, (draws st + S j * num_runs + m
                               = draws st1 + j * num_runs + m)%nat)
          by (intros m; rewrite Hdr; simpl; lia).
        repeat split; try assumption.
        -- rewrite Hp', Hp. simpl. lia.
        -- rewrite Hdr', Hdr. simpl. lia.
        -- refine (Forall2_impl _ _ HF'). intros k' a Hk'. now rewrite E.
        -- now rewrite E.
      * destruct H as [-> [Hp' Hdr']]. simpl.
        repeat split; [rewrite Hp', Hp | rewrite Hdr', Hdr]; lia.
Qed.

(** The tables of the sweep. *)
Lemma datasets_loop (dfs : list (DataFrame * string)) :
  forall st st' r,
    for_each dataset dfs st = (st', r) ->
    displayed st' = displayed st /\
    exists i : nat,
      List.length (accuracies st') = (List.length (accuracies st) + i)%nat /\
      (forall i' j' k' d' ts',
          (i' < i)%nat -> nth_error dfs i' = Some d' ->
          nth_error test_size_values j' = Some ts' -> (k' < num_runs)%nat ->
          exists a,
            run (image_data_of (fst d')) (truth_labels_of (fst d')) ts'
                (randint (draws st
                          + i' * (List.length test_size_values * num_runs)
                          + j' * num_runs + k')) = Ok a) /\
      match r with
      | None =>
          i = List.length dfs /\
          pbar st'
          = (pbar st + i * (List.length test_size_values * num_runs))%nat /\
          draws st'
          = (draws st + i * (List.length test_size_values * num_runs))%nat
      | Some e =>
          exists j k d ts,
            nth_error dfs i = Some d /\
            nth_error test_size_values j = Some ts /\
            (k < num_runs)%nat /\
            (forall j' k' ts',
                (j' < j)%nat -> (k' < num_runs)%nat ->
                nth_error test_size_values j' = Some ts' ->
                exists a,
                  run (image_data_of (fst d)) (truth_labels_of (fst d)) ts'
                      (randint (draws st
                                + i * (List.length test_size_values * num_runs)
                                + j' * num_runs + k')) = Ok a) /\
            pbar st'
            = (pbar st + i * (List.length test_size_values * num_runs)
               + j * num_runs + k)%nat /\
            draws st'
            = (draws st + i * (List.length test_size_values * num_runs)
               + j * num_runs + S k)%nat /\
            List.length (all_acc_dataset st') = j /\
            Forall2 (fun k' a =>
                       run (image_data_of (fst d)) (truth_labels_of (fst d)) ts
                           (randint (draws st
                                     + i * (List.length test_size_values * num_runs)
                                     + j * num_runs + k')) = Ok a)
                    (seq 0 k) (acc st') /\
            run (image_data_of (fst d)) (truth_labels_of (fst d)) ts
                (randint (draws st + i * (List.length test_size_values * num_runs)
                          + j * num_runs + k))
            = Raise e
      end.
Proof.
  induction dfs as [| [data data_label] dfs IH]; intros st st' r H; simpl in H.
  - injection H as <- <-. split; [reflexivity |].
    exists 0%nat. repeat split; simpl; lia.
  - destruct (for_each (ratio (image_data_of data) (truth_labels_of data))
                test_size_values (set_all_acc_dataset st []))
      as [st1 r1] eqn:Hr.
    apply ratios_loop in Hr.
    cbn [accuracies all_acc_dataset displayed pbar draws acc
           set_all_acc_dataset List.length] in Hr.
    destruct Hr as [Ha [Hs [j [Hl [Hbefore Hr]]]]].
    destruct r1 as [e |].
    + injection H as <- <-. split; [assumption |]. clear IH.
      destruct Hr as [k [ts [Hn [Hk [Hp [Hdr [HF Hrun]]]]]]].
      exists 0%nat. split; [rewrite Ha; lia |].
      split; [intros i' j' k' d' ts' Hi; lia |].
      exists j, k, (data, data_label), ts.
      cbn [nth_error Nat.mul fst]. rewrite !Nat.add_0_r.
      repeat split; try assumption; lia.
    + destruct Hr as [-> [Hp Hdr]].
      apply IH in H. clear IH.
      cbn [accuracies all_acc_dataset displayed pbar draws acc
             set_accuracies] in H.
      destruct H as [Hs' [i [Hlen [Hbefore' H]]]].
      split; [congruence |].
      exists (S i). rewrite length_app in Hlen. cbn [List.length] in Hlen.
      split; [rewrite Hlen, Ha; lia |].
      split.
      { intros i' j' k' d' ts' Hi Hd' Hts Hk. destruct i' as [| i'].
        - cbn [nth_error] in Hd'. injection Hd' as <-.
          cbn [Nat.mul fst]. rewrite Nat.add_0_r.
          apply (Hbefore j' k' ts'); try assumption.
          apply nth_error_Some. congruence.
        - cbn [nth_error] in Hd'.
          destruct (Hbefore' i' j' k' d' ts' ltac:(lia) Hd' Hts Hk) as [a Ha0].
          exists a. rewrite <- Ha0. do 2 f_equal. rewrite Hdr. simpl. lia. }
      destruct r as [e |].
      * destruct H as (j & k & d & ts & Hd & Hn & Hk & Hbef & Hp' & Hdr' & Hj & HF & Hrun).
        exists j, k, d, ts. cbn [nth_error].
        repeat split; try assumption.
        -- intros j' k' ts' Hj' Hk' Hts.
           destruct (Hbef j' k' ts' Hj' Hk' Hts) as [a Ha0].
           exists a. rewrite <- Ha0. do 2 f_equal. rewrite Hdr. simpl. lia.
        -- rewrite Hp', Hp. simpl. lia.
        -- rewrite Hdr', Hdr. simpl. lia.
        -- refine (Forall2_impl _ _ HF). intros k' a Hk'. rewrite <- Hk'.
           do 2 f_equal. rewrite Hdr. simpl. lia.
        -- rewrite <- Hrun. do 2 f_equal. rewrite Hdr. simpl. lia.
      * destruct H as [-> [Hp' Hdr']]. simpl.
        repeat split; [rewrite Hp', Hp | rewrite Hdr', Hdr]; lia.
Qed.

(** The averages of the ratios that were completed. *)
Lemma ratios_values (X : table) (y : list num) (tsv : list Q) :
  forall st st' r,
    for_each (ratio X y) tsv st = (st', r) ->
    exists avgs : list num,
      all_acc_dataset st' = all_acc_dataset st ++ avgs /\
      Forall2 (fun j' avg =>
                 exists ts',
                   nth_error tsv j' = Some ts' /\
                   cell_average
                     (fun k' => run X y ts'
                                  (randint (draws st + j' * num_runs + k')))
                     num_runs avg)
              (seq 0 (List.length avgs)) avgs.
Proof.
  induction tsv as [| ts tsv IH]; intros st st' r H; simpl in H.
  - injection H as <- <-. exists []. rewrite app_nil_r.
    split; [reflexivity | constructor].
  - unfold ratio_body in H at 1.
    destruct (for_each (trial X y ts) (seq 1 num_runs) (set_acc st []))
      as [st1 r1] eqn:Ht.
    apply trials_loop in Ht. rewrite length_seq in Ht.
    cbn [accuracies all_acc_dataset displayed pbar draws acc set_acc app] in Ht.
    destruct Ht as [Ha [Hd [Hs [k [accs [Hacc [HF [Hp Ht]]]]]]]].
    destruct r1 as [e |].
    + injection H as <- <-. exists []. rewrite app_nil_r.
      split; [exact Hd | constructor].
    + destruct Ht as [-> Hdr].
      apply IH in H. clear IH.
      cbn [accuracies all_acc_dataset displayed pbar draws acc
             set_all_acc_dataset] in H.
      destruct H as [avgs [Hall HF']].
      exists (average (acc st1) :: avgs).
      split; [now rewrite Hall, Hd, <- app_assoc |].
      cbn [List.length seq]. constructor.
      * exists ts. split; [reflexivity |].
        exists accs. split; [| now rewrite Hacc].
        refine (Forall2_impl _ _ HF). intros k' a Hk'.
        cbn [Nat.mul]. now rewrite Nat.add_0_r.
      * apply Forall2_seq_shift.
        refine (Forall2_impl _ _ HF'). intros j' avg [ts' [Hn [accs' [HF1 Havg]]]].
        exists ts'. split; [exact Hn |].
        exists accs'. split; [| exact Havg].
        refine (Forall2_impl _ _ HF1). intros k' a Hk'.
        rewrite <- Hk'. do 2 f_equal. rewrite Hdr. simpl. lia.
Qed.

(** The columns of the tables that were completed, and the averages of the
    table that was not. *)
Lemma datasets_values (dfs : list (DataFrame * string)) :
  forall st st' r,
    for_each dataset dfs st = (st', r) ->
    exists cols : list (string * list num),
      accuracies st' = accuracies st ++ cols /\
      Forall2 (fun i' col =>
                 exists d',
                   nth_error dfs i' = Some d' /\ fst col = snd d' /\
                   Forall2 (fun j' avg =>
                              exists ts',
                                nth_error test_size_values j' = Some ts' /\
                                cell_average
                                  (fun k' =>
                                     run (image_data_of (fst d'))
                                         (truth_labels_of (fst d')) ts'
                                         (randint
                                            (draws st
                                             + i' * (List.length test_size_values
                                                     * num_runs)
                                             + j' * num_runs + k')))
                                  num_runs avg)
                           (seq 0 (List.length test_size_values)) (snd col))
              (seq 0 (List.length cols)) cols /\
      (r <> None ->
       exists d,
         nth_error dfs (List.length cols) = Some d /\
         Forall2 (fun j' avg =>
                    exists ts',
                      nth_error test_size_values j' = Some ts' /\
                      cell_average
                        (fun k' =>
                           run (image_data_of (fst d)) (truth_labels_of (fst d))
                               ts'
                               (randint
                                  (draws st
                                   + List.length cols
                                     * (List.length test_size_values * num_runs)
                                   + j' * num_runs + k')))
                        num_runs avg)
                 (seq 0 (List.length (all_acc_dataset st')))
                 (all_acc_dataset st')).
Proof.
  induction dfs as [| [data data_label] dfs IH]; intros st st' r H; simpl in H.
  - injection H as <- <-. exists []. rewrite app_nil_r.
    split; [reflexivity |]. split; [constructor | congruence].
  - destruct (for_each (ratio (image_data_of data) (truth_labels_of data))
                test_size_values (set_all_acc_dataset st []))
      as [st1 r1] eqn:Hr.
    pose proof (ratios_values _ _ _ _ _ _ Hr) as Hv.
    apply ratios_loop in Hr.
    cbn [accuracies all_acc_dataset displayed pbar draws acc
           set_all_acc_dataset List.length app] in Hr, Hv.
    destruct Hr as [Ha [Hs [j [Hl [_ Hr]]]]].
    destruct Hv as [avgs [Hall HFv]].
    destruct r1 as [e |].
    + injection H as <- <-. clear IH. exists []. rewrite app_nil_r.
      split; [exact Ha |]. split; [constructor |].
      intros _. exists (data, data_label). split; [reflexivity |].
      rewrite Hall. cbn [List.length fst Nat.mul].
      refine (Forall2_impl _ _ HFv). intros j' avg [ts' [Hn [accs [HF1 Havg]]]].
      exists ts'. split; [exact Hn |]. exists accs. split; [| exact Havg].
      refine (Forall2_impl _ _ HF1). intros k' a Hk'.
      now rewrite Nat.add_0_r.
    + destruct Hr as [-> [Hp Hdr]].
      apply IH in H. clear IH.
      cbn [accuracies all_acc_dataset displayed pbar draws acc
             set_accuracies] in H.
      destruct H as [cols [Hacc [HF Hfail]]].
      exists ((data_label, all_acc_dataset st1) :: cols).
      split; [now rewrite Hacc, Ha, <- app_assoc |].
      split.
      * cbn [List.length seq]. constructor.
        -- exists (data, data_label). split; [reflexivity |].
           split; [reflexivity |]. cbn [snd fst].
           assert (El : List.length avgs = List.length test_size_values)
             by (rewrite Hall in Hl; exact Hl).
           rewrite Hall, <- El.
           refine (Forall2_impl _ _ HFv). intros j' avg [ts' [Hn [accs [HF1 Havg]]]].
           exists ts'. split; [exact Hn |]. exists accs. split; [| exact Havg].
           refine (Forall2_impl _ _ HF1). intros k' a Hk'.
           cbn [Nat.mul]. now rewrite Nat.add_0_r.
        -- apply Forall2_seq_shift.
           refine (Forall2_impl _ _ HF).
           intros i' col [d' [Hd' [Hlab HFc]]].
           exists d'. split; [exact Hd' |]. split; [exact Hlab |].
           refine (Forall2_impl _ _ HFc).
           intros j' avg [ts' [Hn [accs [HF1 Havg]]]].
           exists ts'. split; [exact Hn |]. exists accs. split; [| exact Havg].
           refine (Forall2_impl _ _ HF1). intros k' a Hk'.
           rewrite <- Hk'. do 2 f_equal. rewrite Hdr. simpl. lia.
      * intros Hr'. destruct (Hfail Hr') as [d [Hd HFd]].
        exists d. split; [exact Hd |]. cbn [List.length].
        refine (Forall2_impl _ _ HFd).
        intros j' avg [ts' [Hn [accs [HF1 Havg]]]].
        exists ts'. split; [exact Hn |]. exists accs. split; [| exact Havg].
        refine (Forall2_impl _ _ HF1). intros k' a Hk'.
        rewrite <- Hk'. do 2 f_equal. rewrite Hdr. simpl. lia.
Qed.

End SweepFacts.

Lemma trial_index_bound (D T n i j k : nat) :
  (i < D)%nat -> (j < T)%nat -> (k < n)%nat ->
  (i * (T * n) + j * n + k < D * (T * n))%nat.
Proof.
  intros Hi Hj Hk.
  assert (H1 : (j * n + k < T * n)%nat) by nia.
  assert (H2 : (i * (T * n) + T * n <= D * (T * n))%nat) by nia.
  lia.
Qed.

Lemma nth_error_lt {A : Type} (l : list A) (i : nat) :
  (i < List.length l)%nat -> exists x, nth_error l i = Some x.
Proof.
  intros H. destruct (nth_error l i) as [x |] eqn:E; [now exists x |].
  apply nth_error_None in E. lia.
Qed.

(** C6, as the notebook behaves.  The sweep cell has no handler, so a
    failure of [run_classifier] in one trial ends the whole sweep.  Let
    the trial of table [i], ratio [j] and run [k] be the first that
    raises, with exception [e].  Then the cell ends with [e]: that trial
    is the last that was started (draws = completed trials + 1), no later
    trial runs, nothing is recorded for the failure and nothing is
    displayed.  What is left are the variables as they stood: [acc] holds
    the accuracies of the [k] runs before in the same cell,
    [all_acc_dataset] the averages of the [j] ratios before in the same
    table, and [accuracies] the ratios and one column of averages for each
    of the [i] tables before.  When no trial raises, every trial runs,
    [accuracies] has a column for every table and is displayed. *)
Theorem sweep_stops_at_failure :
  forall (legacy_numpy : bool) (permutation : Z -> nat -> list nat)
         (do_classify : table -> table -> list (list num) -> nat -> bool ->
                        result (list (list num)))
         (randint : nat -> Z) (test_size_values : list Q) (num_runs : nat)
         (data_files : list (DataFrame * string)),
    let D := List.length data_files in
    let T := List.length test_size_values in
    let trial :=
      trial_at legacy_numpy permutation do_classify randint
               test_size_values num_runs data_files in
    let cell :=
      sweep legacy_numpy permutation do_classify randint
            test_size_values num_runs data_files in
    let header :=
      ("test_size"%string, map (fun q => Fin (Q2R q)) test_size_values) in
    let column (i : nat) (col : string * list num) :=
      nth_error (map snd data_files) i = Some (fst col) /\
      averages_of (trial i) num_runs T (snd col) in
    (forall (i j k : nat) (e : exn),
        (i < D)%nat -> (j < T)%nat -> (k < num_runs)%nat ->
        trial i j k = Raise e ->
        (forall i' j' k',
            (i' < D)%nat -> (j' < T)%nat -> (k' < num_runs)%nat ->
            earlier_trial (i', j', k') (i, j, k) ->
            exists a, trial i' j' k' = Ok a) ->
        exists st,
          cell = (st, Some e) /\
          displayed st = false /\
          pbar st = (i * (T * num_runs) + j * num_runs + k)%nat /\
          draws st = S (pbar st) /\
          (pbar st < D * (T * num_runs))%nat /\
          List.length (accuracies st) = S i /\
          List.length (all_acc_dataset st) = j /\
          Forall2 (fun k' a => trial i j k' = Ok a) (seq 0 k) (acc st) /\
          averages_of (trial i) num_runs j (all_acc_dataset st) /\
          exists cols,
            accuracies st = header :: cols /\
            Forall2 column (seq 0 i) cols)
    /\
    ((forall i j k,
         (i < D)%nat -> (j < T)%nat -> (k < num_runs)%nat ->
         exists a, trial i j k = Ok a) ->
     exists st,
       cell = (st, None) /\
       displayed st = true /\
       pbar st = (D * (T * num_runs))%nat /\
       draws st = (D * (T * num_runs))%nat /\
       List.length (accuracies st) = S D /\
       exists cols,
         accuracies st = header :: cols /\
         Forall2 column (seq 0 D) cols).
Proof.
  intros legacy permutation do_classify randint tsv num_runs data_files
         D T trial cell header column. subst D T.
  assert (Hloop : exists st1 r1,
             for_each (dataset_body legacy permutation do_classify randint
                         tsv num_runs) data_files (sweep_init tsv) = (st1, r1))
    by (eexists; eexists; apply surjective_pairing).
  destruct Hloop as [st1 [r1 Hloop]].
  assert (Hcell : cell = match r1 with
                         | Some e => (st1, Some e)
                         | None => (display st1, None)
                         end).
  { unfold cell, sweep. rewrite Hloop. now destruct r1. }
  pose proof (datasets_values _ _ _ _ _ _ _ _ _ _ Hloop) as Hvalues.
  apply datasets_loop in Hloop.
  cbn [sweep_init displayed pbar draws accuracies List.length Nat.add app]
    in Hloop, Hvalues.
  destruct Hloop as [Hs [i0 [Hlen [Hbefore Hr]]]].
  destruct Hvalues as [cols [Hacc [Hcols Hpartial]]].
  assert (Hi0cols : List.length cols = i0).
  { rewrite Hacc in Hlen. cbn [List.length] in Hlen. lia. }
  rewrite Hi0cols in Hcols, Hpartial.
  assert (Htrial : forall i j k d ts,
             nth_error data_files i = Some d -> nth_error tsv j = Some ts ->
             trial i j k
             = run_classifier legacy permutation do_classify
                 (image_data_of (fst d)) (truth_labels_of (fst d)) ts
                 (randint (i * (List.length tsv * num_runs) + j * num_runs + k)%nat)).
  { intros i j k d ts Hd Hts. unfold trial, trial_at. now rewrite Hd, Hts. }
  assert (Haverages : forall i d n l,
             nth_error data_files i = Some d ->
             Forall2 (fun j' avg =>
                        exists ts',
                          nth_error tsv j' = Some ts' /\
                          cell_average
                            (fun k' =>
                               run_classifier legacy permutation do_classify
                                 (image_data_of (fst d)) (truth_labels_of (fst d)) ts'
                                 (randint (i * (List.length tsv * num_runs)
                                           + j' * num_runs + k')%nat))
                            num_runs avg)
                     (seq 0 n) l ->
             averages_of (trial i) num_runs n l).
  { intros i d n l Hd HF. unfold averages_of.
    refine (Forall2_impl _ _ HF). intros j' avg [ts' [Hn [accs [HF1 Havg]]]].
    exists accs. split; [| exact Havg].
    refine (Forall2_impl _ _ HF1). intros k' a Hk'.
    now rewrite (Htrial _ _ _ _ _ Hd Hn). }
  assert (Hcolumns : Forall2 column (seq 0 i0) cols).
  { refine (Forall2_impl _ _ Hcols). intros i' col [d' [Hd' [Hlab HFc]]].
    split.
    - rewrite nth_error_map, Hd'. cbn [option_map]. now rewrite Hlab.
    - now apply (Haverages i' d'). }
  split.
  - intros i j k e Hi Hj Hk Hfail Hearlier.
    destruct (nth_error_lt data_files i Hi) as [d Hd].
    destruct (nth_error_lt tsv j Hj) as [ts Hts].
    destruct r1 as [e0 |].
    + destruct Hr as (j0 & k0 & d0 & ts0 & Hd0 & Hts0 & Hk0 & Hbef & Hp & Hdr
                      & Hj0 & HF & Hrun).
      assert (Hi0 : (i0 < List.length data_files)%nat) by (apply nth_error_Some; congruence).
      assert (Hj0' : (j0 < List.length tsv)%nat) by (apply nth_error_Some; congruence).
      assert (Hfail0 : trial i0 j0 k0 = Raise e0)
        by (rewrite (Htrial _ _ _ _ _ Hd0 Hts0); exact Hrun).
      assert (Hi_eq : i0 = i).
      { destruct (lt_eq_lt_dec i0 i) as [[L | E] | G]; [exfalso | exact E | exfalso].
        - destruct (Hearlier i0 j0 k0 Hi0 Hj0' Hk0) as [a Ha];
            [now left | congruence].
        - destruct (Hbefore i j k d ts G Hd Hts Hk) as [a Ha].
          rewrite (Htrial _ _ _ _ _ Hd Hts) in Hfail. congruence. }
      rewrite Hi_eq in *. clear Hi_eq i0. assert (d0 = d) by congruence. subst d0.
      assert (Hj_eq : j0 = j).
      { destruct (lt_eq_lt_dec j0 j) as [[L | E] | G]; [exfalso | exact E | exfalso].
        - destruct (Hearlier i j0 k0 Hi0 Hj0' Hk0) as [a Ha];
            [right; split; [reflexivity | now left] | congruence].
        - destruct (Hbef j k ts G Hk Hts) as [a Ha].
          rewrite (Htrial _ _ _ _ _ Hd Hts) in Hfail. congruence. }
      rewrite Hj_eq in *. clear Hj_eq. assert (ts0 = ts) by congruence. subst ts0.
      assert (Hk_eq : k0 = k).
      { destruct (lt_eq_lt_dec k0 k) as [[L | E] | G]; [exfalso | exact E | exfalso].
        - destruct (Hearlier i j k0 Hi0 Hj0' Hk0) as [a Ha];
            [right; split; [reflexivity | right; now split] | congruence].
        - destruct (Forall2_seq_nth _ _ _ HF k G) as [a Ha].
          rewrite (Htrial _ _ _ _ _ Hd Hts) in Hfail. congruence. }
      rewrite Hk_eq in *. clear Hk_eq. assert (e0 = e) by congruence. subst e0.
      exists st1. split; [exact Hcell |].
      pose proof (trial_index_bound _ _ num_runs i j k Hi Hj Hk) as Hb.
      destruct Hpartial as [d1 [Hd1 Hpart]]; [discriminate |].
      assert (d1 = d) by congruence. subst d1. rewrite Hj0 in Hpart.
      split; [assumption |]. split; [lia |]. split; [lia |]. split; [lia |].
      split; [lia |]. split; [exact Hj0 |].
      split.
      { refine (Forall2_impl _ _ HF). intros k' a Hk'.
        now rewrite (Htrial _ _ _ _ _ Hd Hts). }
      split; [now apply (Haverages i d) |].
      exists cols. split; [exact Hacc | exact Hcolumns].
    + exfalso. destruct Hr as [-> _].
      destruct (Hbefore i j k d ts Hi Hd Hts Hk) as [a Ha].
      rewrite (Htrial _ _ _ _ _ Hd Hts) in Hfail. congruence.
  - intros Hall. destruct r1 as [e0 |].
    + exfalso.
      destruct Hr as (j0 & k0 & d0 & ts0 & Hd0 & Hts0 & Hk0 & _ & _ & _
                      & _ & _ & Hrun).
      assert (Hi0 : (i0 < List.length data_files)%nat) by (apply nth_error_Some; congruence).
      assert (Hj0' : (j0 < List.length tsv)%nat) by (apply nth_error_Some; congruence).
      destruct (Hall i0 j0 k0 Hi0 Hj0' Hk0) as [a Ha].
      rewrite (Htrial _ _ _ _ _ Hd0 Hts0) in Ha. congruence.
    + destruct Hr as [-> [Hp Hdr]].
      exists (display st1). split; [exact Hcell |].
      cbn [display displayed pbar draws accuracies].
      split; [reflexivity |]. split; [lia |]. split; [lia |]. split; [lia |].
      exists cols. split; [exact Hacc | exact Hcolumns].
Qed.

Lemma num_gtb_fin_le (x y : R) : x <= y -> num_gtb (Fin x) (Fin y) = false.
Proof. intros H. simpl. destruct (Rlt_dec y x); [lra | reflexivity]. Qed.

(** A trial of the example at ratio 1/4: three training rows, one test
    row, classified correctly. *)
Lemma example_second_trial (legacy_numpy : bool) (seed : Z) :
  run_classifier legacy_numpy identity_permutation small_train_fails
    (image_data_of four_rows) (truth_labels_of four_rows) (1 # 4) seed
  = Ok (Fin 100).
Proof.
  unfold run_classifier.
  replace (train_test_split identity_permutation (image_data_of four_rows)
             (truth_labels_of four_rows) (1 # 4) seed)
    with (Ok ([[Fin 2]; [Fin 3]; [Fin 4]], [[Fin 1]],
              [Fin 1; Fin 0; Fin 1], [Fin 0])) by (vm_compute; reflexivity).
  cbn [bind].
  rewrite (generate_onehot_value_cons (Fin 0) []), onehot_step_zero.
  cbn [small_train_fails List.length Nat.ltb Nat.leb map bind app
       generate_onehot_value fold_left argmax_axis1 argmax_axis1_2d
       argmax_rows argmax argmax_from is_nan orb].
  rewrite (num_gtb_fin_le 0 1), (num_gtb_fin_le (-1) 1) by lra.
  cbn [count_matches List.length Nat.eqb combine filter fst snd bind INR].
  rewrite ndiv_fin by lra. cbn [nmul]. f_equal. f_equal. field.
Qed.

Lemma sweep_stops_at_failure_witness :
  exists st,
    sweep false identity_permutation small_train_fails Z.of_nat
          [1 # 4; 3 # 4]%Q 1 [(four_rows, "Raw data"%string)]
    = (st, Some (ExternalError 1)) /\
    displayed st = false /\
    pbar st = 1%nat /\
    draws st = 2%nat /\
    List.length (accuracies st) = 1%nat /\
    List.length (all_acc_dataset st) = 1%nat /\
    acc st = [].
Proof.
  destruct (proj1 (sweep_stops_at_failure false identity_permutation
                     small_train_fails Z.of_nat [1 # 4; 3 # 4]%Q 1
                     [(four_rows, "Raw data"%string)])
                  0%nat 1%nat 0%nat (ExternalError 1))
    as (st & Hcell & Hdisp & Hp & Hd & _ & Ha & Hl & HF & _).
  - simpl. lia.
  - simpl. lia.
  - lia.
  - vm_compute. reflexivity.
  - intros i' j' k' Hi Hj Hk He. simpl in Hi, Hj.
    assert (i' = 0%nat) by lia. assert (k' = 0%nat) by lia. subst i' k'.
    assert (j' = 0%nat) by (unfold earlier_trial in He; lia). subst j'.
    exists (Fin 100). apply example_second_trial.
  - exists st. cbn [seq] in HF. inversion HF.
    repeat split; try assumption. rewrite Hd, Hp. reflexivity.
Defined.

(** C6, the claim refuted.  In the example sweep of two trials the
    classifier fails in the first, at ratio 3/4 with a single training
    row.  The cell ends with that exception after one draw and no
    completed trial: the table of accuracies holds the ratios only and is
    not displayed, and the second trial, at ratio 1/4, which would have
    returned the accuracy 100, is never run. *)
Lemma failed_trial_aborts_sweep :
  example_sweep
  = ({| draws := 1; pbar := 0; acc := []; all_acc_dataset := [];
        accuracies :=
          [("test_size"%string, [Fin (Q2R (3 # 4)); Fin (Q2R (1 # 4))])];
        displayed := false |},
     Some (ExternalError 1))
  /\
  run_classifier false identity_permutation small_train_fails
    (image_data_of four_rows) (truth_labels_of four_rows) (1 # 4) 1
  = Ok (Fin 100).
Proof. split; [vm_compute; reflexivity | apply example_second_trial]. Qed.

(** * Further properties of the notebooks *)

(** ** What the techniques do to a sample *)

Lemma norm_1_pos (rs : list R) :
  rs <> [] -> Forall (fun x => 0 < x) rs ->
  norm_1 (map Fin rs)
  = Ok (map (fun x => Fin (lg x - Rminimum (map lg rs))) rs).
Proof.
  intros Hne Hpos. unfold norm_1.
  rewrite (map_log10_pos rs Hpos).
  rewrite amin_fin by (destruct rs; simpl; congruence).
  cbn [bind]. f_equal. rewrite !map_map. apply map_ext. intros x. reflexivity.
Qed.

(** X1. On a sample of positive pixels technique 1 raises nothing; every
    output is a finite number that is not negative, and the output 0
    occurs (at a least pixel). *)
Theorem norm_1_lowest_is_zero :
  forall rs : list R,
    rs <> [] -> Forall (fun x => 0 < x) rs ->
    exists out,
      norm_1 (map Fin rs) = Ok out /\
      Forall (fun v => exists y, v = Fin y /\ 0 <= y) out /\
      In (Fin 0) out.
Proof.
  intros rs Hne Hpos. eexists. split; [now apply norm_1_pos |].
  assert (Hl : map lg rs <> []) by (destruct rs; simpl; congruence).
  split.
  - apply Forall_map, Forall_forall. intros x Hx.
    eexists. split; [reflexivity |].
    pose proof (Rminimum_le (map lg rs) (lg x) (in_map lg rs x Hx)). lra.
  - pose proof (Rminimum_in (map lg rs) Hl) as Hin.
    apply in_map_iff in Hin. destruct Hin as [x [Hx Hin]].
    apply in_map_iff. exists x. split; [| exact Hin].
    f_equal. lra.
Qed.

Lemma norm_1_lowest_is_zero_witness :
  exists out,
    norm_1 (map Fin [3; 2; 5]) = Ok out /\
    Forall (fun v => exists y, v = Fin y /\ 0 <= y) out /\
    In (Fin 0) out.
Proof.
  apply (norm_1_lowest_is_zero [3; 2; 5]).
  - discriminate.
  - repeat constructor; lra.
Defined.

Section FloatTechnique2.

Import IEEE.
Local Open Scope Q_scope.

(** Rounding leaves a number of the format as it is. *)
Lemma round_fixed (fmt : format) (q q' : Q) :
  representable fmt q -> Qred q = q -> q' == q -> round fmt q' = Finite q.
Proof.
  intros [Hr Hb] Hc E.
  rewrite (round_comp fmt q' q E).
  assert (Eq : round_fin fmt q = q)
    by (rewrite (round_fin_canonical fmt q q Hr); exact Hc).
  rewrite round_finite; [now rewrite Eq | now rewrite Eq].
Qed.

Lemma round_fin_reduced (fmt : format) (q : Q) :
  Qred (round_fin fmt q) = round_fin fmt q.
Proof. unfold round_fin. apply Qred_complete, Qred_correct. Qed.

(** The values of technique 2, one by one. *)
Lemma norm_2_values (data : list Q) (mn mx d : Q) :
  Forall (representable binary64) data ->
  In mn data -> In mx data ->
  Forall (fun x => mn <= x <= mx) data -> mn < mx ->
  sub binary64 (Finite mx) (Finite mn) = Finite d ->
  exists qs : list Q,
    norm_2 (map Finite data) = Ok (map Finite qs) /\
    List.length qs = List.length data /\
    In 0 qs /\ In 1 qs /\
    Forall (fun q => 0 <= q <= 1 /\ representable binary64 q /\ Qred q = q) qs.
Proof.
  intros Hrep Hmn Hmx Hin Hlt Hd. rewrite Forall_forall in Hin.
  destruct (norm_2_float data mn mx d Hrep Hmn Hmx Hin Hlt Hd)
    as (m1 & m2 & Em1 & Em2 & Hpos & E & Hx).
  destruct one_bound as [B1 B2].
  set (g := fun x => round_fin binary64 (round_fin binary64 (x - m1) / d)).
  assert (Hg : forall x, In x data ->
             div binary64 (sub binary64 (Finite x) (Finite m1)) (Finite d)
             = Finite (g x) /\ 0 <= g x <= 1 /\
             (x == mn -> g x = 0) /\ (x == mx -> g x = 1)).
  { intros x Hx'. destruct (Hx x Hx') as (n & En & [N0 N1] & Z0 & Z1).
    rewrite En.
    destruct (div_within n d 1 N0 Hpos) as (q & Eq & Hq & Eqv);
      [Lqa.lra | exact B1 | exact B2 |].
    cbn [sub] in En. apply round_finite_inv in En. destruct En as [En _].
    assert (Egx : g x = q) by (unfold g; now rewrite <- En).
    rewrite Egx. split; [exact Eq |]. split; [exact Hq |]. split.
    - intros Ex. rewrite Eqv, (Z0 Ex).
      rewrite (round_fin_canonical _ _ 0); [reflexivity |].
      apply round_fin_zero. unfold Qdiv. apply Qmult_0_l.
    - intros Ex. rewrite Eqv, (Z1 Ex).
      rewrite (round_fin_canonical _ _ 1); [reflexivity |].
      rewrite (round_fin_comp binary64 (d / d) 1) by (field; Lqa.lra).
      exact B1. }
  exists (map g data). split; [| split; [apply length_map | split; [| split]]].
  - rewrite E. f_equal. rewrite !map_map. apply map_ext_in.
    intros x Hx'. now destruct (Hg x Hx') as [-> _].
  - destruct (Hg mn Hmn) as (_ & _ & Z0 & _).
    rewrite <- (Z0 (Qeq_refl mn)). now apply in_map.
  - destruct (Hg mx Hmx) as (_ & _ & _ & Z1).
    rewrite <- (Z1 (Qeq_refl mx)). now apply in_map.
  - apply Forall_map, Forall_forall. intros x Hx'.
    destruct (Hg x Hx') as (_ & Hu & _). split; [exact Hu |].
    split; [| exact (round_fin_reduced binary64 _)].
    split; [exact (round_fin_idempotent binary64 _ binary64_prec) |].
    fold (g x). rewrite Qabs_pos by apply Hu. Lqa.lra.
Qed.

End FloatTechnique2.

(** X3. Technique 2 maps the least value of a sample that is not constant
    to 0 and its greatest value to 1, both exactly, in float64 arithmetic
    and provided the range does not overflow. *)
Theorem norm_2_attains_endpoints :
  forall (data : list Q) (mn mx d : Q),
    Forall (IEEE.representable IEEE.binary64) data ->
    In mn data -> In mx data ->
    Forall (fun x => mn <= x <= mx)%Q data -> (mn < mx)%Q ->
    IEEE.sub IEEE.binary64 (IEEE.Finite mx) (IEEE.Finite mn) = IEEE.Finite d ->
    exists out,
      IEEE.norm_2 (map IEEE.Finite data) = Ok out /\
      In (IEEE.Finite 0) out /\ In (IEEE.Finite 1) out.
Proof.
  intros data mn mx d Hrep Hmn Hmx Hin Hlt Hd.
  destruct (norm_2_values data mn mx d Hrep Hmn Hmx Hin Hlt Hd)
    as (qs & E & _ & H0 & H1 & _).
  exists (map IEEE.Finite qs). split; [exact E |].
  split; now apply in_map.
Qed.

Lemma norm_2_attains_endpoints_witness :
  exists out,
    IEEE.norm_2 (map IEEE.Finite [3; 2; 5]%Q) = Ok out /\
    In (IEEE.Finite 0) out /\ In (IEEE.Finite 1) out.
Proof.
  apply (norm_2_attains_endpoints [3; 2; 5]%Q 2%Q 5%Q 3%Q).
  - repeat (apply Forall_cons; [split; vm_compute; reflexivity |]).
    apply Forall_nil.
  - simpl. tauto.
  - simpl. tauto.
  - repeat (apply Forall_cons; [split; vm_compute; discriminate |]).
    apply Forall_nil.
  - reflexivity.
  - vm_compute. reflexivity.
Defined.

(** X5. Technique 2 applied to its own output returns that output again,
    value for value, in float64 arithmetic: the output has the least value
    0 and the greatest value 1, and subtracting 0 and dividing by 1 round
    nothing. *)
Theorem norm_2_idempotent :
  forall (data : list Q) (mn mx d : Q),
    Forall (IEEE.representable IEEE.binary64) data ->
    In mn data -> In mx data ->
    Forall (fun x => mn <= x <= mx)%Q data -> (mn < mx)%Q ->
    IEEE.sub IEEE.binary64 (IEEE.Finite mx) (IEEE.Finite mn) = IEEE.Finite d ->
    exists out,
      IEEE.norm_2 (map IEEE.Finite data) = Ok out /\
      IEEE.norm_2 out = Ok out.
Proof.
  intros data mn mx d Hrep Hmn Hmx Hin Hlt Hd.
  destruct (norm_2_values data mn mx d Hrep Hmn Hmx Hin Hlt Hd)
    as (qs & E & _ & H0 & H1 & Hqs).
  exists (map IEEE.Finite qs). split; [exact E |].
  rewrite Forall_forall in Hqs.
  assert (Hrep' : Forall (IEEE.representable IEEE.binary64) qs)
    by (apply Forall_forall; intros q Hq; now apply Hqs).
  assert (Hin' : forall x, In x qs -> (0 <= x <= 1)%Q)
    by (intros q Hq; now apply Hqs).
  destruct (norm_2_float qs 0%Q 1%Q 1%Q Hrep' H0 H1 Hin')
    as (m1 & m2 & Em1 & _ & _ & E' & _);
    [reflexivity | vm_compute; reflexivity |].
  rewrite E'. f_equal. rewrite map_map.
  apply map_ext_in. intros q Hq.
  destruct (Hqs q Hq) as (_ & Hr & Hc).
  cbn [IEEE.sub].
  rewrite (round_fixed IEEE.binary64 q (q - m1)%Q Hr Hc)
    by (rewrite Em1; ring).
  cbn [IEEE.div]. change (Qcompare 1 0) with Gt.
  rewrite (round_fixed IEEE.binary64 q (q / 1)%Q Hr Hc)
    by (field).
  reflexivity.
Qed.

Lemma norm_2_idempotent_witness :
  exists out,
    IEEE.norm_2 (map IEEE.Finite [3; 2; 5]%Q) = Ok out /\
    IEEE.norm_2 out = Ok out.
Proof.
  apply (norm_2_idempotent [3; 2; 5]%Q 2%Q 5%Q 3%Q).
  - repeat (apply Forall_cons; [split; vm_compute; reflexivity |]).
    apply Forall_nil.
  - simpl. tauto.
  - simpl. tauto.
  - repeat (apply Forall_cons; [split; vm_compute; discriminate |]).
    apply Forall_nil.
  - reflexivity.
  - vm_compute. reflexivity.
Defined.

(** X6. For a sample whose pixels lie between 0 and a positive corpus
    maximum, technique 4 stays in the unit interval, and gives 0 at a
    least pixel. *)
Theorem norm_4_unit_interval :
  forall (mx : R) (rs : list R),
    rs <> [] -> 0 < mx -> Forall (fun x => 0 <= x <= mx) rs ->
    exists out,
      norm_4 (Fin mx) (map Fin rs) = Ok out /\
      Forall in_unit out /\ In (Fin 0) out.
Proof.
  intros mx rs Hne Hmx Hin. eexists.
  split; [apply norm_4_fin; [exact Hne | lra] |].
  rewrite Forall_forall in Hin.
  pose proof (Rminimum_in rs Hne) as Hmin.
  assert (Hi : 0 < / mx) by now apply Rinv_0_lt_compat.
  split.
  - apply Forall_map, Forall_forall. intros x Hx.
    eexists. split; [reflexivity |].
    pose proof (Rminimum_le rs x Hx) as Hle.
    pose proof (Hin x Hx) as Hb. pose proof (Hin _ Hmin) as Hb'.
    unfold Rdiv. split.
    + apply Rmult_le_pos; lra.
    + replace 1 with (mx * / mx) by (field; lra).
      apply Rmult_le_compat_r; lra.
  - apply in_map_iff. exists (Rminimum rs). split; [| exact Hmin].
    f_equal. field. lra.
Qed.

Lemma norm_4_unit_interval_witness :
  exists out,
    norm_4 (Fin 8) (map Fin [1; 2; 3; 4]) = Ok out /\
    Forall in_unit out /\ In (Fin 0) out.
Proof.
  apply (norm_4_unit_interval 8 [1; 2; 3; 4]).
  - discriminate.
  - lra.
  - repeat constructor; lra.
Defined.

(** ** The listing and the loader *)

Lemma prefix_app (p q s : string) :
  String.prefix (p ++ q) s = true -> String.prefix p s = true.
Proof.
  revert s. induction p as [| a p IH]; intros s H.
  - now destruct s.
  - destruct s as [| b s]; cbn -[ascii_dec] in *; [discriminate |].
    destruct (ascii_dec a b); [now apply IH | discriminate].
Qed.

Lemma galaxy_is_gal (file : string) :
  startswith file "galaxy" = true -> startswith file "gal" = true.
Proof. unfold startswith. apply (prefix_app "gal" "axy"). Qed.

Lemma list_cutouts_fold (listdir : list string) :
  forall st,
    let fits := filter (fun f => endswith f ".fits") listdir in
    let st' := fold_left listing_step listdir st in
    cutout_files st' = cutout_files st ++ fits /\
    gals st' = (gals st + List.length (filter (fun f => startswith f "gal") fits))%nat /\
    stars st'
    = (stars st
       + List.length
           (filter (fun f => negb (startswith f "gal") && startswith f "star")%bool
                   fits))%nat.
Proof.
  induction listdir as [| file listdir IH]; intros st; cbn zeta; simpl.
  - rewrite app_nil_r. repeat split; lia.
  - specialize (IH (listing_step st file)). cbn zeta in IH.
    destruct IH as [Hf [Hg Hs]]. rewrite Hf, Hg, Hs. clear Hf Hg Hs.
    unfold listing_step.
    destruct (endswith file ".fits"); [| repeat split].
    simpl. destruct (startswith file "gal"); simpl;
      [| destruct (startswith file "star"); simpl];
      rewrite <- app_assoc; repeat split; lia.
Qed.

Lemma filter_length_perm {A : Type} (p : A -> bool) (l l' : list A) :
  Permutation l l' -> List.length (filter p l) = List.length (filter p l').
Proof.
  induction 1 as [| x l l' _ IH | x y l | l l' l'' _ IH1 _ IH2]; simpl.
  - reflexivity.
  - destruct (p x); simpl; congruence.
  - destruct (p x), (p y); reflexivity.
  - congruence.
Qed.

Lemma labelled_counts (files : list string) (rows : table) :
  Forall2 labelled files rows ->
  Forall (fun f => startswith f "star" = true \/ startswith f "galaxy" = true)
         files ->
  count_label (Fin 0) (map (fun r => hd NaN r) rows)
  = List.length (filter (fun f => startswith f "star") files) /\
  count_label (Fin 1) (map (fun r => hd NaN r) rows)
  = List.length (filter (fun f => startswith f "galaxy") files).
Proof.
  unfold count_label.
  induction 1 as [| file r files rows Hl _ IH]; intros Hp; [now split |].
  inversion Hp as [| ? ? Hfile Hrest]; subst.
  destruct (IH Hrest) as [IH0 IH1]. clear IH.
  destruct Hl as [lbl [data [-> [_ [Hs Hg]]]]]. simpl.
  destruct Hfile as [Hstar | Hgal].
  - rewrite (Hs Hstar), Hstar, (star_not_galaxy file Hstar).
    rewrite num_eqb_refl_fin, (num_eqb_fin_neq 0 1) by lra.
    simpl. now rewrite IH0, IH1.
  - assert (Hstar : startswith file "star" = false).
    { destruct (startswith file "star") eqn:E; [| reflexivity].
      apply star_not_galaxy in E. congruence. }
    rewrite (Hg Hgal), Hgal, Hstar.
    rewrite num_eqb_refl_fin, (num_eqb_fin_neq 1 0) by lra.
    simpl. now rewrite IH0, IH1.
Qed.

(** X8. The counts that the listing cell prints agree with the labels that
    the loader writes, when every listed file is named [star...] or
    [galaxy...]: whatever the order the shuffle puts the files in, the raw
    table has as many rows with label 0 as stars were counted and as many
    with label 1 as galaxies, and no other row. *)
Theorem listing_counts_match_labels :
  forall (listdir shuffled : list string)
         (getdata : string -> list (list num)) (st : loader_state),
    Permutation (cutout_files (list_cutouts listdir)) shuffled ->
    Forall (fun f => startswith f "star" = true \/ startswith f "galaxy" = true)
           (cutout_files (list_cutouts listdir)) ->
    loader_loop getdata loader_init shuffled = Ok st ->
    count_label (Fin 0) (map (fun r => hd NaN r) (gal_star st))
    = stars (list_cutouts listdir) /\
    count_label (Fin 1) (map (fun r => hd NaN r) (gal_star st))
    = gals (list_cutouts listdir) /\
    List.length (gal_star st)
    = (stars (list_cutouts listdir) + gals (list_cutouts listdir))%nat.
Proof.
  intros listdir shuffled getdata st Hperm Hnames Hload.
  pose proof (loader_labels getdata shuffled st Hload) as Hlab.
  assert (Hnames' : Forall (fun f => startswith f "star" = true \/
                                     startswith f "galaxy" = true) shuffled).
  { rewrite Forall_forall in Hnames |- *. intros f Hf. apply Hnames.
    now apply (Permutation_in f (Permutation_sym Hperm)). }
  destruct (labelled_counts shuffled (gal_star st) Hlab Hnames') as [H0 H1].
  pose proof (list_cutouts_fold listdir
                {| cutout_files := []; gals := 0; stars := 0 |}) as Hfold.
  cbn zeta in Hfold. fold (list_cutouts listdir) in Hfold.
  destruct Hfold as [Hf [Hg Hs]]. simpl in Hf, Hg, Hs.
  rewrite <- Hf in Hg, Hs.
  set (files := cutout_files (list_cutouts listdir)) in *.
  assert (Es : filter (fun f => negb (startswith f "gal") && startswith f "star")%bool
                      files
               = filter (fun f => startswith f "star") files).
  { apply filter_ext. intros f.
    destruct (startswith f "star") eqn:E; [| now rewrite andb_false_r].
    now rewrite (star_not_gal f E). }
  assert (Eg : filter (fun f => startswith f "gal") files
               = filter (fun f => startswith f "galaxy") files).
  { apply filter_ext_in. intros f Hin.
    rewrite Forall_forall in Hnames. destruct (Hnames f Hin) as [E | E].
    - now rewrite (star_not_gal f E), (star_not_galaxy f E).
    - now rewrite (galaxy_is_gal f E), E. }
  rewrite Es in Hs. rewrite Eg in Hg.
  rewrite (filter_length_perm (fun f => startswith f "star") _ _ Hperm) in Hs.
  rewrite (filter_length_perm (fun f => startswith f "galaxy") _ _ Hperm) in Hg.
  rewrite H0, H1, Hs, Hg. repeat split.
  (* every row carries one of the two labels *)
  rewrite <- (Forall2_length Hlab).
  clear - Hnames'. induction Hnames' as [| f l [E | E] _ IH]; simpl;
    [reflexivity | |].
  - rewrite E, (star_not_galaxy f E). simpl. lia.
  - assert (Hstar : startswith f "star" = false).
    { destruct (startswith f "star") eqn:E'; [| reflexivity].
      apply star_not_galaxy in E'. congruence. }
    rewrite E, Hstar. simpl. lia.
Qed.

Lemma listing_counts_match_labels_witness :
  exists st,
    loader_loop scenario_getdata loader_init ["galaxy_0.fits"; "star_0.fits"]%string
    = Ok st /\
    count_label (Fin 0) (map (fun r => hd NaN r) (gal_star st)) = 1%nat /\
    count_label (Fin 1) (map (fun r => hd NaN r) (gal_star st)) = 1%nat /\
    List.length (gal_star st) = 2%nat.
Proof.
  eexists. split; [reflexivity |].
  apply (listing_counts_match_labels
           ["star_0.fits"; "notes.txt"; "galaxy_0.fits"]%string
           ["galaxy_0.fits"; "star_0.fits"]%string scenario_getdata).
  - apply perm_swap.
  - apply Forall_cons; [left; reflexivity |].
    apply Forall_cons; [right; reflexivity | apply Forall_nil].
  - reflexivity.
Defined.

(** What one iteration of the loader does to each variable. *)
Lemma loader_step_row (getdata : string -> list (list num))
  (st st' : loader_state) (file : string) :
  loader_step getdata st file = Ok st' ->
  exists id mn mx,
    amin (flatten (getdata file)) = Ok mn /\
    amax (flatten (getdata file)) = Ok mx /\
    obj_id st' = Some id /\
    gal_star st' = gal_star st ++ [id :: flatten (getdata file)] /\
    min_pixel st' = min_pixel st ++ [mn] /\
    max_pixel st' = max_pixel st ++ [mx] /\
    (startswith file "star" = false -> startswith file "galaxy" = false ->
     obj_id st = Some id).
Proof.
  unfold loader_step.
  destruct (amin (flatten (getdata file))) as [mn |]; cbn [bind]; [| discriminate].
  destruct (amax (flatten (getdata file))) as [mx |]; cbn [bind]; [| discriminate].
  destruct (startswith file "galaxy") eqn:Hg.
  - intros H. injection H as <-. exists (Fin 1), mn, mx. cbn.
    repeat split; discriminate.
  - destruct (startswith file "star") eqn:Hs.
    + intros H. injection H as <-. exists (Fin 0), mn, mx. cbn.
      repeat split; discriminate.
    + destruct (obj_id st) as [id |] eqn:Hst; [| discriminate].
      intros H. injection H as <-. exists id, mn, mx. cbn.
      repeat split; reflexivity.
Qed.

Lemma loader_loop_app (getdata : string -> list (list num))
  (l1 l2 : list string) :
  forall st,
    loader_loop getdata st (l1 ++ l2)
    = (st1 <- loader_loop getdata st l1 ;; loader_loop getdata st1 l2).
Proof.
  induction l1 as [| f l1 IH]; intros st; simpl; [reflexivity |].
  destruct (loader_step getdata st f) as [st1 |]; cbn [bind]; [apply IH | reflexivity].
Qed.

Lemma loader_loop_rows (getdata : string -> list (list num))
  (files : list string) :
  forall st st',
    loader_loop getdata st files = Ok st' ->
    exists rows mins maxs,
      gal_star st' = gal_star st ++ rows /\
      min_pixel st' = min_pixel st ++ mins /\
      max_pixel st' = max_pixel st ++ maxs /\
      Forall2 (fun f r => exists id, r = id :: flatten (getdata f)) files rows /\
      Forall2 (fun f m => amin (flatten (getdata f)) = Ok m) files mins /\
      Forall2 (fun f m => amax (flatten (getdata f)) = Ok m) files maxs.
Proof.
  induction files as [| f files IH]; intros st st' H; simpl in H.
  - injection H as <-. exists [], [], []. rewrite !app_nil_r.
    repeat split; constructor.
  - destruct (loader_step getdata st f) as [st1 |] eqn:Hstep;
      cbn [bind] in H; [| discriminate].
    destruct (loader_step_row getdata st st1 f Hstep)
      as [id [mn [mx [Hmn [Hmx [_ [Hg [Hmi [Hma _]]]]]]]]].
    destruct (IH st1 st' H) as [rows [mins [maxs [Hr [Hi [Ha [F1 [F2 F3]]]]]]]].
    exists ((id :: flatten (getdata f)) :: rows), (mn :: mins), (mx :: maxs).
    rewrite Hr, Hi, Ha, Hg, Hmi, Hma, <- !app_assoc.
    repeat split; constructor; eauto.
Qed.

(** X9. A cutout file whose name starts with neither [star] nor [galaxy]
    is not rejected: its row is written with the label of the file loaded
    just before it. *)
Theorem unlabelled_file_inherits_label :
  forall (getdata : string -> list (list num)) (files : list string)
         (prev file : string) (st : loader_state),
    loader_loop getdata loader_init (files ++ [prev; file]) = Ok st ->
    startswith file "star" = false ->
    startswith file "galaxy" = false ->
    exists lbl,
      nth_error (gal_star st) (List.length files)
      = Some (lbl :: flatten (getdata prev)) /\
      nth_error (gal_star st) (S (List.length files))
      = Some (lbl :: flatten (getdata file)).
Proof.
  intros getdata files prev file st H Hs Hg.
  rewrite loader_loop_app in H.
  destruct (loader_loop getdata loader_init files) as [s1 |] eqn:H1;
    cbn [bind] in H; [| discriminate].
  simpl in H.
  destruct (loader_step getdata s1 prev) as [s2 |] eqn:H2;
    cbn [bind] in H; [| discriminate].
  destruct (loader_step getdata s2 file) as [s3 |] eqn:H3;
    cbn [bind] in H; [| discriminate].
  injection H as <-.
  destruct (loader_loop_rows getdata files _ _ H1)
    as [rows [_ [_ [Hr [_ [_ [F _]]]]]]].
  simpl in Hr. apply Forall2_length in F.
  destruct (loader_step_row _ _ _ _ H2) as [id [_ [_ [_ [_ [Hid [Hg2 _]]]]]]].
  destruct (loader_step_row _ _ _ _ H3) as [id' [_ [_ [_ [_ [_ [Hg3 [_ [_ Hst]]]]]]]]].
  specialize (Hst Hs Hg). rewrite Hid in Hst. injection Hst as <-.
  exists id. rewrite Hg3, Hg2, Hr, <- app_assoc, F. cbn [app].
  split.
  - rewrite nth_error_app2 by apply Nat.le_refl.
    rewrite Nat.sub_diag. reflexivity.
  - rewrite nth_error_app2 by apply Nat.le_succ_diag_r.
    rewrite Nat.sub_succ_l, Nat.sub_diag by apply Nat.le_refl. reflexivity.
Qed.

Lemma unlabelled_file_inherits_label_witness :
  exists lbl,
    nth_error
      (gal_star
         {| obj_id := Some (Fin 0);
            min_pixel := [Fin (Rmin (Rmin (Rmin 1 2) 3) 4);
                          Fin (Rmin (Rmin (Rmin 5 6) 7) 8)];
            max_pixel := [Fin (Rmax (Rmax (Rmax 1 2) 3) 4);
                          Fin (Rmax (Rmax (Rmax 5 6) 7) 8)];
            gal_star := [ [Fin 0; Fin 1; Fin 2; Fin 3; Fin 4];
                          [Fin 0; Fin 5; Fin 6; Fin 7; Fin 8] ] |}) 0
    = Some (lbl :: flatten (scenario_getdata "star_0.fits")) /\
    nth_error
      (gal_star
         {| obj_id := Some (Fin 0);
            min_pixel := [Fin (Rmin (Rmin (Rmin 1 2) 3) 4);
                          Fin (Rmin (Rmin (Rmin 5 6) 7) 8)];
            max_pixel := [Fin (Rmax (Rmax (Rmax 1 2) 3) 4);
                          Fin (Rmax (Rmax (Rmax 5 6) 7) 8)];
            gal_star := [ [Fin 0; Fin 1; Fin 2; Fin 3; Fin 4];
                          [Fin 0; Fin 5; Fin 6; Fin 7; Fin 8] ] |}) 1
    = Some (lbl :: flatten (scenario_getdata "gal_7.fits")).
Proof.
  apply (unlabelled_file_inherits_label scenario_getdata []
           "star_0.fits" "gal_7.fits");
    reflexivity.
Defined.

(** X10. When the first cutout file is named neither [star...] nor
    [galaxy...], the loader stops with a [NameError] at that file, and the
    notebook writes no table. *)
Theorem first_file_unlabelled_raises :
  forall (getdata : string -> list (list num)) (file : string)
         (rest : list string) (fs : files),
    startswith file "star" = false ->
    startswith file "galaxy" = false ->
    flatten (getdata file) <> [] ->
    loader_loop getdata loader_init (file :: rest) = Raise NameError /\
    data_normalization getdata (file :: rest) fs = (fs, Some NameError).
Proof.
  intros getdata file rest fs Hs Hg Hne.
  assert (H : loader_loop getdata loader_init (file :: rest) = Raise NameError).
  { simpl. unfold loader_step.
    destruct (amin_total _ Hne) as [mn ->]. destruct (amax_total _ Hne) as [mx ->].
    cbn [bind]. rewrite Hs, Hg. reflexivity. }
  split; [exact H |]. unfold data_normalization. now rewrite H.
Qed.

Lemma first_file_unlabelled_raises_witness :
  loader_loop scenario_getdata loader_init ["gal_7.fits"; "star_0.fits"]%string
  = Raise NameError /\
  data_normalization scenario_getdata ["gal_7.fits"; "star_0.fits"]%string []
  = ([], Some NameError).
Proof.
  apply (first_file_unlabelled_raises scenario_getdata "gal_7.fits"
           ["star_0.fits"]%string []); [reflexivity | reflexivity | discriminate].
Defined.

(** ** The corpus extrema *)

Lemma flatten_fin (p : list (list R)) :
  flatten (map (map Fin) p) = map Fin (List.concat p).
Proof. unfold flatten. now rewrite concat_map. Qed.

Lemma amin_fin_inv (rs : list R) (m : num) :
  amin (map Fin rs) = Ok m -> rs <> [] /\ m = Fin (Rminimum rs).
Proof.
  destruct rs as [| r rs]; [discriminate |]. intros H.
  rewrite amin_fin in H by discriminate. injection H as <-.
  split; [discriminate | reflexivity].
Qed.

Lemma amax_fin_inv (rs : list R) (m : num) :
  amax (map Fin rs) = Ok m -> rs <> [] /\ m = Fin (Rmaximum rs).
Proof.
  destruct rs as [| r rs]; [discriminate |]. intros H.
  rewrite amax_fin in H by discriminate. injection H as <-.
  split; [discriminate | reflexivity].
Qed.

Lemma Forall2_map_eq {A B : Type} (g : A -> B) (P : A -> B -> Prop)
  (l : list A) (l' : list B) :
  Forall2 P l l' -> (forall a b, In a l -> P a b -> b = g a) -> l' = map g l.
Proof.
  induction 1 as [| a b l l' Hab _ IH]; intros Hg; [reflexivity |].
  simpl. f_equal.
  - apply Hg; [now left | exact Hab].
  - apply IH. intros a' b' Ha'. apply Hg. now right.
Qed.

(** The extrema of a corpus of finite pixels, as the loader and the
    statistics cell compute them. *)
Lemma corpus_extrema (getdata : string -> list (list num))
  (pixels : string -> list (list R)) (files : list string)
  (st : loader_state) :
  (forall f, In f files -> getdata f = map (map Fin) (pixels f)) ->
  files <> [] ->
  loader_loop getdata loader_init files = Ok st ->
  exists mn mx : R,
    amin (min_pixel st) = Ok (Fin mn) /\
    amax (max_pixel st) = Ok (Fin mx) /\
    (forall f x, In f files -> In x (List.concat (pixels f)) -> mn <= x <= mx) /\
    (exists f, In f files /\ In mn (List.concat (pixels f))) /\
    (exists f, In f files /\ In mx (List.concat (pixels f))).
Proof.
  intros Hfin Hne Hload.
  destruct (loader_loop_rows getdata files _ _ Hload)
    as [rows [mins [maxs [_ [Hmi [Hma [_ [F2 F3]]]]]]]].
  simpl in Hmi, Hma.
  set (gmin := fun f => Rminimum (List.concat (pixels f))).
  set (gmax := fun f => Rmaximum (List.concat (pixels f))).
  assert (Hnonempty : forall f, In f files -> List.concat (pixels f) <> []).
  { intros f Hf. pose proof (Forall2_length F2) as Hlen.
    destruct (In_nth_error _ _ Hf) as [i Hi].
    destruct (nth_error mins i) as [m |] eqn:Hm.
    - assert (Hf2 : amin (flatten (getdata f)) = Ok m).
      { clear - F2 Hi Hm. revert i Hi Hm.
        induction F2 as [| a b l l' Hab _ IH]; intros [| i] Hi Hm;
          simpl in *; try discriminate.
        - injection Hi as ->. injection Hm as ->. exact Hab.
        - now apply (IH i). }
      rewrite (Hfin f Hf), flatten_fin in Hf2.
      now apply amin_fin_inv in Hf2.
    - apply nth_error_None in Hm.
      assert (i < List.length files)%nat by (apply nth_error_Some; congruence).
      rewrite Hlen in H. exfalso.
      apply (Nat.lt_irrefl i). eapply Nat.lt_le_trans; eassumption. }
  assert (Emin : mins = map (fun f => Fin (gmin f)) files).
  { apply (Forall2_map_eq _ _ _ _ F2). intros f m Hf Hm.
    rewrite (Hfin f Hf), flatten_fin in Hm. now apply amin_fin_inv in Hm. }
  assert (Emax : maxs = map (fun f => Fin (gmax f)) files).
  { apply (Forall2_map_eq _ _ _ _ F3). intros f m Hf Hm.
    rewrite (Hfin f Hf), flatten_fin in Hm. now apply amax_fin_inv in Hm. }
  assert (Hne' : forall g : string -> R, map g files <> [])
    by (intros g; destruct files; simpl; congruence).
  exists (Rminimum (map gmin files)), (Rmaximum (map gmax files)).
  split; [rewrite Hmi, Emin, <- map_map with (g := Fin); now apply amin_fin |].
  split; [rewrite Hma, Emax, <- map_map with (g := Fin); now apply amax_fin |].
  split; [| split].
  - intros f x Hf Hx.
    pose proof (Rminimum_le (map gmin files) (gmin f) (in_map gmin files f Hf)).
    pose proof (Rmaximum_ge (map gmax files) (gmax f) (in_map gmax files f Hf)).
    pose proof (Rminimum_le _ x Hx). pose proof (Rmaximum_ge _ x Hx).
    unfold gmin, gmax in *. lra.
  - pose proof (Rminimum_in (map gmin files) (Hne' gmin)) as Hin.
    apply in_map_iff in Hin. destruct Hin as [f [Hf Hin]].
    exists f. split; [exact Hin |]. rewrite <- Hf.
    apply Rminimum_in. now apply Hnonempty.
  - pose proof (Rmaximum_in (map gmax files) (Hne' gmax)) as Hin.
    apply in_map_iff in Hin. destruct Hin as [f [Hf Hin]].
    exists f. split; [exact Hin |]. rewrite <- Hf.
    apply Rmaximum_in. now apply Hnonempty.
Qed.

(** X11. On a corpus of finite pixels the two statistics are finite: the
    corpus minimum is the least pixel of all cutouts and the corpus maximum
    the largest (each bounds every pixel and each is a pixel of some
    cutout). *)
Theorem corpus_extrema_bound_pixels :
  forall (getdata : string -> list (list num))
         (pixels : string -> list (list R)) (files : list string)
         (st : loader_state),
    (forall f, In f files -> getdata f = map (map Fin) (pixels f)) ->
    files <> [] ->
    loader_loop getdata loader_init files = Ok st ->
    exists mn mx : R,
      amin (min_pixel st) = Ok (Fin mn) /\
      amax (max_pixel st) = Ok (Fin mx) /\
      (forall f x, In f files -> In x (List.concat (pixels f)) -> mn <= x <= mx) /\
      (exists f, In f files /\ In mn (List.concat (pixels f))) /\
      (exists f, In f files /\ In mx (List.concat (pixels f))).
Proof. exact corpus_extrema. Qed.

Lemma scenario_getdata_finite (f : string) :
  scenario_getdata f = map (map Fin) (scenario_pixels f).
Proof.
  unfold scenario_getdata, scenario_pixels.
  now destruct (String.eqb f "star_0.fits").
Qed.

Lemma corpus_extrema_bound_pixels_witness :
  exists st,
    loader_loop scenario_getdata loader_init scenario_files = Ok st /\
    exists mn mx : R,
      amin (min_pixel st) = Ok (Fin mn) /\
      amax (max_pixel st) = Ok (Fin mx) /\
      (forall f x, In f scenario_files ->
                   In x (List.concat (scenario_pixels f)) -> mn <= x <= mx) /\
      (exists f, In f scenario_files /\ In mn (List.concat (scenario_pixels f))) /\
      (exists f, In f scenario_files /\ In mx (List.concat (scenario_pixels f))).
Proof.
  eexists. split; [reflexivity |].
  apply (corpus_extrema_bound_pixels scenario_getdata scenario_pixels
           scenario_files).
  - intros f _. apply scenario_getdata_finite.
  - discriminate.
  - reflexivity.
Defined.

(** ** The notebook from end to end *)

Lemma apply_technique_total (t : list num -> result (list num)) (gs : table) :
  (forall r, In r gs -> exists out, t (skipn 1 r) = Ok out) ->
  forall acc, exists tbl, apply_technique t gs acc = Ok tbl.
Proof.
  induction gs as [| r gs IH]; intros Ht acc; simpl; [eauto |].
  destruct (Ht r (or_introl eq_refl)) as [out Hout].
  unfold apply_row. rewrite Hout. cbn [bind].
  apply IH. intros r' Hr'. apply Ht. now right.
Qed.

Lemma loader_rows_have_pixels (getdata : string -> list (list num))
  (files : list string) :
  forall st st',
    Forall (fun r => exists id data, r = id :: data /\ data <> []) (gal_star st) ->
    loader_loop getdata st files = Ok st' ->
    Forall (fun r => exists id data, r = id :: data /\ data <> []) (gal_star st').
Proof.
  induction files as [| f files IH]; intros st st' Hst H; simpl in H.
  - now injection H as <-.
  - destruct (loader_step getdata st f) as [st1 |] eqn:Hstep;
      cbn [bind] in H; [| discriminate].
    apply (IH st1 st'); [| exact H].
    destruct (loader_step_row getdata st st1 f Hstep)
      as [id [mn [mx [Hmn [_ [_ [Hg _]]]]]]].
    rewrite Hg. apply Forall_app. split; [exact Hst |].
    constructor; [| constructor].
    exists id, (flatten (getdata f)). split; [reflexivity |].
    intros E. rewrite E in Hmn. discriminate.
Qed.

(** The rows of a technique's table, against the raw rows. *)
Lemma technique_table_rows (mn mx : num)
  (t : list num -> result (list num)) (gs : table) :
  In t (techniques mn mx) ->
  Forall (fun r => exists id data, r = id :: data /\ data <> []) gs ->
  exists tbl,
    apply_technique t gs [] = Ok tbl /\
    Forall2 (fun r r' => exists id data out,
                 r = id :: data /\ t data = Ok out /\ r' = id :: out /\
                 List.length out = List.length data) gs tbl.
Proof.
  intros Ht Hgs. rewrite Forall_forall in Hgs.
  destruct (apply_technique_total t gs) with (acc := @nil row) as [tbl Htbl].
  { intros r Hr. destruct (Hgs r Hr) as [id [data [-> Hne]]]. simpl.
    destruct (technique_total_length mn mx t data Ht Hne) as [out [Hout _]].
    now exists out. }
  exists tbl. split; [exact Htbl |].
  destruct (apply_technique_rows t gs [] tbl Htbl) as [rows [-> HF]].
  cbn [app]. clear Htbl.
  induction HF as [| r r' gs' rows' Hr _ IH]; constructor.
  - destruct (Hgs r (or_introl eq_refl)) as [id [data [-> Hne]]].
    destruct (apply_row_inv t _ _ Hr) as [out [Hout ->]]. simpl in Hout.
    destruct (technique_total_length mn mx t data Ht Hne) as [out' [Hout' Hlen]].
    exists id, data, out. repeat split; try assumption. congruence.
  - apply IH. intros x Hx. apply Hgs. now right.
Qed.

(** The run of the notebook on a corpus that the loader accepts. *)
Lemma normalization_result (getdata : string -> list (list num))
  (files : list string) (st : loader_state) :
  loader_loop getdata loader_init files = Ok st ->
  files <> [] ->
  exists mn mx t1 t2 t3 t4 t5,
    amin (min_pixel st) = Ok mn /\
    amax (max_pixel st) = Ok mx /\
    apply_technique norm_1 (gal_star st) [] = Ok t1 /\
    apply_technique norm_2 (gal_star st) [] = Ok t2 /\
    apply_technique (norm_3 mn mx) (gal_star st) [] = Ok t3 /\
    apply_technique (norm_4 mx) (gal_star st) [] = Ok t4 /\
    apply_technique (norm_5 mx) (gal_star st) [] = Ok t5 /\
    data_normalization getdata files []
    = ([ ("norm_5_image_data.csv"%string, t5);
         ("norm_4_image_data.csv"%string, t4);
         ("norm_3_image_data.csv"%string, t3);
         ("norm_2_image_data.csv"%string, t2);
         ("norm_1_image_data.csv"%string, t1);
         ("raw_image_data.csv"%string, gal_star st) ], None).
Proof.
  intros Hload Hne.
  destruct (loader_loop_rows getdata files _ _ Hload)
    as [rows [mins [maxs [_ [Hmi [Hma [_ [F2 F3]]]]]]]].
  simpl in Hmi, Hma.
  assert (Hmins : mins <> []).
  { apply Forall2_length in F2. destruct files, mins; simpl in *; congruence. }
  assert (Hmaxs : maxs <> []).
  { apply Forall2_length in F3. destruct files, maxs; simpl in *; congruence. }
  destruct (amin_total mins Hmins) as [mn Hmn].
  destruct (amax_total maxs Hmaxs) as [mx Hmx].
  rewrite <- Hmi in Hmn. rewrite <- Hma in Hmx.
  assert (Hrows : Forall (fun r => exists id data, r = id :: data /\ data <> [])
                         (gal_star st)).
  { apply (loader_rows_have_pixels getdata files loader_init st);
      [constructor | exact Hload]. }
  assert (Htot : forall t, In t (techniques mn mx) ->
                           exists tbl, apply_technique t (gal_star st) [] = Ok tbl).
  { intros t Ht. destruct (technique_table_rows mn mx t _ Ht Hrows) as [tbl [H _]].
    now exists tbl. }
  destruct (Htot norm_1) as [t1 H1]; [simpl; tauto |].
  destruct (Htot norm_2) as [t2 H2]; [simpl; tauto |].
  destruct (Htot (norm_3 mn mx)) as [t3 H3]; [simpl; tauto |].
  destruct (Htot (norm_4 mx)) as [t4 H4]; [simpl; tauto |].
  destruct (Htot (norm_5 mx)) as [t5 H5]; [simpl; tauto |].
  exists mn, mx, t1, t2, t3, t4, t5.
  repeat (split; [assumption |]).
  unfold data_normalization. rewrite Hload, Hmn, Hmx.
  unfold enumerate, techniques. cbn [List.length seq combine run_techniques].
  rewrite H1, H2, H3, H4, H5. reflexivity.
Qed.

(** X12. When the loader accepts a corpus of at least one cutout, all of
    one size, the cells from the loader to the last [to_csv] run without
    an exception and leave six tables, the raw one and one per technique;
    in every technique's table row [i] has the label of raw row [i] and as
    many fields.  (The plotting cell that follows them is not part of this
    statement.) *)
Theorem normalization_completes :
  forall (getdata : string -> list (list num)) (files : list string)
         (n : nat) (st : loader_state),
    (forall f, In f files -> List.length (flatten (getdata f)) = n) ->
    loader_loop getdata loader_init files = Ok st ->
    files <> [] ->
    exists t1 t2 t3 t4 t5 : table,
      data_normalization getdata files []
      = ([ ("norm_5_image_data.csv"%string, t5);
           ("norm_4_image_data.csv"%string, t4);
           ("norm_3_image_data.csv"%string, t3);
           ("norm_2_image_data.csv"%string, t2);
           ("norm_1_image_data.csv"%string, t1);
           ("raw_image_data.csv"%string, gal_star st) ], None) /\
      Forall (fun t =>
                Forall2 (fun r r' => firstn 1 r' = firstn 1 r /\
                                     List.length r' = List.length r)
                        (gal_star st) t)
             [t1; t2; t3; t4; t5].
Proof.
  intros getdata files n st _ Hload Hne.
  destruct (normalization_result getdata files st Hload Hne)
    as (mn & mx & t1 & t2 & t3 & t4 & t5 & _ & _ & H1 & H2 & H3 & H4 & H5 & H).
  exists t1, t2, t3, t4, t5. split; [exact H |].
  assert (Hrows : Forall (fun r => exists id data, r = id :: data /\ data <> [])
                         (gal_star st)).
  { apply (loader_rows_have_pixels getdata files loader_init st);
      [constructor | exact Hload]. }
  assert (Hshape : forall t tbl,
             In t (techniques mn mx) ->
             apply_technique t (gal_star st) [] = Ok tbl ->
             Forall2 (fun r r' => firstn 1 r' = firstn 1 r /\
                                  List.length r' = List.length r)
                     (gal_star st) tbl).
  { intros t tbl Ht Htbl.
    destruct (technique_table_rows mn mx t _ Ht Hrows) as [tbl' [Htbl' HF]].
    assert (tbl' = tbl) by congruence. subst tbl'.
    revert HF. apply Forall2_impl.
    intros r r' [id [data [out [-> [_ [-> Hlen]]]]]]. simpl.
    split; [reflexivity | now rewrite Hlen]. }
  repeat constructor; eapply Hshape; try eassumption; simpl; tauto.
Qed.

Lemma normalization_completes_witness :
  exists st,
    loader_loop scenario_getdata loader_init scenario_files = Ok st /\
    exists t1 t2 t3 t4 t5 : table,
      data_normalization scenario_getdata scenario_files []
      = ([ ("norm_5_image_data.csv"%string, t5);
           ("norm_4_image_data.csv"%string, t4);
           ("norm_3_image_data.csv"%string, t3);
           ("norm_2_image_data.csv"%string, t2);
           ("norm_1_image_data.csv"%string, t1);
           ("raw_image_data.csv"%string, gal_star st) ], None) /\
      Forall (fun t =>
                Forall2 (fun r r' => firstn 1 r' = firstn 1 r /\
                                     List.length r' = List.length r)
                        (gal_star st) t)
             [t1; t2; t3; t4; t5].
Proof.
  eexists. split; [reflexivity |].
  apply (normalization_completes scenario_getdata scenario_files 4);
    [| reflexivity | discriminate].
  intros f [<- | [<- | []]]; reflexivity.
Defined.

Lemma technique_table_shape (mn mx : num)
  (t : list num -> result (list num)) (gs tbl : table) :
  In t (techniques mn mx) ->
  Forall (fun r => exists id data, r = id :: data /\ data <> []) gs ->
  apply_technique t gs [] = Ok tbl ->
  List.length tbl = List.length gs /\
  map (fun r => hd NaN r) tbl = map (fun r => hd NaN r) gs.
Proof.
  intros Ht Hgs Htbl.
  destruct (technique_table_rows mn mx t _ Ht Hgs) as [tbl' [Htbl' HF]].
  assert (tbl' = tbl) by congruence. subst tbl'. clear Htbl Htbl'.
  induction HF as [| r r' gs' rows' Hr _ IH]; [now split |].
  inversion Hgs; subst. destruct (IH H2) as [IH1 IH2].
  destruct Hr as [id [data [out [-> [_ [-> _]]]]]]. simpl.
  now rewrite IH1, IH2.
Qed.

Lemma read_csv_table (fs : files) (name : string) (tbl : table) :
  read_file fs name = Ok tbl -> tbl <> [] ->
  exists df, read_csv fs name = Ok df /\ values df = skipn 1 tbl.
Proof.
  intros H Hne. unfold read_csv. rewrite H. cbn [bind].
  destruct tbl as [| r0 rest]; [congruence |]. eexists. split; reflexivity.
Qed.

(** X14. The two notebooks in sequence: after a run of the normalisation
    notebook on [N >= 1] cutouts, the classification notebook reads the
    six tables without error, in the order raw, 1, ..., 5, and every one
    of them has lost the first cutout: it holds [N - 1] rows, with the
    labels of the cutouts from the second on. *)
Theorem reload_after_normalization :
  forall (getdata : string -> list (list num)) (files : list string)
         (st : loader_state),
    loader_loop getdata loader_init files = Ok st ->
    files <> [] ->
    exists (fs' : list (string * csv)) (dfs : list (DataFrame * string)),
      data_normalization getdata files [] = (fs', None) /\
      data_files fs' = Ok dfs /\
      map snd dfs
      = [ "Raw data"; "Normalized data 1"; "Normalized data 2";
          "Normalized data 3"; "Normalized data 4"; "Normalized data 5" ]%string /\
      Forall (fun d =>
                S (List.length (values (fst d))) = List.length files /\
                truth_labels_of (fst d)
                = skipn 1 (map (fun r => hd NaN r) (gal_star st)))
             dfs.
Proof.
  intros getdata files st Hload Hne.
  destruct (normalization_result getdata files st Hload Hne)
    as (mn & mx & t1 & t2 & t3 & t4 & t5 & _ & _ & H1 & H2 & H3 & H4 & H5 & H).
  assert (Hrows : Forall (fun r => exists id data, r = id :: data /\ data <> [])
                         (gal_star st)).
  { apply (loader_rows_have_pixels getdata files loader_init st);
      [constructor | exact Hload]. }
  assert (Hlen : List.length (gal_star st) = List.length files).
  { destruct (loader_loop_rows getdata files _ _ Hload)
      as (rows & _ & _ & Hr & _ & _ & F & _ & _).
    simpl in Hr. rewrite Hr. symmetry. exact (Forall2_length F). }
  assert (Hpos : (0 < List.length files)%nat)
    by (destruct files; [congruence | simpl; apply Nat.lt_0_succ]).
  assert (Hread : forall name tbl fs,
             read_file fs name = Ok tbl ->
             List.length tbl = List.length (gal_star st) ->
             map (fun r => hd NaN r) tbl = map (fun r => hd NaN r) (gal_star st) ->
             exists df, read_csv fs name = Ok df /\
                        S (List.length (values df)) = List.length files /\
                        truth_labels_of df
                        = skipn 1 (map (fun r => hd NaN r) (gal_star st))).
  { intros name tbl fs Hf Hl Hh.
    destruct (read_csv_table fs name tbl Hf) as [df [Hdf Hv]].
    { intros E. rewrite E, Hlen in Hl. simpl in Hl. rewrite <- Hl in Hpos.
      exact (Nat.lt_irrefl 0 Hpos). }
    exists df. split; [exact Hdf |]. unfold truth_labels_of. rewrite Hv. split.
    - rewrite <- Hlen, <- Hl. destruct tbl; [| reflexivity].
      rewrite Hlen in Hl. simpl in Hl. rewrite <- Hl in Hpos.
      destruct (Nat.lt_irrefl 0 Hpos).
    - rewrite <- Hh. destruct tbl; reflexivity. }
  assert (Hin : forall t, In t (techniques mn mx) -> forall tbl,
             apply_technique t (gal_star st) [] = Ok tbl ->
             List.length tbl = List.length (gal_star st) /\
             map (fun r => hd NaN r) tbl = map (fun r => hd NaN r) (gal_star st)).
  { intros t Ht tbl Htbl. now apply (technique_table_shape mn mx t). }
  destruct (Hin norm_1 (or_introl eq_refl) t1 H1) as [L1 E1].
  destruct (Hin norm_2 (or_intror (or_introl eq_refl)) t2 H2) as [L2 E2].
  destruct (Hin (norm_3 mn mx)
              (or_intror (or_intror (or_introl eq_refl))) t3 H3) as [L3 E3].
  destruct (Hin (norm_4 mx)
              (or_intror (or_intror (or_intror (or_introl eq_refl)))) t4 H4)
    as [L4 E4].
  destruct (Hin (norm_5 mx)
              (or_intror (or_intror (or_intror (or_intror (or_introl eq_refl)))))
              t5 H5) as [L5 E5].
  set (fs' := [ ("norm_5_image_data.csv"%string, t5);
                ("norm_4_image_data.csv"%string, t4);
                ("norm_3_image_data.csv"%string, t3);
                ("norm_2_image_data.csv"%string, t2);
                ("norm_1_image_data.csv"%string, t1);
                ("raw_image_data.csv"%string, gal_star st) ]) in *.
  destruct (Hread "raw_image_data.csv"%string (gal_star st) fs')
    as (d0 & R0 & S0); [reflexivity | reflexivity | reflexivity |].
  destruct (Hread "norm_1_image_data.csv"%string t1 fs')
    as (d1 & R1 & S1); [reflexivity | exact L1 | exact E1 |].
  destruct (Hread "norm_2_image_data.csv"%string t2 fs')
    as (d2 & R2 & S2); [reflexivity | exact L2 | exact E2 |].
  destruct (Hread "norm_3_image_data.csv"%string t3 fs')
    as (d3 & R3 & S3); [reflexivity | exact L3 | exact E3 |].
  destruct (Hread "norm_4_image_data.csv"%string t4 fs')
    as (d4 & R4 & S4); [reflexivity | exact L4 | exact E4 |].
  destruct (Hread "norm_5_image_data.csv"%string t5 fs')
    as (d5 & R5 & S5); [reflexivity | exact L5 | exact E5 |].
  exists fs'.
  exists [ (d0, "Raw data"); (d1, "Normalized data 1"); (d2, "Normalized data 2");
           (d3, "Normalized data 3"); (d4, "Normalized data 4");
           (d5, "Normalized data 5") ]%string.
  split; [exact H |]. split.
  - unfold data_files, data_file_names. cbn [read_all].
    rewrite R0, R1, R2, R3, R4, R5. reflexivity.
  - split; [reflexivity |].
    repeat (apply Forall_cons; [assumption |]). apply Forall_nil.
Qed.

Lemma reload_after_normalization_witness :
  exists (fs' : list (string * csv)) (dfs : list (DataFrame * string)),
    data_normalization scenario_getdata scenario_files [] = (fs', None) /\
    data_files fs' = Ok dfs /\
    map snd dfs
    = [ "Raw data"; "Normalized data 1"; "Normalized data 2";
        "Normalized data 3"; "Normalized data 4"; "Normalized data 5" ]%string /\
    Forall (fun d =>
              S (List.length (values (fst d))) = List.length scenario_files /\
              truth_labels_of (fst d) = [Fin 1])
           dfs.
Proof.
  exact (reload_after_normalization scenario_getdata scenario_files _
           eq_refl ltac:(discriminate)).
Defined.

(** ** Encoding and decoding of the labels *)

Lemma argmax_zero_row : argmax [Fin 1; Fin (-1)] = Ok 0%nat.
Proof.
  cbn [argmax argmax_from is_nan orb].
  now rewrite (num_gtb_fin_le (-1) 1) by lra.
Qed.

Lemma argmax_one_row : argmax [Fin (-1); Fin 1] = Ok 1%nat.
Proof.
  cbn [argmax argmax_from is_nan orb]. unfold num_gtb.
  destruct (Rlt_dec (-1) 1); [reflexivity | lra].
Qed.

Lemma argmax_rows_onehot (labels : list num) :
  Forall is_label labels ->
  exists idx,
    argmax_rows (generate_onehot_value labels) = Ok idx /\
    Forall2 (fun l i => (l = Fin 0 /\ i = 0%nat) \/ (l = Fin 1 /\ i = 1%nat))
            labels idx.
Proof.
  induction 1 as [| l labels Hl _ [idx [IH HF]]].
  - exists []. split; [reflexivity | constructor].
  - rewrite generate_onehot_value_cons.
    destruct Hl as [-> | ->].
    + rewrite onehot_step_zero. cbn [app argmax_rows].
      rewrite argmax_zero_row, IH. cbn [bind].
      exists (0%nat :: idx). split; [reflexivity |]. constructor; [now left | exact HF].
    + rewrite onehot_step_one. cbn [app argmax_rows].
      rewrite argmax_one_row, IH. cbn [bind].
      exists (1%nat :: idx). split; [reflexivity |]. constructor; [now right | exact HF].
Qed.

(** X15. Decoding undoes encoding: on a list of labels 0 and 1 that is not
    empty, the arg-max of the bipolar pairs, which the accuracy line takes
    of the encoded test labels, gives back class 0 for label 0 and class 1
    for label 1, position by position. *)
Theorem onehot_argmax_roundtrip :
  forall labels : list num,
    labels <> [] -> Forall is_label labels ->
    exists idx,
      argmax_axis1 (generate_onehot_value labels) = Ok idx /\
      Forall2 (fun l i => (l = Fin 0 /\ i = 0%nat) \/ (l = Fin 1 /\ i = 1%nat))
              labels idx.
Proof.
  intros labels Hne Hl.
  destruct (argmax_rows_onehot labels Hl) as [idx [H HF]].
  exists idx. split; [| exact HF].
  destruct (onehot_labels labels Hl) as [Hlen _].
  unfold argmax_axis1.
  destruct (generate_onehot_value labels) as [| r rest] eqn:E; [| exact H].
  destruct labels; [congruence | discriminate].
Qed.

Lemma onehot_argmax_roundtrip_witness :
  exists idx,
    argmax_axis1 (generate_onehot_value [Fin 1; Fin 0; Fin 1]) = Ok idx /\
    Forall2 (fun l i => (l = Fin 0 /\ i = 0%nat) \/ (l = Fin 1 /\ i = 1%nat))
            [Fin 1; Fin 0; Fin 1] idx.
Proof.
  apply (onehot_argmax_roundtrip [Fin 1; Fin 0; Fin 1]); [discriminate |].
  repeat (apply Forall_cons; [first [now left | now right] |]).
  apply Forall_nil.
Defined.

(** ** What the split keeps *)

Lemma validate_shuffle_split_inv (N : nat) (r : Q) (n_train n_test : nat) :
  validate_shuffle_split N r = Ok (n_train, n_test) ->
  n_train = (N - n_test)%nat /\ (n_test < N)%nat.
Proof.
  unfold validate_shuffle_split.
  destruct (IEEE.round IEEE.binary64 r) as [f | | |]; try discriminate.
  destruct (Qle_bool f 0 || Qle_bool 1 f)%bool; [discriminate |].
  destruct (IEEE.mul IEEE.binary64 (IEEE.Finite f)
              (IEEE.float_of_int (Z.of_nat N))) as [product | | |];
    try discriminate.
  destruct (Nat.eqb_spec (N - Z.to_nat (Qceiling product)) 0)
    as [E | E]; [discriminate |].
  intros H. injection H as <- <-. split; [reflexivity | lia].
Qed.

Lemma safe_indexing_inv {A : Type} (a : list A) (indices : list nat) :
  forall l,
    safe_indexing a indices = Ok l ->
    Forall2 (fun i x => nth_error a i = Some x) indices l.
Proof.
  induction indices as [| i rest IH]; intros l H; simpl in H.
  - injection H as <-. constructor.
  - destruct (nth_error a i) as [x |] eqn:Hx; [| discriminate].
    destruct (safe_indexing a rest) as [xs |]; cbn [bind] in H; [| discriminate].
    injection H as <-. constructor; [exact Hx | now apply IH].
Qed.

Lemma indexing_all {A : Type} (pre a l : list A) :
  Forall2 (fun i x => nth_error (pre ++ a) i = Some x)
          (seq (List.length pre) (List.length a)) l ->
  l = a.
Proof.
  revert pre l. induction a as [| x a IH]; intros pre l H; simpl in H.
  - now inversion H.
  - inversion H as [| i y s l' Hy Hrest]; subst.
    rewrite nth_error_app2 in Hy by apply Nat.le_refl.
    rewrite Nat.sub_diag in Hy. simpl in Hy. injection Hy as <-.
    f_equal. apply (IH (pre ++ [x])).
    rewrite length_app, Nat.add_1_r, <- app_assoc. exact Hrest.
Qed.

(** The rows selected by the two index lists of a split, test first, are
    the rows of the array in another order. *)
Lemma split_selection {A : Type} (permutation : Z -> nat -> list nat)
  (a : list A) (n_test : nat) (seed : Z) (tr te : list A) :
  (forall seed n, Permutation (permutation seed n) (seq 0 n)) ->
  (n_test <= List.length a)%nat ->
  safe_indexing a
    (fst (shuffle_split permutation (List.length a) (List.length a - n_test)
            n_test seed)) = Ok tr ->
  safe_indexing a
    (snd (shuffle_split permutation (List.length a) (List.length a - n_test)
            n_test seed)) = Ok te ->
  Permutation (te ++ tr) a.
Proof.
  intros Hperm Hle Htr Hte.
  apply safe_indexing_inv in Htr. apply safe_indexing_inv in Hte.
  pose proof (Forall2_app Hte Htr) as HF.
  rewrite (split_covers permutation Hperm _ _ seed Hle) in HF.
  destruct (Permutation_Forall2 (Hperm seed (List.length a)) HF) as [l [Hp Hl]].
  apply (indexing_all []) in Hl. now subst l.
Qed.

Lemma count_label_perm (v : num) (l l' : list num) :
  Permutation l l' -> count_label v l = count_label v l'.
Proof. apply filter_length_perm. Qed.

(** X16. A split loses and repeats no row: the test rows followed by the
    training rows are the rows of the table in another order, for the
    vectors and for the labels; so the class counts printed for the two
    parts add up to the counts of the whole table. *)
Theorem split_keeps_every_row :
  forall (permutation : Z -> nat -> list nat) (X : table) (y : list num)
         (test_size : Q) (seed : Z)
         (X_train X_test : table) (y_train y_test : list num),
    (forall seed n, Permutation (permutation seed n) (seq 0 n)) ->
    train_test_split permutation X y test_size seed
    = Ok (X_train, X_test, y_train, y_test) ->
    Permutation (X_test ++ X_train) X /\
    Permutation (y_test ++ y_train) y /\
    forall v, (count_label v y_test + count_label v y_train)%nat
              = count_label v y.
Proof.
  intros permutation X y r seed Xtr Xte ytr yte Hperm H.
  unfold train_test_split in H.
  destruct (Nat.eqb_spec (List.length y) (List.length X)) as [Hy | Hy];
    cbn [negb] in H; [| discriminate].
  destruct (validate_shuffle_split (List.length X) r) as [[n_train n_test] |] eqn:Hv;
    cbn [bind] in H; [| discriminate].
  destruct (validate_shuffle_split_inv _ _ _ _ Hv) as [-> Hlt].
  destruct (shuffle_split permutation (List.length X)
              (List.length X - n_test) n_test seed) as [train test] eqn:Hs.
  destruct (safe_indexing X train) as [a |] eqn:E1; cbn [bind] in H; [| discriminate].
  destruct (safe_indexing X test) as [b |] eqn:E2; cbn [bind] in H; [| discriminate].
  destruct (safe_indexing y train) as [c |] eqn:E3; cbn [bind] in H; [| discriminate].
  destruct (safe_indexing y test) as [d |] eqn:E4; cbn [bind] in H; [| discriminate].
  injection H as <- <- <- <-.
  assert (HX : Permutation (b ++ a) X).
  { apply (split_selection permutation X n_test seed); try assumption.
    - now apply Nat.lt_le_incl.
    - now rewrite Hs.
    - now rewrite Hs. }
  assert (HY : Permutation (d ++ c) y).
  { apply (split_selection permutation y n_test seed); try assumption.
    - rewrite Hy. now apply Nat.lt_le_incl.
    - now rewrite Hy, Hs.
    - now rewrite Hy, Hs. }
  split; [exact HX |]. split; [exact HY |].
  intros v. rewrite <- (count_label_perm v _ _ HY).
  unfold count_label. now rewrite filter_app, length_app.
Qed.

Lemma split_keeps_every_row_witness :
  Permutation ([[Fin 1]; [Fin 2]] ++ [[Fin 3]; [Fin 4]])
              (image_data_of four_rows) /\
  Permutation ([Fin 0; Fin 1] ++ [Fin 0; Fin 1]) (truth_labels_of four_rows) /\
  forall v, (count_label v [Fin 0; Fin 1] + count_label v [Fin 0; Fin 1])%nat
            = count_label v (truth_labels_of four_rows).
Proof.
  apply (split_keeps_every_row identity_permutation
           (image_data_of four_rows) (truth_labels_of four_rows) (1 # 2) 42
           [[Fin 3]; [Fin 4]] [[Fin 1]; [Fin 2]] [Fin 0; Fin 1] [Fin 0; Fin 1]).
  - exact identity_permutation_spec.
  - reflexivity.
Defined.

(** ** The accuracy of a trial *)

Lemma argmax_rows_length (a : list (list num)) :
  forall l, argmax_rows a = Ok l -> List.length l = List.length a.
Proof.
  induction a as [| r a IH]; intros l H; simpl in H.
  - now injection H as <-.
  - destruct (argmax r) as [i |]; cbn [bind] in H; [| discriminate].
    destruct (argmax_rows a) as [js |]; cbn [bind] in H; [| discriminate].
    injection H as <-. simpl. now rewrite (IH js).
Qed.

Lemma argmax_axis1_nonempty (a : list (list num)) (l : list nat) :
  argmax_axis1 a = Ok l ->
  (0 < List.length l)%nat /\ List.length l = List.length a.
Proof.
  destruct a as [| r a]; [discriminate |]. intros H.
  apply argmax_rows_length in H. rewrite H. simpl. split; [apply Nat.lt_0_succ | reflexivity].
Qed.

Lemma count_matches_le (legacy_numpy : bool) (p t : list nat) (m : nat) :
  List.length p = List.length t ->
  count_matches legacy_numpy p t = Ok m -> (m <= List.length p)%nat.
Proof.
  intros E. unfold count_matches. rewrite E, Nat.eqb_refl.
  intros H. injection H as <-.
  eapply Nat.le_trans; [apply filter_length_le |].
  rewrite length_combine. rewrite E. apply Nat.le_min_l.
Qed.

Lemma percentage_range (m n : nat) :
  (m <= n)%nat -> (0 < n)%nat ->
  exists v, nmul (ndiv (Fin (INR m)) (Fin (INR n))) (Fin 100) = Fin v /\
            0 <= v <= 100.
Proof.
  intros Hmn Hn.
  pose proof (lt_0_INR n Hn) as Hpos.
  pose proof (le_INR m n Hmn) as Hle.
  pose proof (pos_INR m) as Hm.
  rewrite ndiv_fin by lra. cbn [nmul]. eexists. split; [reflexivity |].
  assert (Hi : 0 < / INR n) by now apply Rinv_0_lt_compat.
  assert (Hq : 0 <= INR m / INR n <= 1).
  { unfold Rdiv. split; [apply Rmult_le_pos; lra |].
    replace 1 with (INR n * / INR n) by (field; lra).
    apply Rmult_le_compat_r; lra. }
  lra.
Qed.

Lemma safe_indexing_length {A : Type} (a : list A) (indices : list nat)
  (l : list A) :
  safe_indexing a indices = Ok l -> List.length l = List.length indices.
Proof.
  intros H. apply safe_indexing_inv in H. symmetry.
  induction H; simpl; congruence.
Qed.

Lemma safe_indexing_in {A : Type} (a : list A) (indices : list nat)
  (l : list A) :
  safe_indexing a indices = Ok l -> forall x, In x l -> In x a.
Proof.
  intros H. apply safe_indexing_inv in H.
  induction H as [| i x idx l Hx _ IH]; intros v Hv; [contradiction |].
  destruct Hv as [<- | Hv]; [now apply nth_error_In with i | now apply IH].
Qed.

(** The test rows and the test labels of a split are as many, and the
    test labels are labels of the table. *)
Lemma train_test_split_test (permutation : Z -> nat -> list nat)
  (X : table) (y : list num) (r : Q) (seed : Z)
  (X_train X_test : table) (y_train y_test : list num) :
  train_test_split permutation X y r seed
  = Ok (X_train, X_test, y_train, y_test) ->
  List.length X_test = List.length y_test /\
  forall v, In v y_test -> In v y.
Proof.
  unfold train_test_split.
  destruct (negb (List.length y =? List.length X)%nat); [discriminate |].
  destruct (validate_shuffle_split (List.length X) r) as [[n_train n_test] |];
    cbn [bind]; [| discriminate].
  destruct (shuffle_split permutation (List.length X) n_train n_test seed)
    as [train test].
  destruct (safe_indexing X train) as [xtr |]; cbn [bind]; [| discriminate].
  destruct (safe_indexing X test) as [xte |] eqn:E2; cbn [bind]; [| discriminate].
  destruct (safe_indexing y train) as [ytr |]; cbn [bind]; [| discriminate].
  destruct (safe_indexing y test) as [yte |] eqn:E4; cbn [bind]; [| discriminate].
  intros H. injection H as <- <- <- <-. split.
  - rewrite (safe_indexing_length _ _ _ E2), (safe_indexing_length _ _ _ E4).
    reflexivity.
  - exact (safe_indexing_in _ _ _ E4).
Qed.

(** X17. When the classifier answers with one prediction row for each
    test row and every label of the table is 0 or 1, a trial that returns
    an accuracy returns a finite percentage, between 0 and 100.  It need
    not be one otherwise: a single prediction row is broadcast against the
    test labels, and with three test rows of which two are of the predicted
    class the accuracy returned is 200. *)
Theorem accuracy_is_a_percentage :
  (forall (legacy_numpy : bool) (permutation : Z -> nat -> list nat)
          (do_classify : table -> table -> list (list num) -> nat -> bool ->
                         result (list (list num)))
          (image_data : table) (truth_labels : list num)
          (test_size : Q) (state : Z) (accuracy : num),
      (forall test_features train_features train_labels nn_count verbose
              predictions,
          do_classify test_features train_features train_labels nn_count verbose
          = Ok predictions ->
          List.length predictions = List.length test_features) ->
      Forall is_label truth_labels ->
      run_classifier legacy_numpy permutation do_classify image_data
                     truth_labels test_size state = Ok accuracy ->
      exists v, accuracy = Fin v /\ 0 <= v <= 100)
  /\
  (forall legacy_numpy : bool,
      run_classifier legacy_numpy identity_permutation one_row_classifier
        (image_data_of four_rows) (truth_labels_of four_rows) (3 # 4) 0
      = Ok (Fin 200)).
Proof.
  split.
  - intros legacy permutation do_classify X y r state a Hrows Hlabels H.
    unfold run_classifier in H.
    destruct (train_test_split permutation X y r state)
      as [[[[Xtr Xte] ytr] yte] |] eqn:Hsplit; cbn [bind] in H; [| discriminate].
    destruct (train_test_split_test _ _ _ _ _ _ _ _ _ Hsplit) as [Hlen Hin].
    destruct (do_classify Xte Xtr (generate_onehot_value ytr) 30%nat false)
      as [preds |] eqn:Hc; cbn [bind] in H; [| discriminate].
    apply Hrows in Hc.
    destruct (argmax_axis1_2d preds) as [pl |] eqn:Hp; cbn [bind] in H;
      [| discriminate].
    apply argmax_rows_length in Hp.
    destruct (argmax_axis1 (generate_onehot_value yte)) as [ex |] eqn:He;
      cbn [bind] in H; [| discriminate].
    apply argmax_axis1_nonempty in He. destruct He as [Hpos Hex].
    assert (Hyte : Forall is_label yte).
    { apply Forall_forall. intros v Hv.
      rewrite Forall_forall in Hlabels. now apply Hlabels, Hin. }
    destruct (onehot_labels yte Hyte) as [Hoh _].
    assert (Hsame : List.length pl = List.length ex) by congruence.
    destruct (count_matches legacy pl ex) as [m |] eqn:Hm; cbn [bind] in H;
      [| discriminate].
    injection H as <-.
    apply percentage_range.
    + now apply (count_matches_le legacy pl ex).
    + rewrite Hsame. exact Hpos.
  - intros legacy. unfold run_classifier.
    replace (train_test_split identity_permutation (image_data_of four_rows)
               (truth_labels_of four_rows) (3 # 4) 0)
      with (Ok ([[Fin 4]], [[Fin 1]; [Fin 2]; [Fin 3]],
                [Fin 1], [Fin 0; Fin 1; Fin 0])) by (vm_compute; reflexivity).
    cbn [bind one_row_classifier].
    rewrite !generate_onehot_value_cons, onehot_step_zero, onehot_step_one.
    change (generate_onehot_value []) with (@nil (list num)).
    cbn [app argmax_axis1_2d argmax_axis1 argmax_rows bind].
    rewrite argmax_zero_row, argmax_one_row.
    cbn [argmax argmax_from is_nan orb bind].
    rewrite (num_gtb_fin_le 0 1) by lra.
    cbn [bind count_matches List.length Nat.eqb filter INR].
    rewrite ndiv_fin by lra. cbn [nmul]. do 2 f_equal. field.
Qed.

Lemma accuracy_is_a_percentage_witness :
  exists v, Fin 100 = Fin v /\ 0 <= v <= 100.
Proof.
  apply (proj1 accuracy_is_a_percentage false identity_permutation
           small_train_fails (image_data_of four_rows)
           (truth_labels_of four_rows) (1 # 4) 1%Z (Fin 100)).
  - intros Xte Xtr ytr n v preds. unfold small_train_fails.
    destruct (List.length Xtr <? 2)%nat; [discriminate |].
    intros H. injection H as <-. apply length_map.
  - cbn [truth_labels_of four_rows values map hd].
    repeat (apply Forall_cons; [first [now left | now right] |]).
    apply Forall_nil.
  - apply example_second_trial.
Defined.

(** ** The table of the sweep *)

Section SweepTable.

Variable legacy_numpy : bool.
Variable permutation : Z -> nat -> list nat.
Variable do_classify :
  table -> table -> list (list num) -> nat -> bool -> result (list (list num)).
Variable randint : nat -> Z.
Variable test_size_values : list Q.
Variable num_runs : nat.

Local Abbreviation dataset :=
  (dataset_body legacy_numpy permutation do_classify randint
     test_size_values num_runs).

(** The columns that the tables of a completed sweep add. *)
Lemma datasets_columns (dfs : list (DataFrame * string)) :
  forall st st',
    for_each dataset dfs st = (st', None) ->
    exists cols,
      accuracies st' = accuracies st ++ cols /\
      map fst cols = map snd dfs /\
      Forall (fun c => List.length (snd c) = List.length test_size_values) cols.
Proof.
  induction dfs as [| [data data_label] dfs IH]; intros st st' H; simpl in H.
  - injection H as <-. exists []. rewrite app_nil_r. repeat split; constructor.
  - destruct (for_each
                (ratio_body legacy_numpy permutation do_classify randint
                   num_runs (image_data_of data) (truth_labels_of data))
                test_size_values (set_all_acc_dataset st []))
      as [st1 r1] eqn:Hr.
    apply ratios_loop in Hr.
    cbn [accuracies all_acc_dataset displayed pbar draws acc
           set_all_acc_dataset] in Hr.
    destruct Hr as [Ha [_ [j [Hl [_ Hr]]]]].
    destruct r1 as [e |]; [discriminate |].
    destruct Hr as [-> _]. simpl in Hl.
    apply IH in H. clear IH. destruct H as [cols [Hc [Hn Hf]]].
    cbn [accuracies set_accuracies] in Hc.
    exists ((data_label, all_acc_dataset st1) :: cols).
    rewrite Hc, Ha, <- app_assoc. simpl.
    repeat split; [now rewrite Hn | now constructor].
Qed.

End SweepTable.

(** X18. A sweep that ends without an exception leaves a rectangular
    table: the column [test_size] and then one column per table read, in
    the order of [data_files] and under its label, each with one entry per
    ratio. *)
Theorem sweep_table_is_rectangular :
  forall (legacy_numpy : bool) (permutation : Z -> nat -> list nat)
         (do_classify : table -> table -> list (list num) -> nat -> bool ->
                        result (list (list num)))
         (randint : nat -> Z) (test_size_values : list Q) (num_runs : nat)
         (data_files : list (DataFrame * string)) (st : sweep_state),
    sweep legacy_numpy permutation do_classify randint test_size_values
          num_runs data_files
    = (st, None) ->
    map fst (accuracies st) = "test_size"%string :: map snd data_files /\
    Forall (fun c => List.length (snd c) = List.length test_size_values)
           (accuracies st).
Proof.
  intros legacy permutation do_classify randint tsv num_runs data_files st H.
  unfold sweep in H.
  destruct (for_each
              (dataset_body legacy permutation do_classify randint tsv num_runs)
              data_files (sweep_init tsv)) as [st1 r1] eqn:Hloop.
  destruct r1 as [e |]; [discriminate |]. injection H as <-.
  apply datasets_columns in Hloop. destruct Hloop as [cols [Hc [Hn Hf]]].
  cbn [display accuracies]. rewrite Hc. cbn [sweep_init accuracies app map fst].
  split; [now rewrite Hn |].
  constructor; [simpl; apply length_map | exact Hf].
Qed.

Lemma sweep_table_is_rectangular_witness :
  exists st,
    sweep false identity_permutation small_train_fails Z.of_nat
          [3 # 4; 1 # 4]%Q 0 [(four_rows, "Raw data"%string)] = (st, None) /\
    map fst (accuracies st) = ["test_size"; "Raw data"]%string /\
    Forall (fun c => List.length (snd c) = 2%nat) (accuracies st).
Proof.
  eexists. split; [reflexivity |].
  exact (sweep_table_is_rectangular false identity_permutation
           small_train_fails Z.of_nat [3 # 4; 1 # 4]%Q 0
           [(four_rows, "Raw data"%string)] _ eq_refl).
Defined.

Lemma average_nil : average [] = NaN.
Proof. unfold average. cbn [fold_left List.length INR]. now apply ndiv_zero_zero. Qed.

Section SweepWithoutRuns.

Variable legacy_numpy : bool.
Variable permutation : Z -> nat -> list nat.
Variable do_classify :
  table -> table -> list (list num) -> nat -> bool -> result (list (list num)).
Variable randint : nat -> Z.
Variable test_size_values : list Q.

Lemma ratios_without_runs (X : table) (y : list num) (tsv : list Q) :
  forall st,
    exists st',
      for_each (ratio_body legacy_numpy permutation do_classify randint 0 X y)
               tsv st
      = (st', None) /\
      draws st' = draws st /\ pbar st' = pbar st /\
      accuracies st' = accuracies st /\ displayed st' = displayed st /\
      all_acc_dataset st' = all_acc_dataset st ++ repeat NaN (List.length tsv).
Proof.
  induction tsv as [| ts tsv IH]; intros st; simpl.
  - exists st. rewrite app_nil_r. repeat split.
  - unfold ratio_body at 1. cbn [seq for_each]. rewrite average_nil.
    destruct (IH (set_all_acc_dataset (set_acc st [])
                    (all_acc_dataset (set_acc st []) ++ [NaN])))
      as (st' & H & Hd & Hp & Ha & Hs & Hl).
    exists st'. split; [exact H |].
    cbn [draws pbar accuracies displayed all_acc_dataset set_acc
           set_all_acc_dataset] in *.
    rewrite Hl, <- app_assoc. repeat split; assumption.
Qed.

Lemma datasets_without_runs (dfs : list (DataFrame * string)) :
  forall st,
    exists st',
      for_each (dataset_body legacy_numpy permutation do_classify randint
                  test_size_values 0)
               dfs st = (st', None) /\
      draws st' = draws st /\ pbar st' = pbar st /\
      displayed st' = displayed st /\
      accuracies st'
      = accuracies st
        ++ map (fun d => (snd d, repeat NaN (List.length test_size_values))) dfs.
Proof.
  induction dfs as [| [data data_label] dfs IH]; intros st; simpl.
  - exists st. rewrite app_nil_r. repeat split.
  - destruct (ratios_without_runs (image_data_of data) (truth_labels_of data)
                test_size_values (set_all_acc_dataset st []))
      as (st1 & H1 & Hd1 & Hp1 & Ha1 & Hs1 & Hl1).
    rewrite H1.
    cbn [draws pbar accuracies displayed all_acc_dataset
           set_all_acc_dataset app] in *.
    destruct (IH (set_accuracies st1
                    (accuracies st1 ++ [(data_label, all_acc_dataset st1)])))
      as (st' & H & Hd & Hp & Hs & Ha).
    exists st'. split; [exact H |].
    cbn [draws pbar accuracies displayed set_accuracies] in *.
    rewrite Ha, Ha1, Hl1, <- app_assoc.
    repeat split; congruence.
Qed.

End SweepWithoutRuns.

(** X19. With [num_runs = 0] the sweep is not refused: it draws no seed,
    calls the classifier for no trial, and displays a table in which
    every mean accuracy is [nan]. *)
Theorem sweep_without_runs :
  forall (legacy_numpy : bool) (permutation : Z -> nat -> list nat)
         (do_classify : table -> table -> list (list num) -> nat -> bool ->
                        result (list (list num)))
         (randint : nat -> Z) (test_size_values : list Q)
         (data_files : list (DataFrame * string)),
  exists st,
    sweep legacy_numpy permutation do_classify randint test_size_values 0
          data_files
    = (st, None) /\
    draws st = 0%nat /\ pbar st = 0%nat /\ displayed st = true /\
    accuracies st
    = ("test_size"%string, map (fun q => Fin (Q2R q)) test_size_values)
      :: map (fun d => (snd d, repeat NaN (List.length test_size_values)))
             data_files.
Proof.
  intros legacy permutation do_classify randint tsv data_files.
  destruct (datasets_without_runs legacy permutation do_classify randint tsv
              data_files (sweep_init tsv)) as (st & H & Hd & Hp & Hs & Ha).
  exists (display st). unfold sweep. rewrite H.
  cbn [display draws pbar displayed accuracies].
  repeat split; assumption.
Qed.

(** ** The cutout generator *)

Lemma crop_is_20x20 (image : list (list num)) :
  rectangular image ->
  ((List.length image <? 20) || (List.length (hd [] image) <? 20)
   || (21 <? List.length image) || (21 <? List.length (hd [] image)))%nat%bool
  = false ->
  let image1 := if (List.length image =? 21)%nat then tl image else image in
  let image2 :=
    if (List.length (hd [] image1) =? 21)%nat
    then map (fun r => tl r) image1 else image1 in
  is_20x20 image2.
Proof.
  intros Hrect Hshape. cbn zeta.
  apply orb_false_elim in Hshape. destruct Hshape as [Hshape H4].
  apply orb_false_elim in Hshape. destruct Hshape as [Hshape H3].
  apply orb_false_elim in Hshape. destruct Hshape as [H1 H2].
  apply Nat.ltb_ge in H1, H2, H3, H4.
  set (c := List.length (hd [] image)) in *.
  set (image1 := if (List.length image =? 21)%nat then tl image else image).
  assert (Hrows : List.length image1 = 20%nat).
  { unfold image1. destruct (Nat.eqb_spec (List.length image) 21) as [E | E].
    - destruct image; simpl in *; [discriminate | now injection E]. 
    - apply Nat.le_antisymm; [| exact H1].
      apply Nat.lt_succ_r. apply Nat.le_neq. split; [exact H3 | exact E]. }
  assert (Hcols : forall r, In r image1 -> List.length r = c).
  { intros r Hr. apply Hrect. unfold image1 in Hr.
    destruct (List.length image =? 21)%nat; [| exact Hr].
    destruct image; [contradiction | now right]. }
  assert (Hhd : List.length (hd [] image1) = c).
  { apply Hcols. destruct image1; [discriminate | now left]. }
  rewrite Hhd.
  destruct (Nat.eqb_spec c 21) as [E | E]; split.
  - now rewrite length_map.
  - intros r Hr. apply in_map_iff in Hr. destruct Hr as [r0 [<- Hr0]].
    pose proof (Hcols r0 Hr0) as Hl. rewrite E in Hl.
    destruct r0; simpl in *; [discriminate | now injection Hl].
  - exact Hrows.
  - intros r Hr. rewrite (Hcols r Hr).
    apply Nat.le_antisymm; [| exact H2].
    apply Nat.lt_succ_r. apply Nat.le_neq. split; [exact H4 | exact E].
Qed.

Lemma nth_tl {A : Type} (l : list A) (i : nat) (d : A) :
  nth i (tl l) d = nth (S i) l d.
Proof. destruct l; [now destruct i | reflexivity]. Qed.

(** What the two deletions keep: the pixel [(i, j)] of the result is the
    pixel of the fetched array one row further down if a row was dropped
    and one column further right if a column was dropped. *)
Lemma crop_pixels (image : list (list num)) :
  rectangular image ->
  ((List.length image <? 20) || (List.length (hd [] image) <? 20)
   || (21 <? List.length image) || (21 <? List.length (hd [] image)))%nat%bool
  = false ->
  let image1 := if (List.length image =? 21)%nat then tl image else image in
  let image2 :=
    if (List.length (hd [] image1) =? 21)%nat
    then map (fun r => tl r) image1 else image1 in
  forall i j,
    nth j (nth i image2 []) NaN
    = nth (j + (List.length (hd [] image) - 20))
          (nth (i + (List.length image - 20)) image []) NaN.
Proof.
  intros Hrect Hshape. cbn zeta.
  apply orb_false_elim in Hshape. destruct Hshape as [Hshape H4].
  apply orb_false_elim in Hshape. destruct Hshape as [Hshape H3].
  apply orb_false_elim in Hshape. destruct Hshape as [H1 H2].
  apply Nat.ltb_ge in H1, H2, H3, H4.
  set (c := List.length (hd [] image)) in *.
  set (image1 := if (List.length image =? 21)%nat then tl image else image).
  assert (Hrow : forall i,
             nth i image1 [] = nth (i + (List.length image - 20)) image []).
  { intros i. unfold image1.
    destruct (Nat.eqb_spec (List.length image) 21) as [E | E].
    - rewrite E, nth_tl. f_equal. simpl. now rewrite Nat.add_1_r.
    - assert (E20 : List.length image = 20%nat).
      { apply Nat.le_antisymm; [| exact H1].
        apply Nat.lt_succ_r. apply Nat.le_neq. split; [exact H3 | exact E]. }
      rewrite E20. simpl. now rewrite Nat.add_0_r. }
  assert (Hhd : List.length (hd [] image1) = c).
  { assert (Hne : image1 <> []).
    { unfold image1. destruct (Nat.eqb_spec (List.length image) 21) as [E | E].
      - destruct image as [| r0 [| r1 rest]]; simpl in *; discriminate.
      - destruct image; simpl in *; [| discriminate].
        exfalso. exact (Nat.nle_succ_0 _ H1). }
    apply Hrect. unfold image1 in *.
    destruct (List.length image =? 21)%nat.
    - destruct image as [| r0 [| r1 rest]]; simpl in *;
        [contradiction | contradiction | right; now left].
    - destruct image; [contradiction | now left]. }
  intros i j. rewrite Hhd.
  destruct (Nat.eqb_spec c 21) as [E | E].
  - change (@nil num) with ((fun r : list num => tl r) []) at 1.
    rewrite map_nth, nth_tl, Hrow, E. f_equal. simpl. now rewrite Nat.add_1_r.
  - assert (E20 : c = 20%nat).
    { apply Nat.le_antisymm; [| exact H2].
      apply Nat.lt_succ_r. apply Nat.le_neq. split; [exact H4 | exact E]. }
    rewrite Hrow, E20. simpl. now rewrite Nat.add_0_r.
Qed.

(** X20. [save_image] on a fetched 2-D array: an array with fewer than 20
    or more than 21 rows or columns changes nothing (no file, counter and
    progress bar as they were); any other array is cut to 20 x 20 by
    dropping its first row if it has 21 rows and its first column if it
    has 21 columns, and what is left is written under the name
    [<obj_type>_<num>.fits]; the counter and the progress bar advance by
    one. *)
Theorem save_image_writes_20x20 :
  forall (fetch : string -> list (list num)) (cutout_path obj_type url : string)
         (st : generator_state),
    rectangular (fetch url) ->
    let rows := List.length (fetch url) in
    let cols := List.length (hd [] (fetch url)) in
    let st' := save_image fetch cutout_path obj_type url st in
    ((rows < 20 \/ cols < 20 \/ 21 < rows \/ 21 < cols)%nat -> st' = st) /\
    ((20 <= rows <= 21)%nat -> (20 <= cols <= 21)%nat ->
     exists image,
       is_20x20 image /\
       (forall i j,
           nth j (nth i image []) NaN
           = nth (j + (cols - 20)) (nth (i + (rows - 20)) (fetch url) []) NaN) /\
       gen_dir st'
       = write_file (gen_dir st)
           (cutout_path ++ cutout_name obj_type (gen_num st)) image /\
       gen_num st' = (gen_num st + 1)%nat /\
       gen_pbar st' = (gen_pbar st + 1)%nat).
Proof.
  intros fetch cutout_path obj_type url st Hrect. cbn zeta.
  unfold save_image.
  destruct ((List.length (fetch url) <? 20)
            || (List.length (hd [] (fetch url)) <? 20)
            || (21 <? List.length (fetch url))
            || (21 <? List.length (hd [] (fetch url))))%nat%bool eqn:Hshape.
  - split; [reflexivity |]. intros [H1 H2] [H3 H4]. exfalso.
    apply orb_true_iff in Hshape. destruct Hshape as [Hshape | H].
    + apply orb_true_iff in Hshape. destruct Hshape as [Hshape | H].
      * apply orb_true_iff in Hshape. destruct Hshape as [H | H];
          apply Nat.ltb_lt in H.
        -- exact (Nat.lt_irrefl _ (Nat.lt_le_trans _ _ _ H H1)).
        -- exact (Nat.lt_irrefl _ (Nat.lt_le_trans _ _ _ H H3)).
      * apply Nat.ltb_lt in H. exact (Nat.lt_irrefl _ (Nat.lt_le_trans _ _ _ H H2)).
    + apply Nat.ltb_lt in H. exact (Nat.lt_irrefl _ (Nat.lt_le_trans _ _ _ H H4)).
  - split.
    + intros H. exfalso.
      apply orb_false_elim in Hshape. destruct Hshape as [Hshape H4].
      apply orb_false_elim in Hshape. destruct Hshape as [Hshape H3].
      apply orb_false_elim in Hshape. destruct Hshape as [H1 H2].
      apply Nat.ltb_ge in H1, H2, H3, H4.
      destruct H as [H | [H | [H | H]]];
        eapply Nat.lt_irrefl, Nat.lt_le_trans; eassumption.
    + intros _ _. eexists. cbn [gen_dir gen_num gen_pbar].
      split; [exact (crop_is_20x20 (fetch url) Hrect Hshape) |].
      split; [exact (crop_pixels (fetch url) Hrect Hshape) |].
      repeat split.
Qed.

Lemma tall_image_rectangular (url : string) : rectangular (tall_image url).
Proof.
  intros r Hr. unfold tall_image in *. apply repeat_spec in Hr. now subst r.
Qed.

Lemma numbered_image_rectangular (url : string) :
  rectangular (numbered_image url).
Proof.
  intros r Hr. unfold numbered_image in *.
  apply in_map_iff in Hr. destruct Hr as [i [<- _]].
  now rewrite length_map.
Qed.

Lemma save_image_writes_20x20_witness :
  exists image,
    is_20x20 image /\
    (forall i j,
        nth j (nth i image []) NaN
        = nth (j + 1) (nth (i + 1) (numbered_image "u") []) NaN) /\
    gen_dir (save_image numbered_image "cutouts_test/" "star" "u"
               {| gen_num := 0; gen_plot_data := []; gen_pbar := 0; gen_dir := [] |})
    = write_file [] ("cutouts_test/" ++ cutout_name "star" 0) image /\
    gen_num (save_image numbered_image "cutouts_test/" "star" "u"
               {| gen_num := 0; gen_plot_data := []; gen_pbar := 0; gen_dir := [] |})
    = 1%nat /\
    gen_pbar (save_image numbered_image "cutouts_test/" "star" "u"
                {| gen_num := 0; gen_plot_data := []; gen_pbar := 0; gen_dir := [] |})
    = 1%nat.
Proof.
  apply (proj2 (save_image_writes_20x20 numbered_image "cutouts_test/" "star" "u"
                  {| gen_num := 0; gen_plot_data := []; gen_pbar := 0;
                     gen_dir := [] |}
                  (numbered_image_rectangular "u"))); simpl; lia.
Defined.

Section GeneratorFacts.

Variable fetch : string -> list (list num).
Variable query_url : num * num -> option string.
Variable ra_dec : string -> list (num * num).
Variable cutout_path : string.
Variable num_cutouts : nat.
Hypothesis fetch_2d : forall url, rectangular (fetch url).

Lemma save_image_generated (obj_type url : string) (st : generator_state) :
  obj_type = "star"%string \/ obj_type = "galaxy"%string ->
  (gen_num st < num_cutouts)%nat ->
  Forall (generated cutout_path num_cutouts) (gen_dir st) ->
  Forall (generated cutout_path num_cutouts)
         (gen_dir (save_image fetch cutout_path obj_type url st)).
Proof.
  intros Hot Hk Hdir. unfold save_image.
  destruct ((List.length (fetch url) <? 20)
            || (List.length (hd [] (fetch url)) <? 20)
            || (21 <? List.length (fetch url))
            || (21 <? List.length (hd [] (fetch url))))%nat%bool eqn:Hshape;
    [exact Hdir |].
  cbn [gen_dir]. rewrite Forall_forall in Hdir |- *.
  intros [n c] Hin. apply in_write_file in Hin.
  destruct Hin as [E | Hin]; [| now apply Hdir].
  injection E as -> ->.
  exists obj_type, (gen_num st). repeat split; try assumption;
    apply (crop_is_20x20 (fetch url) (fetch_2d url) Hshape).
Qed.

Lemma save_image_counter (obj_type url : string) (st : generator_state) :
  (gen_num st <= gen_num (save_image fetch cutout_path obj_type url st)
   <= S (gen_num st))%nat.
Proof.
  unfold save_image.
  destruct ((List.length (fetch url) <? 20)
            || (List.length (hd [] (fetch url)) <? 20)
            || (21 <? List.length (fetch url))
            || (21 <? List.length (hd [] (fetch url))))%nat%bool;
    cbn [gen_num]; lia.
Qed.

Lemma cutout_loop_generated (obj_type : string) (positions : list (num * num)) :
  obj_type = "star"%string \/ obj_type = "galaxy"%string ->
  forall st,
    (gen_num st <= num_cutouts)%nat ->
    Forall (generated cutout_path num_cutouts) (gen_dir st) ->
    let st' := cutout_loop fetch query_url cutout_path num_cutouts
                 obj_type positions st in
    (gen_num st' <= num_cutouts)%nat /\
    Forall (generated cutout_path num_cutouts) (gen_dir st').
Proof.
  intros Hot. induction positions as [| p rest IH]; intros st Hn Hdir; cbn zeta.
  - now split.
  - simpl. destruct (Nat.ltb_spec (gen_num st) num_cutouts) as [Hlt | Hge];
      [| now split].
    destruct (query_url p) as [url |]; [| now apply IH].
    apply IH.
    + pose proof (save_image_counter obj_type url st). lia.
    + now apply save_image_generated.
Qed.

Lemma generate_cutouts_generated :
  let st := generate_cutouts fetch query_url ra_dec cutout_path num_cutouts [] in
  (gen_num st <= num_cutouts)%nat /\
  Forall (generated cutout_path num_cutouts) (gen_dir st).
Proof.
  cbn zeta. unfold generate_cutouts. cbn [fold_left]. unfold generate_type.
  apply cutout_loop_generated; [now right | cbn; lia |].
  cbn [gen_dir].
  apply cutout_loop_generated; [now left | cbn; lia | constructor].
Qed.

End GeneratorFacts.

(** X21. Whatever the queries return, the generator started on an empty
    directory leaves only 20 x 20 cutouts, each named [star_<k>.fits] or
    [galaxy_<k>.fits] with [k] below [num_cutouts]; and it makes at most
    [num_cutouts] cutouts of a type. *)
Theorem generator_output :
  forall (fetch : string -> list (list num))
         (query_url : num * num -> option string)
         (ra_dec : string -> list (num * num))
         (cutout_path : string) (num_cutouts : nat),
    (forall url, rectangular (fetch url)) ->
    (gen_num (generate_cutouts fetch query_url ra_dec cutout_path num_cutouts [])
     <= num_cutouts)%nat /\
    Forall (generated cutout_path num_cutouts)
      (gen_dir (generate_cutouts fetch query_url ra_dec cutout_path num_cutouts [])).
Proof.
  intros fetch query_url ra_dec cutout_path num_cutouts H.
  exact (generate_cutouts_generated fetch query_url ra_dec cutout_path
           num_cutouts H).
Qed.

Lemma generator_output_witness :
  (gen_num (generate_cutouts tall_image (fun p => Some "u"%string)
              (fun _ => [(Fin 1, Fin 2); (Fin 3, Fin 4); (Fin 5, Fin 6)])
              "cutouts_test/" 2 [])
   <= 2)%nat /\
  Forall (generated "cutouts_test/" 2)
    (gen_dir (generate_cutouts tall_image (fun p => Some "u"%string)
                (fun _ => [(Fin 1, Fin 2); (Fin 3, Fin 4); (Fin 5, Fin 6)])
                "cutouts_test/" 2 [])).
Proof.
  apply (generator_output tall_image (fun p => Some "u"%string)
           (fun _ => [(Fin 1, Fin 2); (Fin 3, Fin 4); (Fin 5, Fin 6)])
           "cutouts_test/" 2).
  exact tall_image_rectangular.
Defined.

(** ** From the generator's names to the loader's labels *)

Lemma string_length_app (p s : string) :
  String.length (p ++ s) = (String.length p + String.length s)%nat.
Proof. induction p as [| c p IH]; simpl; [reflexivity | now rewrite IH]. Qed.

Lemma substring_whole (s : string) : substring 0 (String.length s) s = s.
Proof. induction s as [| c s IH]; simpl; [reflexivity | now rewrite IH]. Qed.

Lemma substring_suffix (p s : string) :
  substring (String.length p) (String.length s) (p ++ s) = s.
Proof. induction p as [| c p IH]; simpl; [apply substring_whole | exact IH]. Qed.

Lemma string_app_assoc (a b c : string) :
  ((a ++ b) ++ c = a ++ (b ++ c))%string.
Proof. induction a as [| x a IH]; simpl; [reflexivity | now rewrite IH]. Qed.

Lemma endswith_app (p s : string) : endswith (p ++ s) s = true.
Proof.
  unfold endswith. rewrite string_length_app.
  replace (String.length p + String.length s - String.length s)%nat
    with (String.length p) by lia.
  rewrite substring_suffix, String.eqb_refl, andb_true_r.
  apply Nat.leb_le. lia.
Qed.

Lemma cutout_name_fits (obj_type : string) (k : nat) :
  endswith (cutout_name obj_type k) ".fits" = true.
Proof.
  unfold cutout_name.
  rewrite <- string_app_assoc, <- string_app_assoc. apply endswith_app.
Qed.

Lemma listing_keeps (names : list string) :
  Forall (fun f => endswith f ".fits" = true) names ->
  cutout_files (list_cutouts names) = names.
Proof.
  intros H.
  pose proof (list_cutouts_fold names
                {| cutout_files := []; gals := 0; stars := 0 |}) as Hfold.
  cbn zeta in Hfold. destruct Hfold as [Hf _].
  unfold list_cutouts. rewrite Hf. simpl. clear Hf.
  induction H as [| f l Hf' _ IH]; simpl; [reflexivity |].
  now rewrite Hf', IH.
Qed.

(** X22. The names the generator gives are the names the normalisation
    notebook expects: for any list of cutouts written as
    [star_<k>.fits] or [galaxy_<k>.fits], the listing cell keeps every
    name, and the loader labels each row by the type in the name, 0 for a
    star and 1 for a galaxy, and never raises [NameError]. *)
Theorem generated_names_are_labelled :
  forall (specs : list (bool * nat)) (getdata : string -> list (list num))
         (st : loader_state),
    let names :=
      map (fun s : bool * nat => cutout_name (if fst s then "galaxy" else "star")%string (snd s))
          specs in
    cutout_files (list_cutouts names) = names /\
    (loader_loop getdata loader_init names = Ok st ->
     map (fun r => hd NaN r) (gal_star st)
     = map (fun s : bool * nat => if fst s then Fin 1 else Fin 0) specs) /\
    loader_loop getdata loader_init names <> Raise NameError.
Proof.
  intros specs getdata st. cbn zeta. split; [| split].
  - apply listing_keeps, Forall_map, Forall_forall. intros s _.
    apply cutout_name_fits.
  - intros H. apply loader_labels in H.
    remember (gal_star st) as rows eqn:E. clear E.
    revert rows H. induction specs as [| [[|] k] specs IH]; intros rows H;
      inversion H as [| f r fl rl Hl Hrest]; subst; simpl; [reflexivity | |];
      destruct Hl as [lbl [data [-> [_ [Hs Hg]]]]]; simpl;
      f_equal; try (now apply IH).
    + now apply Hg.
    + now apply Hs.
  - assert (Hgen : forall st0,
               loader_loop getdata st0
                 (map (fun s : bool * nat => cutout_name (if fst s then "galaxy" else "star")%string
                                            (snd s)) specs)
               <> Raise NameError).
    { induction specs as [| [b k] specs IH]; intros st0; simpl; [discriminate |].
      unfold loader_step at 1.
      destruct (flatten (getdata _)) as [| x l]; cbn [amin amax bind];
        [discriminate |].
      destruct b; cbn [fst snd].
      - change (startswith (cutout_name "galaxy" k) "galaxy") with true.
        cbn [bind]. apply IH.
      - change (startswith (cutout_name "star" k) "star") with true.
        change (startswith (cutout_name "star" k) "galaxy") with false.
        cbn [bind]. apply IH. }
    apply Hgen.
Qed.

Lemma generated_names_are_labelled_witness :
  cutout_files (list_cutouts ["star_0.fits"; "galaxy_0.fits"]%string)
  = ["star_0.fits"; "galaxy_0.fits"]%string /\
  exists st,
    loader_loop scenario_getdata loader_init ["star_0.fits"; "galaxy_0.fits"]%string
    = Ok st /\
    map (fun r => hd NaN r) (gal_star st) = [Fin 0; Fin 1].
Proof.
  split.
  - exact (proj1 (generated_names_are_labelled [(false, 0%nat); (true, 0%nat)]
                    scenario_getdata loader_init)).
  - eexists. split; [reflexivity |].
    apply (proj1 (proj2 (generated_names_are_labelled
                           [(false, 0%nat); (true, 0%nat)] scenario_getdata _))).
    reflexivity.
Defined.

(** ** The catalogue cuts *)

Lemma num_gtb_fin (x y : R) : num_gtb (Fin x) (Fin y) = true <-> y < x.
Proof. simpl. destruct (Rlt_dec y x); split; intros; (assumption || congruence || reflexivity). Qed.

(** A flux whose magnitude is below a finite limit is positive. *)
Lemma magnitude_below_positive (flux : num) (limit : R) :
  num_ltb (magnitude flux) (Fin limit) = true ->
  num_gtb flux (Fin 0) = true.
Proof.
  unfold num_ltb, magnitude.
  destruct flux as [x | | |]; try reflexivity; try discriminate.
  cbn [log10]. destruct (Rtotal_order x 0) as [H | [H | H]].
  - rewrite (Rsign_neg x H). discriminate.
  - rewrite (Rsign_zero x H). cbn [nmul].
    rewrite (Rsign_pos 2.5) by lra. discriminate.
  - intros _. now apply num_gtb_fin.
Qed.

Lemma within_limits_positive (o : catalog_row) :
  within_limits o = true -> positive_flux o = true.
Proof.
  unfold within_limits, positive_flux. intros H.
  apply andb_true_iff in H. destruct H as [H Hz].
  apply andb_true_iff in H. destruct H as [Hg Hr].
  now rewrite (magnitude_below_positive _ _ Hg),
              (magnitude_below_positive _ _ Hr),
              (magnitude_below_positive _ _ Hz).
Qed.

(** X23. The cut to positive fluxes, made before the magnitudes are
    computed, removes no object that the magnitude cut would keep: with or
    without it the same objects, in the same order, pass the magnitude
    cut. *)
Theorem flux_cut_removes_nothing_kept :
  forall objects : list catalog_row,
    magnitude_cut (flux_cut objects) = magnitude_cut objects.
Proof.
  intros objects. unfold magnitude_cut, flux_cut.
  induction objects as [| o objects IH]; [reflexivity |]. simpl.
  destruct (within_limits o) eqn:Hw.
  - rewrite (within_limits_positive o Hw). simpl. now rewrite Hw, IH.
  - destruct (positive_flux o); simpl; [now rewrite Hw, IH | exact IH].
Qed.
